(** * NodeDataFlowEditor: the graph registry and the connection builder

    A shallow embedding of [GraphRegistry] (utility/src/GraphRegistry.cpp),
    [NodeFactory::PortsAreCompatible] and
    [NodeFactory::createConnectionBetweenPorts] (factory/src/NodeFactory.cpp),
    the parts of [NodeItem], [PortLabel] and [ConnectionItem] they read and
    write, and [GroupItem]'s constructor and [ungroup]
    (view/src/GroupItem.cpp).

    Objects live in a heap addressed by pointers; a pointer is a non-zero
    address ([positive]), every pointer handed to an operation is taken to
    point to a live object, and [new] never hands out an address twice.
    Geometry, painting and signal wiring are left out: no operation below
    branches on them.  The queries that recurse along the forwarding tables
    take the allowed nesting of calls as [fuel] and answer [None] when it
    runs out; an operation that dereferences the result of a failed lookup
    answers [None] as well. *)

From stdpp Require Import gmap strings list option.
From Stdlib Require Import ZArith Lia Relations.

Open Scope Z_scope.
Open Scope nat_scope.

(** ** QMap: Qt's ordered map

    [QMap<K*, V>] keeps one entry per key and iterates in key order.  It is
    an association list that [insert] keeps ordered by address. *)

Module QMap.

Definition t (V : Type) : Type := list (positive * V).

Section Ops.
Context {V : Type}.

Definition empty : t V := [].

(** [value(k)]: the entry stored under [k], when there is one. *)
Fixpoint value (m : t V) (k : positive) : option V :=
  match m with
  | [] => None
  | (k', v) :: m' => if Pos.eqb k' k then Some v else value m' k
  end.

Definition contains (m : t V) (k : positive) : bool :=
  match value m k with Some _ => true | None => false end.

(** [m[k] = v]: replaces the entry of [k] or adds it at its place. *)
Fixpoint insert (k : positive) (v : V) (m : t V) : t V :=
  match m with
  | [] => [(k, v)]
  | (k', v') :: m' =>
      if Pos.ltb k k' then (k, v) :: m
      else if Pos.eqb k k' then (k, v) :: m'
      else (k', v') :: insert k v m'
  end.

(** [remove(k)] (also [erase(find(k))]). *)
Definition remove (k : positive) (m : t V) : t V :=
  List.filter (fun kv => negb (Pos.eqb (fst kv) k)) m.

Definition keys (m : t V) : list positive := List.map fst m.
Definition values (m : t V) : list V := List.map snd m.
End Ops.

(** [m[k].push_back(x)] on a map of vectors: [operator[]] creates an
    empty vector when [k] has none. *)
Definition push_back {A : Type} (k : positive) (x : A) (m : t (list A)) : t (list A) :=
  insert k (default [] (value m k) ++ [x]) m.

(** The vector read through [value(k)], empty for a missing key. *)
Definition at_ {A : Type} (m : t (list A)) (k : positive) : list A :=
  default [] (value m k).

End QMap.

(** ** Taggable: the tag bitmask of a port *)

Module Taggable.

(** Modelled from the spec: taggable/Taggable.hpp is not among the
    sources.  A TagSet is "a fixed-width bitmask over tag indices" with
    "bit i set iff the entity carries the tag with index i"; the width is
    the registry's capacity and no operation below depends on it. *)
Definition TagSet : Type := N.

(** Modelled from the spec: the set that holds the tag of index [i] and
    no other ([addTag] on an empty set). *)
Definition singleTag (i : N) : TagSet := N.shiftl 1 i.

(** Modelled from the spec: [addTag], which sets the bit of the tag. *)
Definition addTag (i : N) (s : TagSet) : TagSet := N.lor s (singleTag i).

(** The number of binary digits 1 of [p]. *)
Fixpoint popcount (p : positive) : nat :=
  match p with
  | xH => 1
  | xO q => popcount q
  | xI q => S (popcount q)
  end.

(** Modelled from the spec: [getTagBitMask().count()], the number of bits
    set in the mask (std::bitset::count). *)
Definition count (s : TagSet) : nat :=
  match s with
  | N0 => 0
  | Npos p => popcount p
  end.

(** Modelled from the spec: [haveSameTags(a, b)], "the two TagSets are
    exactly equal". *)
Definition haveSameTags (a b : TagSet) : bool := N.eqb a b.

(** Modelled from the spec: [copyTagsFrom(other)] "copies the concrete
    port's TagSet onto the forward port": the receiver's mask becomes the
    argument's mask ("copying, not unioning"). *)
Definition copyTagsFrom (self other : TagSet) : TagSet := other.

End Taggable.

(** ** The objects of the scene *)

(** Pointers to [NodeItem] (and [GroupItem]), [PortLabel] and
    [ConnectionItem] objects. *)
Abbreviation NodePtr := positive (only parsing).
Abbreviation PortPtr := positive (only parsing).
Abbreviation ConnPtr := positive (only parsing).

(** [PortLabel::Orientation]; [Parameter_] is the source's [Parameter]. *)
Inductive Orientation : Type := Input | Parameter_ | Output.

Global Instance Orientation_eq_dec : EqDecision Orientation.
Proof. solve_decision. Defined.

(** The members of a [PortLabel] the registry and the factory read, with the
    tag mask of its [Taggable] base and the two [QGraphicsItem] properties
    [isVisible()] and [parentItem()]. *)
Record PortLabel : Type := mkPortLabel {
  m_portName : string;
  m_portDisplayName : string;
  m_moduleName : string;
  m_orientation : Orientation;
  m_tags : Taggable.TagSet;
  port_isVisible : bool;
  port_parentItem : option NodePtr
}.

Definition isAnyInputPort (p : PortLabel) : bool :=
  bool_decide (m_orientation p = Input) || bool_decide (m_orientation p = Parameter_).
Definition isParameterPort (p : PortLabel) : bool := bool_decide (m_orientation p = Parameter_).
Definition isInputPort (p : PortLabel) : bool := bool_decide (m_orientation p = Input).
Definition isOutputPort (p : PortLabel) : bool := bool_decide (m_orientation p = Output).

(** [ConnectionPort]: the name, the module name and the side of an endpoint
    (its position and rectangle are geometry). *)
Record ConnectionPort : Type := mkConnectionPort {
  portName : string;
  moduleName : string;
  isInput : bool
}.

(** [PortLabel::getConnectionPortData]. *)
Definition getConnectionPortData (p : PortLabel) : ConnectionPort :=
  {| portName := m_portName p; moduleName := m_moduleName p; isInput := isAnyInputPort p |}.

Record ConnectionItem : Type := mkConnectionItem {
  m_inputPort : ConnectionPort;
  m_outputPort : ConnectionPort;
  conn_isActive : bool
}.

Definition emptyConnectionPort : ConnectionPort :=
  {| portName := ""; moduleName := ""; isInput := false |}.

(** [ConnectionItem::addPort]: the endpoint goes to the side its [isInput]
    names. *)
Definition addPort (port : ConnectionPort) (c : ConnectionItem) : ConnectionItem :=
  if isInput port
  then {| m_inputPort := port; m_outputPort := m_outputPort c; conn_isActive := conn_isActive c |}
  else {| m_inputPort := m_inputPort c; m_outputPort := port; conn_isActive := conn_isActive c |}.

(** [ConnectionItem(port1, port2)]: both sides empty and inactive, then
    [addPort(port1)] and [addPort(port2)]. *)
Definition newConnectionItem (port1 port2 : ConnectionPort) : ConnectionItem :=
  addPort port2 (addPort port1
    {| m_inputPort := emptyConnectionPort; m_outputPort := emptyConnectionPort;
       conn_isActive := false |}).

(** [ConnectionItem::setIsActive]. *)
Definition setIsActive (b : bool) (c : ConnectionItem) : ConnectionItem :=
  {| m_inputPort := m_inputPort c; m_outputPort := m_outputPort c; conn_isActive := b |}.

(** The control of a parameter port, as [m_parameterPorts] holds it: whether
    its proxy is enabled, and how many clones [WidgetVisitor::visit] hands to
    [addGroupWidget] for it (none for a missing widget, one for a plain
    control, more for a container). *)
Record ParamWidget : Type := mkParamWidget {
  widget_enabled : bool;
  widget_clones : nat
}.

(** A [NodeItem]; [is_group] says that the object is, at this point of its
    life, a [GroupItem] (what [dynamic_cast<GroupItem*>] tests), and
    [group_nodes] is [GroupItem::m_nodes]. *)
Record NodeItem : Type := mkNodeItem {
  m_nodeName : string;
  m_displayedNodeName : string;
  m_inputs : list PortPtr;
  m_outputs : list PortPtr;
  m_parameterPorts : QMap.t ParamWidget;
  node_isActive : bool;
  node_isVisible : bool;
  node_isMovable : bool;
  is_group : bool;
  group_nodes : list NodePtr
}.

(** ** Descriptors and the registry *)

Record NodeDescriptor : Type := mkNodeDescriptor {
  nd_uid : Z;
  nd_node : NodePtr;
  inputsDescriptor : QMap.t (list ConnPtr);
  outputsDescriptor : QMap.t (list ConnPtr);
  parametersInputsDescriptor : QMap.t (list ConnPtr)
}.

(** [memberNodes] holds descriptor pointers; a descriptor is named here by
    the node it describes. *)
Record GroupDescriptor : Type := mkGroupDescriptor {
  gd_uid : Z;
  gd_group : NodePtr;
  memberNodes : list NodePtr;
  forwardInputsDescriptor : QMap.t (list PortPtr);
  forwardOutputsDescriptor : QMap.t (list PortPtr);
  forwardParametersInputsDescriptor : QMap.t (list PortPtr)
}.

Record GraphRegistry : Type := mkGraphRegistry {
  m_nodes : QMap.t NodeDescriptor;
  m_groups : QMap.t GroupDescriptor;
  m_nextNodeId : Z;
  m_nextGroupId : Z
}.

(** [qint64] arithmetic: the value of a 64-bit two's-complement counter. *)
Definition wrap64 (z : Z) : Z := ((z + 2 ^ 63) mod 2 ^ 64 - 2 ^ 63)%Z.

(** The heap of live objects, the registry, and the next address [new]
    hands out. *)
Record World : Type := mkWorld {
  nodeItems : gmap positive NodeItem;
  portLabels : gmap positive PortLabel;
  connectionItems : gmap positive ConnectionItem;
  registry : GraphRegistry;
  nextAddr : positive
}.

Global Instance PortLabel_inhabited : Inhabited PortLabel :=
  populate (mkPortLabel "" "" "" Output 0%N true None).
Global Instance ConnectionItem_inhabited : Inhabited ConnectionItem :=
  populate (mkConnectionItem emptyConnectionPort emptyConnectionPort false).
Global Instance NodeItem_inhabited : Inhabited NodeItem :=
  populate (mkNodeItem "" "" [] [] [] false true true false []).

(** [GraphRegistry::GraphRegistry()]: empty tables, both counters at 1. *)
Definition emptyRegistry : GraphRegistry :=
  {| m_nodes := []; m_groups := []; m_nextNodeId := 1; m_nextGroupId := 1 |}.

Definition initWorld : World :=
  {| nodeItems := ∅; portLabels := ∅; connectionItems := ∅;
     registry := emptyRegistry; nextAddr := 1%positive |}.

(** Dereferencing. *)
Definition portAt (w : World) (p : PortPtr) : PortLabel := portLabels w !!! p.
Definition nodeAt (w : World) (n : NodePtr) : NodeItem := nodeItems w !!! n.
Definition connAt (w : World) (c : ConnPtr) : ConnectionItem := connectionItems w !!! c.

Definition set_registry (r : GraphRegistry) (w : World) : World :=
  {| nodeItems := nodeItems w; portLabels := portLabels w;
     connectionItems := connectionItems w; registry := r; nextAddr := nextAddr w |}.
Definition set_port (p : PortPtr) (o : PortLabel) (w : World) : World :=
  {| nodeItems := nodeItems w; portLabels := <[p := o]> (portLabels w);
     connectionItems := connectionItems w; registry := registry w; nextAddr := nextAddr w |}.
Definition set_node (n : NodePtr) (o : NodeItem) (w : World) : World :=
  {| nodeItems := <[n := o]> (nodeItems w); portLabels := portLabels w;
     connectionItems := connectionItems w; registry := registry w; nextAddr := nextAddr w |}.
Definition set_conn (c : ConnPtr) (o : ConnectionItem) (w : World) : World :=
  {| nodeItems := nodeItems w; portLabels := portLabels w;
     connectionItems := <[c := o]> (connectionItems w); registry := registry w;
     nextAddr := nextAddr w |}.

(** [new]: the address of the fresh object. *)
Definition alloc (w : World) : positive * World :=
  (nextAddr w,
   {| nodeItems := nodeItems w; portLabels := portLabels w;
      connectionItems := connectionItems w; registry := registry w;
      nextAddr := Pos.succ (nextAddr w) |}).

Definition set_m_nodes (m : QMap.t NodeDescriptor) (r : GraphRegistry) : GraphRegistry :=
  {| m_nodes := m; m_groups := m_groups r; m_nextNodeId := m_nextNodeId r;
     m_nextGroupId := m_nextGroupId r |}.
Definition set_m_groups (m : QMap.t GroupDescriptor) (r : GraphRegistry) : GraphRegistry :=
  {| m_nodes := m_nodes r; m_groups := m; m_nextNodeId := m_nextNodeId r;
     m_nextGroupId := m_nextGroupId r |}.

(** ** GraphRegistry (utility/src/GraphRegistry.cpp) *)

Definition lookupNodeUnlocked (w : World) (n : NodePtr) : option NodeDescriptor :=
  QMap.value (m_nodes (registry w)) n.

Definition lookupGroupUnlocked (w : World) (g : NodePtr) : option GroupDescriptor :=
  QMap.value (m_groups (registry w)) g.

(** Writing through a descriptor pointer held by [m_nodes] or [m_groups]. *)
Definition store_node (n : NodePtr) (d : NodeDescriptor) (w : World) : World :=
  set_registry (set_m_nodes (QMap.insert n d (m_nodes (registry w))) (registry w)) w.
Definition store_group (g : NodePtr) (d : GroupDescriptor) (w : World) : World :=
  set_registry (set_m_groups (QMap.insert g d (m_groups (registry w))) (registry w)) w.

Definition registerNode (w : World) (n : NodePtr) : World * Z :=
  if is_group (nodeAt w n) then (w, (-1)%Z)
  else
    match QMap.value (m_nodes (registry w)) n with
    | Some d => (w, nd_uid d)
    | None =>
        let r := registry w in
        let d := {| nd_uid := m_nextNodeId r; nd_node := n;
                    inputsDescriptor := []; outputsDescriptor := [];
                    parametersInputsDescriptor := [] |} in
        (set_registry
           {| m_nodes := QMap.insert n d (m_nodes r); m_groups := m_groups r;
              m_nextNodeId := wrap64 (m_nextNodeId r + 1);
              m_nextGroupId := m_nextGroupId r |} w,
         nd_uid d)
    end.

Definition unregisterNode (w : World) (n : NodePtr) : World :=
  if is_group (nodeAt w n) then w
  else if QMap.contains (m_nodes (registry w)) n
       then set_registry (set_m_nodes (QMap.remove n (m_nodes (registry w))) (registry w)) w
       else w.

Definition getNode (w : World) (n : NodePtr) : option NodeDescriptor :=
  lookupNodeUnlocked w n.

Definition set_inputsDescriptor (m : QMap.t (list ConnPtr)) (d : NodeDescriptor) :=
  {| nd_uid := nd_uid d; nd_node := nd_node d; inputsDescriptor := m;
     outputsDescriptor := outputsDescriptor d;
     parametersInputsDescriptor := parametersInputsDescriptor d |}.
Definition set_outputsDescriptor (m : QMap.t (list ConnPtr)) (d : NodeDescriptor) :=
  {| nd_uid := nd_uid d; nd_node := nd_node d; inputsDescriptor := inputsDescriptor d;
     outputsDescriptor := m;
     parametersInputsDescriptor := parametersInputsDescriptor d |}.
Definition set_parametersInputsDescriptor (m : QMap.t (list ConnPtr)) (d : NodeDescriptor) :=
  {| nd_uid := nd_uid d; nd_node := nd_node d; inputsDescriptor := inputsDescriptor d;
     outputsDescriptor := outputsDescriptor d;
     parametersInputsDescriptor := m |}.

Definition registerInput (w : World) (n : NodePtr) (p : PortPtr) : World :=
  if isInputPort (portAt w p) then
    match lookupNodeUnlocked w n with
    | Some d => store_node n (set_inputsDescriptor (QMap.insert p [] (inputsDescriptor d)) d) w
    | None => w
    end
  else w.

Definition registerOutput (w : World) (n : NodePtr) (p : PortPtr) : World :=
  if isOutputPort (portAt w p) then
    match lookupNodeUnlocked w n with
    | Some d => store_node n (set_outputsDescriptor (QMap.insert p [] (outputsDescriptor d)) d) w
    | None => w
    end
  else w.

Definition registerParameter (w : World) (n : NodePtr) (p : PortPtr) : World :=
  if isParameterPort (portAt w p) then
    match lookupNodeUnlocked w n with
    | Some d =>
        store_node n
          (set_parametersInputsDescriptor (QMap.insert p [] (parametersInputsDescriptor d)) d) w
    | None => w
    end
  else w.

Definition unregisterInput (w : World) (n : NodePtr) (p : PortPtr) : World :=
  if isInputPort (portAt w p) then
    match lookupNodeUnlocked w n with
    | Some d => store_node n (set_inputsDescriptor (QMap.remove p (inputsDescriptor d)) d) w
    | None => w
    end
  else w.

Definition unregisterOutput (w : World) (n : NodePtr) (p : PortPtr) : World :=
  if isOutputPort (portAt w p) then
    match lookupNodeUnlocked w n with
    | Some d => store_node n (set_outputsDescriptor (QMap.remove p (outputsDescriptor d)) d) w
    | None => w
    end
  else w.

Definition unregisterParameter (w : World) (n : NodePtr) (p : PortPtr) : World :=
  match lookupNodeUnlocked w n with
  | Some d =>
      store_node n
        (set_parametersInputsDescriptor (QMap.remove p (parametersInputsDescriptor d)) d) w
  | None => w
  end.

(** [findNode]/[findGroup]: the first descriptor, in key order, whose item
    carries the name. *)
Definition findNode (w : World) (name : string) : option NodeDescriptor :=
  List.find (fun nd => String.eqb (m_nodeName (nodeAt w (nd_node nd))) name)
            (QMap.values (m_nodes (registry w))).

Definition findGroup (w : World) (name : string) : option GroupDescriptor :=
  List.find (fun gd => String.eqb (m_nodeName (nodeAt w (gd_group gd))) name)
            (QMap.values (m_groups (registry w))).

Definition findNodeInGroup (w : World) (name : string) (g : NodePtr) : option NodeDescriptor :=
  match lookupGroupUnlocked w g with
  | None => None
  | Some gd =>
      match List.find (fun n => String.eqb (m_nodeName (nodeAt w n)) name) (memberNodes gd) with
      | Some n => lookupNodeUnlocked w n
      | None => None
      end
  end.

Definition resolvePort (w : World) (nodeName portName : string) : option PortPtr :=
  let scan (mp : QMap.t (list ConnPtr)) :=
    List.find (fun p => String.eqb (m_portName (portAt w p)) portName
                        && String.eqb (m_moduleName (portAt w p)) nodeName)
              (QMap.keys mp) in
  let fix go (nds : list NodeDescriptor) : option PortPtr :=
    match nds with
    | [] => None
    | nd :: rest =>
        if negb (String.eqb (m_nodeName (nodeAt w (nd_node nd))) nodeName) then go rest
        else match scan (inputsDescriptor nd) with
             | Some p => Some p
             | None =>
                 match scan (outputsDescriptor nd) with
                 | Some p => Some p
                 | None =>
                     match scan (parametersInputsDescriptor nd) with
                     | Some p => Some p
                     | None => go rest
                     end
                 end
             end
    end in
  go (QMap.values (m_nodes (registry w))).

(** The owner a port's module name resolves to: a registered node first,
    else a registered group. *)
Definition ownerByName (w : World) (name : string) : option NodePtr :=
  match findNode w name with
  | Some desc => Some (nd_node desc)
  | None =>
      match findGroup w name with
      | Some gDesc => Some (gd_group gDesc)
      | None => None
      end
  end.

(** The classification step of [registerConnection]: [inPort] is [from] when
    [from] is an input or a parameter and [to] otherwise; [outPort] is the
    other port when that one is an output. *)
Definition classify (w : World) (from to : PortPtr) : PortPtr * option PortPtr :=
  if isAnyInputPort (portAt w from)
  then (from, if isOutputPort (portAt w to) then Some to else None)
  else (to, if isOutputPort (portAt w from) then Some from else None).

Definition registerConnection (w : World) (from to : PortPtr) (c : ConnPtr) : World :=
  match classify w from to with
  | (_, None) => w
  | (inPort, Some outPort) =>
      match ownerByName w (m_moduleName (portAt w outPort)),
            ownerByName w (m_moduleName (portAt w inPort)) with
      | Some outNode, Some inNode =>
          let w1 :=
            match lookupNodeUnlocked w outNode with
            | Some d =>
                store_node outNode
                  (set_outputsDescriptor (QMap.push_back outPort c (outputsDescriptor d)) d) w
            | None => w
            end in
          match lookupNodeUnlocked w1 inNode with
          | Some d =>
              store_node inNode
                (set_inputsDescriptor (QMap.push_back inPort c (inputsDescriptor d)) d) w1
          | None => w1
          end
      | _, _ => w
      end
  end.

(** [QVector::removeAll] on every vector of a port map. *)
Definition removeAllFrom (c : ConnPtr) (mp : QMap.t (list ConnPtr)) : QMap.t (list ConnPtr) :=
  List.map (fun kv => (fst kv, List.filter (fun x => negb (Pos.eqb x c)) (snd kv))) mp.

(** The three loops of [unregisterConnection] on one descriptor. *)
Definition withoutConnection (c : ConnPtr) (nd : NodeDescriptor) : NodeDescriptor :=
  {| nd_uid := nd_uid nd; nd_node := nd_node nd;
     inputsDescriptor := removeAllFrom c (inputsDescriptor nd);
     outputsDescriptor := removeAllFrom c (outputsDescriptor nd);
     parametersInputsDescriptor := removeAllFrom c (parametersInputsDescriptor nd) |}.

Definition unregisterConnection (w : World) (c : ConnPtr) : World :=
  set_registry
    (set_m_nodes
       (List.map (fun kv => (fst kv, withoutConnection c (snd kv))) (m_nodes (registry w)))
       (registry w)) w.

Definition registerGroup (w : World) (g : NodePtr) : World * Z :=
  match QMap.value (m_groups (registry w)) g with
  | Some d => (w, gd_uid d)
  | None =>
      let r := registry w in
      let d := {| gd_uid := m_nextGroupId r; gd_group := g; memberNodes := [];
                  forwardInputsDescriptor := []; forwardOutputsDescriptor := [];
                  forwardParametersInputsDescriptor := [] |} in
      (set_registry
         {| m_nodes := if QMap.contains (m_nodes r) g then QMap.remove g (m_nodes r)
                       else m_nodes r;
            m_groups := QMap.insert g d (m_groups r);
            m_nextNodeId := m_nextNodeId r;
            m_nextGroupId := wrap64 (m_nextGroupId r + 1) |} w,
       gd_uid d)
  end.

Definition unregisterGroup (w : World) (g : NodePtr) : World :=
  if QMap.contains (m_groups (registry w)) g
  then set_registry (set_m_groups (QMap.remove g (m_groups (registry w))) (registry w)) w
  else w.

Definition set_memberNodes (l : list NodePtr) (d : GroupDescriptor) : GroupDescriptor :=
  {| gd_uid := gd_uid d; gd_group := gd_group d; memberNodes := l;
     forwardInputsDescriptor := forwardInputsDescriptor d;
     forwardOutputsDescriptor := forwardOutputsDescriptor d;
     forwardParametersInputsDescriptor := forwardParametersInputsDescriptor d |}.

Definition addNodeToGroup (w : World) (g n : NodePtr) : World :=
  match lookupGroupUnlocked w g, lookupNodeUnlocked w n with
  | Some gd, Some nd => store_group g (set_memberNodes (memberNodes gd ++ [n]) gd) w
  | _, _ => w
  end.

Definition removeNodeFromGroup (w : World) (g n : NodePtr) : World :=
  match lookupGroupUnlocked w g with
  | None => w
  | Some gd =>
      store_group g
        (set_memberNodes (List.filter (fun m => negb (Pos.eqb m n)) (memberNodes gd)) gd) w
  end.

Definition groupsOf (w : World) (n : NodePtr) : list GroupDescriptor :=
  List.filter (fun gd => existsb (Pos.eqb n) (memberNodes gd))
              (QMap.values (m_groups (registry w))).

Definition allNodes (w : World) : list NodeDescriptor := QMap.values (m_nodes (registry w)).
Definition allGroups (w : World) : list GroupDescriptor := QMap.values (m_groups (registry w)).

(** *** Forwarding tables *)

Definition set_forwardInputsDescriptor (m : QMap.t (list PortPtr)) (d : GroupDescriptor) :=
  {| gd_uid := gd_uid d; gd_group := gd_group d; memberNodes := memberNodes d;
     forwardInputsDescriptor := m;
     forwardOutputsDescriptor := forwardOutputsDescriptor d;
     forwardParametersInputsDescriptor := forwardParametersInputsDescriptor d |}.
Definition set_forwardOutputsDescriptor (m : QMap.t (list PortPtr)) (d : GroupDescriptor) :=
  {| gd_uid := gd_uid d; gd_group := gd_group d; memberNodes := memberNodes d;
     forwardInputsDescriptor := forwardInputsDescriptor d;
     forwardOutputsDescriptor := m;
     forwardParametersInputsDescriptor := forwardParametersInputsDescriptor d |}.
Definition set_forwardParametersInputsDescriptor (m : QMap.t (list PortPtr)) (d : GroupDescriptor) :=
  {| gd_uid := gd_uid d; gd_group := gd_group d; memberNodes := memberNodes d;
     forwardInputsDescriptor := forwardInputsDescriptor d;
     forwardOutputsDescriptor := forwardOutputsDescriptor d;
     forwardParametersInputsDescriptor := m |}.

(** [forward->copyTagsFrom] of the actual port: the forward port object is
    written in place. *)
Definition copyTagsFrom (w : World) (forward actual : PortPtr) : World :=
  let f := portAt w forward in
  set_port forward
    {| m_portName := m_portName f; m_portDisplayName := m_portDisplayName f;
       m_moduleName := m_moduleName f; m_orientation := m_orientation f;
       m_tags := Taggable.copyTagsFrom (m_tags f) (m_tags (portAt w actual));
       port_isVisible := port_isVisible f; port_parentItem := port_parentItem f |} w.

Definition registerForwardInput (w : World) (g : NodePtr) (forward actual : PortPtr) : World :=
  match lookupGroupUnlocked w g with
  | Some gd =>
      copyTagsFrom
        (store_group g
           (set_forwardInputsDescriptor
              (QMap.push_back forward actual (forwardInputsDescriptor gd)) gd) w)
        forward actual
  | None => w
  end.

Definition registerForwardOutput (w : World) (g : NodePtr) (forward actual : PortPtr) : World :=
  match lookupGroupUnlocked w g with
  | Some gd =>
      copyTagsFrom
        (store_group g
           (set_forwardOutputsDescriptor
              (QMap.push_back forward actual (forwardOutputsDescriptor gd)) gd) w)
        forward actual
  | None => w
  end.

Definition registerForwardParameter (w : World) (g : NodePtr) (forward actual : PortPtr) : World :=
  match lookupGroupUnlocked w g with
  | Some gd =>
      copyTagsFrom
        (store_group g
           (set_forwardParametersInputsDescriptor
              (QMap.push_back forward actual (forwardParametersInputsDescriptor gd)) gd) w)
        forward actual
  | None => w
  end.

Definition unregisterForwardPort (w : World) (g : NodePtr) (forward : PortPtr) : World :=
  match lookupGroupUnlocked w g with
  | Some gd =>
      store_group g
        {| gd_uid := gd_uid gd; gd_group := gd_group gd; memberNodes := memberNodes gd;
           forwardInputsDescriptor := QMap.remove forward (forwardInputsDescriptor gd);
           forwardOutputsDescriptor := QMap.remove forward (forwardOutputsDescriptor gd);
           forwardParametersInputsDescriptor :=
             QMap.remove forward (forwardParametersInputsDescriptor gd) |} w
  | None => w
  end.

Definition getAllPortsForwardedToAPort (w : World) (actual : PortPtr) : list PortPtr :=
  let check (mp : QMap.t (list PortPtr)) :=
    List.map fst (List.filter (fun kv => existsb (Pos.eqb actual) (snd kv)) mp) in
  flat_map (fun gd => check (forwardInputsDescriptor gd)
                      ++ check (forwardOutputsDescriptor gd)
                      ++ check (forwardParametersInputsDescriptor gd))
           (QMap.values (m_groups (registry w))).

(** The lambda [appendIfExists] of [getAllForwardedPortsFromAPort]. *)
Definition appendIfExists (mp : QMap.t (list PortPtr)) (forwardPort : PortPtr) : list PortPtr :=
  if QMap.contains mp forwardPort then QMap.at_ mp forwardPort else [].

Definition forwardedBy (gd : GroupDescriptor) (forwardPort : PortPtr) : list PortPtr :=
  appendIfExists (forwardInputsDescriptor gd) forwardPort
  ++ appendIfExists (forwardOutputsDescriptor gd) forwardPort
  ++ appendIfExists (forwardParametersInputsDescriptor gd) forwardPort.

Definition getAllForwardedPortsFromAPort (w : World) (forwardPort : PortPtr) : list PortPtr :=
  flat_map (fun gd => forwardedBy gd forwardPort) (QMap.values (m_groups (registry w))).

(** *** Connection queries

    [getConnections] and [getConnectionsFromGroupPort] call each other, and
    [hasConnection] calls itself, along the forwarding tables; nothing in
    the code bounds that recursion.  The embedding counts the nesting of
    calls down from [fuel]; [None] stands for a call that does not return. *)

Fixpoint concatMapM {A B : Type} (f : A -> option (list B)) (l : list A) : option (list B) :=
  match l with
  | [] => Some []
  | x :: l' =>
      match f x with
      | None => None
      | Some r =>
          match concatMapM f l' with
          | None => None
          | Some rs => Some (r ++ rs)
          end
      end
  end.

(** A loop that returns [true] at the first element for which [f] does. *)
Fixpoint anyM {A : Type} (f : A -> option bool) (l : list A) : option bool :=
  match l with
  | [] => Some false
  | x :: l' =>
      match f x with
      | None => None
      | Some true => Some true
      | Some false => anyM f l'
      end
  end.

(** What [getConnections] collects from the descriptor of the owner. *)
Definition connectionsIn (nd : NodeDescriptor) (p : PortPtr) : list ConnPtr :=
  (if QMap.contains (inputsDescriptor nd) p then QMap.at_ (inputsDescriptor nd) p else [])
  ++ (if QMap.contains (outputsDescriptor nd) p then QMap.at_ (outputsDescriptor nd) p else [])
  ++ (if QMap.contains (parametersInputsDescriptor nd) p
      then QMap.at_ (parametersInputsDescriptor nd) p else []).

(** The body of [getConnectionsFromGroupPort], over the function [rec] it
    calls on every actual port. *)
Definition groupPortConnections (rec : PortPtr -> option (list ConnPtr))
    (w : World) (forwardPort : PortPtr) : option (list ConnPtr) :=
  let checkMap (mp : QMap.t (list PortPtr)) :=
    if QMap.contains mp forwardPort then concatMapM rec (QMap.at_ mp forwardPort)
    else Some [] in
  concatMapM (fun gd =>
      match checkMap (forwardInputsDescriptor gd) with
      | None => None
      | Some a =>
          match checkMap (forwardOutputsDescriptor gd) with
          | None => None
          | Some b =>
              match checkMap (forwardParametersInputsDescriptor gd) with
              | None => None
              | Some c => Some (a ++ b ++ c)
              end
          end
      end)
    (QMap.values (m_groups (registry w))).

Fixpoint getConnections (fuel : nat) (w : World) (p : PortPtr) : option (list ConnPtr) :=
  match fuel with
  | O => None
  | S fuel' =>
      match findNode w (m_moduleName (portAt w p)) with
      | None => groupPortConnections (getConnections fuel' w) w p
      | Some owner =>
          match lookupNodeUnlocked w (nd_node owner) with
          | None => Some []
          | Some nd => Some (connectionsIn nd p)
          end
      end
  end.

Definition getConnectionsFromGroupPort (fuel : nat) (w : World) (forwardPort : PortPtr)
    : option (list ConnPtr) :=
  groupPortConnections (getConnections fuel w) w forwardPort.

Fixpoint hasConnection (fuel : nat) (w : World) (p : PortPtr) : option bool :=
  match fuel with
  | O => None
  | S fuel' =>
      match anyM (hasConnection fuel' w) (getAllForwardedPortsFromAPort w p) with
      | None => None
      | Some true => Some true
      | Some false =>
          match getConnections fuel' w p with
          | None => None
          | Some conns => Some (negb (bool_decide (conns = [])))
          end
      end
  end.

Definition findConnection (fuel : nat) (w : World) (fromPort : PortPtr)
    (portName' moduleName' : string) : option (option ConnPtr) :=
  match getConnections fuel w fromPort with
  | None => None
  | Some conns =>
      Some (List.find (fun c =>
              if isAnyInputPort (portAt w fromPort)
              then String.eqb (portName (m_outputPort (connAt w c))) portName'
                   && String.eqb (moduleName (m_outputPort (connAt w c))) moduleName'
              else String.eqb (portName (m_inputPort (connAt w c))) portName'
                   && String.eqb (moduleName (m_inputPort (connAt w c))) moduleName')
            conns)
  end.

(** [hasConnectionTo(PortLabel&, QString, QString)]. *)
Definition hasConnectionToName (fuel : nat) (w : World) (fromPort : PortPtr)
    (toPortName toPortModuleName : string) : option bool :=
  match findConnection fuel w fromPort toPortName toPortModuleName with
  | None => None
  | Some r => Some (match r with Some _ => true | None => false end)
  end.

(** [hasConnectionTo(PortLabel&, PortLabel&)]. *)
Definition hasConnectionTo (fuel : nat) (w : World) (fromPort toPort : PortPtr) : option bool :=
  let in_ := if isAnyInputPort (portAt w fromPort) then Some fromPort
             else if isAnyInputPort (portAt w toPort) then Some toPort else None in
  let out := if isOutputPort (portAt w fromPort) then Some fromPort
             else if isOutputPort (portAt w toPort) then Some toPort else None in
  match in_, out with
  | Some i, Some o =>
      hasConnectionToName fuel w i (m_portName (portAt w o)) (m_moduleName (portAt w o))
  | _, _ => Some false
  end.

(** *** Activation *)

Definition setActive (b : bool) (n : NodeItem) : NodeItem :=
  {| m_nodeName := m_nodeName n; m_displayedNodeName := m_displayedNodeName n;
     m_inputs := m_inputs n; m_outputs := m_outputs n;
     m_parameterPorts := m_parameterPorts n; node_isActive := b;
     node_isVisible := node_isVisible n; node_isMovable := node_isMovable n;
     is_group := is_group n; group_nodes := group_nodes n |}.

(** The inner loop: [conn->setIsActive(b)] on every connection of a port. *)
Definition setConnectionsActive (b : bool) (conns : list ConnPtr) (w : World) : World :=
  fold_left (fun w c => set_conn c (setIsActive b (connAt w c)) w) conns w.

(** The outer loop over [node->outputs()]. *)
Fixpoint cascadeActive (fuel : nat) (b : bool) (w : World) (outs : list PortPtr) : option World :=
  match outs with
  | [] => Some w
  | p :: outs' =>
      match getConnections fuel w p with
      | None => None
      | Some conns => cascadeActive fuel b (setConnectionsActive b conns w) outs'
      end
  end.

Definition activateNode (fuel : nat) (w : World) (n : NodePtr) : option World :=
  let w1 := set_node n (setActive true (nodeAt w n)) w in
  cascadeActive fuel true w1 (m_outputs (nodeAt w1 n)).

Definition deactivateNode (fuel : nat) (w : World) (n : NodePtr) : option World :=
  let w1 := set_node n (setActive false (nodeAt w n)) w in
  cascadeActive fuel false w1 (m_outputs (nodeAt w1 n)).

Definition isNodeActive (w : World) (n : NodePtr) : bool := node_isActive (nodeAt w n).

(** [nodeMoved] only refreshes geometry; for a group it first reads the
    connections of every actual port behind the forwarding tables, so it
    returns when those reads do. *)
Definition nodeMoved (fuel : nat) (w : World) (n : NodePtr) : option World :=
  if is_group (nodeAt w n) then
    match lookupGroupUnlocked w n with
    | None => Some w
    | Some gd =>
        let refreshMap (mp : QMap.t (list PortPtr)) :=
          concatMapM (fun kv => concatMapM (getConnections fuel w) (snd kv)) mp in
        match refreshMap (forwardInputsDescriptor gd) with
        | None => None
        | Some _ =>
            match refreshMap (forwardOutputsDescriptor gd) with
            | None => None
            | Some _ =>
                match refreshMap (forwardParametersInputsDescriptor gd) with
                | None => None
                | Some _ => Some w
                end
            end
        end
    end
  else Some w.

(** ** NodeItem (view/src/NodeItem.cpp) *)

Definition set_m_inputs (l : list PortPtr) (n : NodeItem) : NodeItem :=
  {| m_nodeName := m_nodeName n; m_displayedNodeName := m_displayedNodeName n;
     m_inputs := l; m_outputs := m_outputs n;
     m_parameterPorts := m_parameterPorts n; node_isActive := node_isActive n;
     node_isVisible := node_isVisible n; node_isMovable := node_isMovable n;
     is_group := is_group n; group_nodes := group_nodes n |}.
Definition set_m_outputs (l : list PortPtr) (n : NodeItem) : NodeItem :=
  {| m_nodeName := m_nodeName n; m_displayedNodeName := m_displayedNodeName n;
     m_inputs := m_inputs n; m_outputs := l;
     m_parameterPorts := m_parameterPorts n; node_isActive := node_isActive n;
     node_isVisible := node_isVisible n; node_isMovable := node_isMovable n;
     is_group := is_group n; group_nodes := group_nodes n |}.
Definition set_m_parameterPorts (m : QMap.t ParamWidget) (n : NodeItem) : NodeItem :=
  {| m_nodeName := m_nodeName n; m_displayedNodeName := m_displayedNodeName n;
     m_inputs := m_inputs n; m_outputs := m_outputs n;
     m_parameterPorts := m; node_isActive := node_isActive n;
     node_isVisible := node_isVisible n; node_isMovable := node_isMovable n;
     is_group := is_group n; group_nodes := group_nodes n |}.
Definition set_names (name displayed : string) (n : NodeItem) : NodeItem :=
  {| m_nodeName := name; m_displayedNodeName := displayed;
     m_inputs := m_inputs n; m_outputs := m_outputs n;
     m_parameterPorts := m_parameterPorts n; node_isActive := node_isActive n;
     node_isVisible := node_isVisible n; node_isMovable := node_isMovable n;
     is_group := is_group n; group_nodes := group_nodes n |}.
Definition set_shown (visible movable : bool) (n : NodeItem) : NodeItem :=
  {| m_nodeName := m_nodeName n; m_displayedNodeName := m_displayedNodeName n;
     m_inputs := m_inputs n; m_outputs := m_outputs n;
     m_parameterPorts := m_parameterPorts n; node_isActive := node_isActive n;
     node_isVisible := visible; node_isMovable := movable;
     is_group := is_group n; group_nodes := group_nodes n |}.
Definition set_group (isg : bool) (members : list NodePtr) (n : NodeItem) : NodeItem :=
  {| m_nodeName := m_nodeName n; m_displayedNodeName := m_displayedNodeName n;
     m_inputs := m_inputs n; m_outputs := m_outputs n;
     m_parameterPorts := m_parameterPorts n; node_isActive := node_isActive n;
     node_isVisible := node_isVisible n; node_isMovable := node_isMovable n;
     is_group := isg; group_nodes := members |}.

Definition set_port_visible (b : bool) (p : PortLabel) : PortLabel :=
  {| m_portName := m_portName p; m_portDisplayName := m_portDisplayName p;
     m_moduleName := m_moduleName p; m_orientation := m_orientation p;
     m_tags := m_tags p; port_isVisible := b; port_parentItem := port_parentItem p |}.
Definition setDisplayName (text : string) (p : PortLabel) : PortLabel :=
  {| m_portName := m_portName p; m_portDisplayName := text;
     m_moduleName := m_moduleName p; m_orientation := m_orientation p;
     m_tags := m_tags p; port_isVisible := port_isVisible p;
     port_parentItem := port_parentItem p |}.
Definition set_tags (s : Taggable.TagSet) (p : PortLabel) : PortLabel :=
  {| m_portName := m_portName p; m_portDisplayName := m_portDisplayName p;
     m_moduleName := m_moduleName p; m_orientation := m_orientation p;
     m_tags := s; port_isVisible := port_isVisible p; port_parentItem := port_parentItem p |}.

(** [NodeItem::NodeItem]: the object is a plain [NodeItem] while its
    constructor runs, and registers itself. *)
Definition newNodeItem (w : World) (nodeName nodeDisplayedName : string) : World * NodePtr :=
  let '(this, w1) := alloc w in
  let obj := {| m_nodeName := nodeName;
                m_displayedNodeName :=
                  if String.eqb nodeDisplayedName "" then nodeName else nodeDisplayedName;
                m_inputs := []; m_outputs := []; m_parameterPorts := [];
                node_isActive := false; node_isVisible := true; node_isMovable := true;
                is_group := false; group_nodes := [] |} in
  (fst (registerNode (set_node this obj w1) this), this).

(** [new PortLabel(name, m_nodeName, orientation, this)]: a child item is
    visible when its parent is. *)
Definition newPortLabel (w : World) (this : NodePtr) (name : string) (o : Orientation)
    : World * PortPtr :=
  let '(p, w1) := alloc w in
  (set_port p {| m_portName := name; m_portDisplayName := name;
                 m_moduleName := m_nodeName (nodeAt w this); m_orientation := o;
                 m_tags := 0%N; port_isVisible := node_isVisible (nodeAt w this);
                 port_parentItem := Some this |} w1, p).

Definition addInput (w : World) (this : NodePtr) (name : string) : World * PortPtr :=
  let '(w1, input) := newPortLabel w this name Input in
  let w2 := set_node this (set_m_inputs (m_inputs (nodeAt w1 this) ++ [input]) (nodeAt w1 this)) w1 in
  (registerInput w2 this input, input).

Definition addOutput (w : World) (this : NodePtr) (name : string) : World * PortPtr :=
  let '(w1, output) := newPortLabel w this name Output in
  let w2 := set_node this (set_m_outputs (m_outputs (nodeAt w1 this) ++ [output]) (nodeAt w1 this)) w1 in
  (registerOutput w2 this output, output).

Definition addParamInput (w : World) (this : NodePtr) (name : string) : World * PortPtr :=
  let '(w1, input) := newPortLabel w this name Parameter_ in
  (registerParameter w1 this input, input).

(** [addParameter(widget, name)] for a widget that is there. *)
Definition addParameter (w : World) (this : NodePtr) (widget : ParamWidget) (name : string)
    : World * PortPtr :=
  let '(w1, p) := addParamInput w this name in
  (set_node this
     (set_m_parameterPorts (QMap.insert p widget (m_parameterPorts (nodeAt w1 this)))
        (nodeAt w1 this)) w1, p).

(** [disconnectAllPorts]: the port lists are emptied; the port objects are
    only scheduled for deletion. *)
Definition disconnectAllPorts (w : World) (this : NodePtr) : World :=
  set_node this
    (set_m_parameterPorts [] (set_m_outputs [] (set_m_inputs [] (nodeAt w this)))) w.

(** [changeNodeVisibility]: [setVisible] on the node, on its inputs and on
    its outputs.  The parameter ports are child items of the node, and
    [QGraphicsItem::setVisible] on the node hides and shows its children
    with it, so they follow too.  (A child that was hidden by a call of its
    own would stay hidden when the node is shown; no code under src/ hides
    a parameter port on its own.) *)
Definition changeNodeVisibility (w : World) (this : NodePtr) (val : bool) : World :=
  let n := nodeAt w this in
  let w1 := set_node this (set_shown val (node_isMovable n) n) w in
  fold_left (fun w p => set_port p (set_port_visible val (portAt w p)) w)
            (m_inputs n ++ m_outputs n ++ QMap.keys (m_parameterPorts n)) w1.

Definition setMovable (w : World) (this : NodePtr) (val : bool) : World :=
  let n := nodeAt w this in set_node this (set_shown (node_isVisible n) val n) w.

(** [~NodeItem]: by now the object is a plain [NodeItem] again. *)
Definition deleteNodeItem (w : World) (this : NodePtr) : World :=
  let w1 := disconnectAllPorts w this in
  let w2 := set_node this (set_group false (group_nodes (nodeAt w1 this)) (nodeAt w1 this)) w1 in
  let w3 := unregisterNode w2 this in
  {| nodeItems := delete this (nodeItems w3); portLabels := portLabels w3;
     connectionItems := connectionItems w3; registry := registry w3;
     nextAddr := nextAddr w3 |}.

(** ** NodeFactory (factory/src/NodeFactory.cpp) *)

Definition isSink (p : PortLabel) : bool :=
  bool_decide (m_orientation p = Parameter_) || bool_decide (m_orientation p = Input).

Definition PortsAreCompatible (fuel : nat) (w : World) (port1 port2 : PortPtr) : option bool :=
  let p1 := portAt w port1 in
  let p2 := portAt w port2 in
  if negb (port_isVisible p1) || negb (port_isVisible p2) then Some false
  else if bool_decide (port_parentItem p1 = port_parentItem p2) then Some false
  else if (isAnyInputPort p1 && isAnyInputPort p2) || (isOutputPort p1 && isOutputPort p2)
  then Some false
  else if Nat.eqb (Taggable.count (m_tags p1)) 0 || Nat.eqb (Taggable.count (m_tags p2)) 0
  then Some false
  else
    match (if isSink p1 then hasConnection fuel w port1 else Some false) with
    | None => None
    | Some true => Some false
    | Some false =>
        match (if isSink p2 then hasConnection fuel w port2 else Some false) with
        | None => None
        | Some true => Some false
        | Some false => Some (Taggable.haveSameTags (m_tags p1) (m_tags p2))
        end
    end.

Definition set_widget_enabled (b : bool) (x : ParamWidget) : ParamWidget :=
  {| widget_enabled := b; widget_clones := widget_clones x |}.

(** The loop of [disableWidgetOfConnectedParametersInput] over the parameter
    ports of [item]. *)
Fixpoint disableWidgets (fuel : nat) (item : NodePtr) (w : World)
    (ps : list (PortPtr * ParamWidget)) : option World :=
  match ps with
  | [] => Some w
  | (pPort, proxy) :: ps' =>
      match hasConnection fuel w pPort with
      | None => None
      | Some b =>
          disableWidgets fuel item
            (set_node item
               (set_m_parameterPorts
                  (QMap.insert pPort (set_widget_enabled (negb b) proxy)
                     (m_parameterPorts (nodeAt w item)))
                  (nodeAt w item)) w) ps'
      end
  end.

Definition disableWidgetOfConnectedParametersInput (fuel : nat) (w : World) (item : NodePtr)
    : option World :=
  disableWidgets fuel item w (m_parameterPorts (nodeAt w item)).

(** The concrete port behind a port: the first forwarded port whose
    [moduleName_name] is the name of the port, or the port itself. *)
Definition concretePortOf (w : World) (p : PortPtr) : PortPtr :=
  match List.find (fun q => String.eqb
                      (String.append (m_moduleName (portAt w q))
                         (String.append "_" (m_portName (portAt w q))))
                      (m_portName (portAt w p)))
                  (getAllForwardedPortsFromAPort w p) with
  | Some q => q
  | None => p
  end.

(** The tail of [createConnectionBetweenPorts] for one endpoint: its owner
    is a group of that name, else the node of that name, which the code
    dereferences without a check. *)
Definition refreshOwner (fuel : nat) (w : World) (ownerName : string) : option World :=
  match findGroup w ownerName with
  | Some group =>
      match disableWidgetOfConnectedParametersInput fuel w (gd_group group) with
      | None => None
      | Some w1 => nodeMoved fuel w1 (gd_group group)
      end
  | None =>
      match findNode w ownerName with
      | None => None
      | Some nd =>
          match disableWidgetOfConnectedParametersInput fuel w (nd_node nd) with
          | None => None
          | Some w1 => nodeMoved fuel w1 (nd_node nd)
          end
      end
  end.

Definition createConnectionBetweenPorts (fuel : nat) (w : World) (fromPort toPort : PortPtr)
    : option (World * option ConnPtr) :=
  match PortsAreCompatible fuel w fromPort toPort with
  | None => None
  | Some false => Some (w, None)
  | Some true =>
      match hasConnectionTo fuel w fromPort toPort with
      | None => None
      | Some true => Some (w, None)
      | Some false =>
          let concreteFrom := concretePortOf w fromPort in
          let concreteTo := concretePortOf w toPort in
          let '(connection, w1) := alloc w in
          let w2 := set_conn connection
                      (newConnectionItem (getConnectionPortData (portAt w concreteFrom))
                                         (getConnectionPortData (portAt w concreteTo))) w1 in
          let w3 := registerConnection w2 concreteFrom concreteTo connection in
          match refreshOwner fuel w3 (m_moduleName (portAt w3 fromPort)) with
          | None => None
          | Some w4 =>
              match refreshOwner fuel w4 (m_moduleName (portAt w4 toPort)) with
              | None => None
              | Some w5 => Some (w5, Some connection)
              end
          end
      end
  end.

(** [createConnection]: the node of the input side is activated or
    deactivated after the connection is made. *)
Definition createConnection (fuel : nat) (w : World) (port1 port2 : PortPtr) (isActive : bool)
    : option (World * option ConnPtr) :=
  match createConnectionBetweenPorts fuel w port1 port2 with
  | None => None
  | Some (w1, None) => Some (w1, None)
  | Some (w1, Some pConnection) =>
      let inputPort := if isAnyInputPort (portAt w1 port1) then port1 else port2 in
      match findNode w1 (m_moduleName (portAt w1 inputPort)) with
      | None => None
      | Some nd =>
          match (if isActive then activateNode fuel w1 (nd_node nd)
                 else deactivateNode fuel w1 (nd_node nd)) with
          | None => None
          | Some w2 => Some (w2, Some pConnection)
          end
      end
  end.

(** ** GroupItem (view/src/GroupItem.cpp) *)

(** [joinedNames]: the node names joined by [" . "]; the code reads
    [nodes.front()], so there is no title for an empty list. *)
Definition joinedNames (w : World) (nodes : list NodePtr) : option string :=
  match nodes with
  | [] => None
  | n :: rest =>
      Some (fold_left (fun parts m => String.append parts
                         (String.append " . " (m_nodeName (nodeAt w m))))
                      rest (m_nodeName (nodeAt w n)))
  end.

(** [std::sort] by displayed name, as an insertion sort (nodes with equal
    displayed names keep the order of the list). *)
Fixpoint insertByDisplayedName (w : World) (n : NodePtr) (l : list NodePtr) : list NodePtr :=
  match l with
  | [] => [n]
  | m :: l' =>
      if String.ltb (m_displayedNodeName (nodeAt w n)) (m_displayedNodeName (nodeAt w m))
      then n :: l
      else m :: insertByDisplayedName w n l'
  end.

Definition buildTitle (w : World) (this : NodePtr) : option string :=
  joinedNames w (fold_right (insertByDisplayedName w) [] (group_nodes (nodeAt w this))).

Definition forwardName (p : PortLabel) : string :=
  String.append (m_moduleName p) (String.append "_" (m_portName p)).
Definition forwardDisplayName (p : PortLabel) : string :=
  String.append (m_moduleName p) (String.append "_" (m_portDisplayName p)).

(** One turn of the loops of [mirrorPorts] for an input, and for an output. *)
Definition mirrorInput (this : NodePtr) (w : World) (p : PortPtr) : World :=
  let '(w1, g) := addInput w this (forwardName (portAt w p)) in
  let w2 := set_port g (setDisplayName (forwardDisplayName (portAt w1 p)) (portAt w1 g)) w1 in
  registerForwardInput w2 this g p.

Definition mirrorOutput (this : NodePtr) (w : World) (p : PortPtr) : World :=
  let '(w1, g) := addOutput w this (forwardName (portAt w p)) in
  let w2 := set_port g (setDisplayName (forwardDisplayName (portAt w1 p)) (portAt w1 g)) w1 in
  registerForwardOutput w2 this g p.

Definition mirrorPorts (w : World) (this : NodePtr) : World :=
  fold_left (fun w n =>
      let w1 := fold_left (mirrorInput this) (m_inputs (nodeAt w n)) w in
      fold_left (mirrorOutput this) (m_outputs (nodeAt w1 n)) w1)
    (group_nodes (nodeAt w this)) w.

(** [QMap<QString, ...>::operator[]=] for the buckets of [mirrorParams],
    ordered by name; the port and its widget share one bucket. *)
Fixpoint bucket_insert {V : Type} (k : string) (v : V) (m : list (string * V))
    : list (string * V) :=
  match m with
  | [] => [(k, v)]
  | (k', v') :: m' =>
      match String.compare k k' with
      | Lt => (k, v) :: m
      | Eq => (k, v) :: m'
      | Gt => (k', v') :: bucket_insert k v m'
      end
  end.

(** [WidgetVisitor::addGroupWidget]; the clone it is handed is a fresh
    control of the group. *)
Definition addGroupWidget (this : NodePtr) (m_port : PortPtr) (m_name : string)
    (w : World) : World :=
  let '(w1, g) := addParameter w this (mkParamWidget true 0) m_name in
  let w2 := set_port g (setDisplayName (forwardDisplayName (portAt w1 m_port)) (portAt w1 g)) w1 in
  registerForwardParameter w2 this g m_port.

Definition mirrorParams (w : World) (this : NodePtr) : World :=
  let paramBuckets :=
    fold_left (fun buckets n =>
        fold_left (fun buckets pw =>
            bucket_insert (forwardName (portAt w (fst pw))) pw buckets)
          (m_parameterPorts (nodeAt w n)) buckets)
      (group_nodes (nodeAt w this)) [] in
  fold_left (fun w bucket =>
      let '(name, (p, widget)) := bucket in
      Nat.iter (widget_clones widget) (addGroupWidget this p name) w)
    paramBuckets w.

(** [GroupItem::GroupItem(registry, nodes, scene)].  The base constructor
    runs first, on an object that is not yet a [GroupItem]; [m_nodes] is a
    set, walked here in the order of insertion. *)
Definition newGroupItem (w : World) (nodes : list NodePtr) : option (World * NodePtr) :=
  let '(w1, this) := newNodeItem w "Group" "Group" in
  let w2 := set_node this (set_group true [] (nodeAt w1 this)) w1 in
  let w3 := fst (registerGroup w2 this) in
  let w4 :=
    fold_left (fun w n =>
        let g := nodeAt w this in
        let w' := if existsb (Pos.eqb n) (group_nodes g) then w
                  else set_node this (set_group (is_group g) (group_nodes g ++ [n]) g) w in
        setMovable (changeNodeVisibility w' n false) n false)
      nodes w3 in
  match buildTitle w4 this with
  | None => None
  | Some title =>
      let w5 := set_node this (set_names title title (nodeAt w4 this)) w4 in
      Some (mirrorParams (mirrorPorts w5 this) this, this)
  end.

(** [GroupItem::ungroup]; the group object itself is only scheduled for
    deletion ([deleteLater]). *)
Definition ungroup (w : World) (this : NodePtr) : World :=
  let w1 := disconnectAllPorts w this in
  let w2 :=
    fold_left (fun w n =>
        let w' := setMovable (changeNodeVisibility w n true) n true in
        fold_left (fun w p => unregisterForwardPort w this p)
          (m_inputs (nodeAt w' n) ++ m_outputs (nodeAt w' n)
           ++ QMap.keys (m_parameterPorts (nodeAt w' n))) w')
      (group_nodes (nodeAt w1 this)) w1 in
  set_node this (set_group (is_group (nodeAt w2 this)) [] (nodeAt w2 this)) w2.

(** [~GroupItem], when the scheduled deletion runs: the group is
    unregistered, then the base destructor runs. *)
Definition deleteGroupItem (w : World) (this : NodePtr) : World :=
  let w1 := unregisterGroup w this in
  let w2 := set_node this (set_group (is_group (nodeAt w1 this)) [] (nodeAt w1 this)) w1 in
  deleteNodeItem w2 this.

(** ** Runs of the editor

    The calls a scene, a factory or a test make on the registry and on the
    items, one command each.  [SetPort] stands for the setters of a port
    ([setName], [setModuleName], [setOrientation], [addTag], ...). *)

Inductive Command : Type :=
| RegisterNode (n : NodePtr)
| UnregisterNode (n : NodePtr)
| RegisterInput (n : NodePtr) (p : PortPtr)
| RegisterOutput (n : NodePtr) (p : PortPtr)
| RegisterParameter (n : NodePtr) (p : PortPtr)
| UnregisterInput (n : NodePtr) (p : PortPtr)
| UnregisterOutput (n : NodePtr) (p : PortPtr)
| UnregisterParameter (n : NodePtr) (p : PortPtr)
| RegisterConnection (from to : PortPtr) (c : ConnPtr)
| UnregisterConnection (c : ConnPtr)
| RegisterGroup (g : NodePtr)
| UnregisterGroup (g : NodePtr)
| AddNodeToGroup (g n : NodePtr)
| RemoveNodeFromGroup (g n : NodePtr)
| RegisterForwardInput (g : NodePtr) (forward actual : PortPtr)
| RegisterForwardOutput (g : NodePtr) (forward actual : PortPtr)
| RegisterForwardParameter (g : NodePtr) (forward actual : PortPtr)
| UnregisterForwardPort (g : NodePtr) (forward : PortPtr)
| ActivateNode (fuel : nat) (n : NodePtr)
| DeactivateNode (fuel : nat) (n : NodePtr)
| NewNodeItem (nodeName nodeDisplayedName : string)
| SetNodeName (n : NodePtr) (name : string)
| AddInput (n : NodePtr) (name : string)
| AddOutput (n : NodePtr) (name : string)
| AddParameter (n : NodePtr) (widget : ParamWidget) (name : string)
| SetPort (p : PortPtr) (o : PortLabel)
| CreateConnection (fuel : nat) (port1 port2 : PortPtr) (isActive : bool)
| CreateConnectionBetweenPorts (fuel : nat) (fromPort toPort : PortPtr)
| NewGroupItem (nodes : list NodePtr)
| Ungroup (g : NodePtr)
| DeleteItem (n : NodePtr).

(** [delete item]: the destructor of the class the object has. *)
Definition deleteItem (w : World) (n : NodePtr) : World :=
  if is_group (nodeAt w n) then deleteGroupItem w n else deleteNodeItem w n.

Definition exec (c : Command) (w : World) : option World :=
  match c with
  | RegisterNode n => Some (fst (registerNode w n))
  | UnregisterNode n => Some (unregisterNode w n)
  | RegisterInput n p => Some (registerInput w n p)
  | RegisterOutput n p => Some (registerOutput w n p)
  | RegisterParameter n p => Some (registerParameter w n p)
  | UnregisterInput n p => Some (unregisterInput w n p)
  | UnregisterOutput n p => Some (unregisterOutput w n p)
  | UnregisterParameter n p => Some (unregisterParameter w n p)
  | RegisterConnection from to c => Some (registerConnection w from to c)
  | UnregisterConnection c => Some (unregisterConnection w c)
  | RegisterGroup g => Some (fst (registerGroup w g))
  | UnregisterGroup g => Some (unregisterGroup w g)
  | AddNodeToGroup g n => Some (addNodeToGroup w g n)
  | RemoveNodeFromGroup g n => Some (removeNodeFromGroup w g n)
  | RegisterForwardInput g f a => Some (registerForwardInput w g f a)
  | RegisterForwardOutput g f a => Some (registerForwardOutput w g f a)
  | RegisterForwardParameter g f a => Some (registerForwardParameter w g f a)
  | UnregisterForwardPort g f => Some (unregisterForwardPort w g f)
  | ActivateNode fuel n => activateNode fuel w n
  | DeactivateNode fuel n => deactivateNode fuel w n
  | NewNodeItem name displayed => Some (fst (newNodeItem w name displayed))
  | SetNodeName n name =>
      Some (set_node n (set_names name (m_displayedNodeName (nodeAt w n)) (nodeAt w n)) w)
  | AddInput n name => Some (fst (addInput w n name))
  | AddOutput n name => Some (fst (addOutput w n name))
  | AddParameter n widget name => Some (fst (addParameter w n widget name))
  | SetPort p o => Some (set_port p o w)
  | CreateConnection fuel port1 port2 isActive =>
      option_map fst (createConnection fuel w port1 port2 isActive)
  | CreateConnectionBetweenPorts fuel fromPort toPort =>
      option_map fst (createConnectionBetweenPorts fuel w fromPort toPort)
  | NewGroupItem nodes => option_map fst (newGroupItem w nodes)
  | Ungroup g => Some (ungroup w g)
  | DeleteItem n => Some (deleteItem w n)
  end.

(** What the types of the code guarantee of a call: [registerGroup] takes a
    [GroupItem*], a pointer to a live object that is a group. *)
Definition well_typed (w : World) (c : Command) : Prop :=
  match c with
  | RegisterGroup g => is_group (nodeAt w g) = true /\ (g < nextAddr w)%positive
  | _ => True
  end.

(** [reachable k w]: [w] is the state after [k] commands from the empty
    scene. *)
Inductive reachable : nat -> World -> Prop :=
| reachable_init : reachable 0 initWorld
| reachable_step k w c w' :
    reachable k w -> well_typed w c -> exec c w = Some w' -> reachable (S k) w'.

(** ** Notions used by the statements *)

(** [forwards_to w f c]: a forwarding table of some group lists [c] under
    the forward port [f]. *)
Definition forwards_to (w : World) (f c : PortPtr) : Prop :=
  In c (getAllForwardedPortsFromAPort w f).

(** The ports reachable from a forward port through the forwarding tables,
    in one step or more. *)
Definition reaches (w : World) : PortPtr -> PortPtr -> Prop :=
  clos_trans PortPtr (forwards_to w).

(** The forwarding tables are ranked by [rank] when every port ranks above
    the ports it forwards to: forwarding never leads back to a port, which
    is what lets the recursive queries return. *)
Definition ranked (w : World) (rank : PortPtr -> nat) : Prop :=
  forall f c, forwards_to w f c -> rank c < rank f.

(** The connections registered on a port itself: the ones its owner's
    descriptor lists for it, the owner being the node its module name
    resolves to.  The owner is found by name, so the port need not be a
    port of that node: it can be the forward port of a group that carries
    the name of a node. *)
Definition ownConnections (w : World) (p : PortPtr) : list ConnPtr :=
  match findNode w (m_moduleName (portAt w p)) with
  | None => []
  | Some owner =>
      match lookupNodeUnlocked w (nd_node owner) with
      | None => []
      | Some nd => connectionsIn nd p
      end
  end.

(** The three registration calls for forwarding, by table. *)
Inductive ForwardKind : Type := ForwardInput | ForwardOutput | ForwardParameter.

Global Instance ForwardKind_eq_dec : EqDecision ForwardKind.
Proof. solve_decision. Defined.

Definition registerForward (k : ForwardKind) (w : World) (g : NodePtr)
    (forward actual : PortPtr) : World :=
  match k with
  | ForwardInput => registerForwardInput w g forward actual
  | ForwardOutput => registerForwardOutput w g forward actual
  | ForwardParameter => registerForwardParameter w g forward actual
  end.

Definition forwardTable (k : ForwardKind) (gd : GroupDescriptor) : QMap.t (list PortPtr) :=
  match k with
  | ForwardInput => forwardInputsDescriptor gd
  | ForwardOutput => forwardOutputsDescriptor gd
  | ForwardParameter => forwardParametersInputsDescriptor gd
  end.

(** The list a group's table of kind [k] holds under [forward]. *)
Definition forwardedList (k : ForwardKind) (w : World) (g : NodePtr) (forward : PortPtr)
    : list PortPtr :=
  match lookupGroupUnlocked w g with
  | Some gd => QMap.at_ (forwardTable k gd) forward
  | None => []
  end.

(** The three registration calls for ports, by orientation. *)
Definition registerPort (o : Orientation) (w : World) (n : NodePtr) (p : PortPtr) : World :=
  match o with
  | Input => registerInput w n p
  | Output => registerOutput w n p
  | Parameter_ => registerParameter w n p
  end.

(** What the registry keeps of a node whatever happens to its ports. *)
Definition key_info (d : NodeDescriptor) : Z * NodePtr := (nd_uid d, nd_node d).

(** [frame w w']: going from [w] to [w'] registered no node and no group,
    gave no registered node another id or descriptor owner, moved neither
    the node counter nor the allocator backwards, and left the class of the
    registered groups alone.  Removals are allowed. *)
Record frame (w w' : World) : Prop := mkFrame {
  frame_nodes : forall n d', lookupNodeUnlocked w' n = Some d' ->
    exists d, lookupNodeUnlocked w n = Some d /\ key_info d = key_info d';
  frame_groups : forall g,
    QMap.contains (m_groups (registry w')) g = true ->
    QMap.contains (m_groups (registry w)) g = true
    /\ is_group (nodeAt w' g) = is_group (nodeAt w g);
  frame_next : m_nextNodeId (registry w') = m_nextNodeId (registry w);
  frame_addr : (nextAddr w <= nextAddr w')%positive
}.

(** The largest [qint64]. *)
Definition INT64_MAX : Z := (2 ^ 63 - 1)%Z.

(** The invariant of the runs of [k] commands. *)
Record Inv (k : nat) (w : World) : Prop := mkInv {
  inv_keyed : forall n d, lookupNodeUnlocked w n = Some d -> nd_node d = n;
  inv_groups_typed : forall g,
    QMap.contains (m_groups (registry w)) g = true ->
    is_group (nodeAt w g) = true /\ (g < nextAddr w)%positive;
  inv_disjoint : forall n,
    QMap.contains (m_nodes (registry w)) n = true ->
    QMap.contains (m_groups (registry w)) n = false;
  inv_next : (Z.of_nat k < INT64_MAX)%Z ->
    (1 <= m_nextNodeId (registry w) <= Z.of_nat k + 1)%Z;
  inv_uid_range : (Z.of_nat k < INT64_MAX)%Z ->
    forall n d, lookupNodeUnlocked w n = Some d ->
    (1 <= nd_uid d < m_nextNodeId (registry w))%Z;
  inv_uid_distinct : (Z.of_nat k < INT64_MAX)%Z ->
    forall a b da db, lookupNodeUnlocked w a = Some da -> lookupNodeUnlocked w b = Some db ->
    a <> b -> nd_uid da <> nd_uid db
}.

(** Writing one field of the descriptor of [n], when [n] is registered. *)
Definition on_node (n : NodePtr) (f : NodeDescriptor -> NodeDescriptor) (w : World) : World :=
  match lookupNodeUnlocked w n with
  | Some d => store_node n (f d) w
  | None => w
  end.

(** ** Scenes used as examples

    [run] executes commands from the empty scene, stopping at a command
    that does not return. *)
Definition run_from (w : World) (cs : list Command) : option World :=
  fold_left (fun ow c => match ow with Some w => exec c w | None => None end) cs (Some w).

Definition run (cs : list Command) : World := default initWorld (run_from initWorld cs).

(** [port->addTag<Tag>()] for the tag of index [i]. *)
Definition AddTag (w : World) (p : PortPtr) (i : N) : Command :=
  SetPort p (set_tags (Taggable.addTag i (m_tags (portAt w p))) (portAt w p)).

(** Two nodes: ["A"] at address 1 with the output ["o"] at 3, and ["B"] at
    2 with the input ["i"] at 4; both ports carry the tag of index 0. *)
Definition scene_AB : World :=
  let w := run [NewNodeItem "A" "A"; NewNodeItem "B" "B"; AddOutput 1 "o"; AddInput 2 "i"] in
  let w := default w (exec (AddTag w 3 0) w) in
  default w (exec (AddTag w 4 0) w).

(** [scene_AB] with ["A.o"] connected to ["B.i"]; the connection is at 5. *)
Definition scene_AB_connected : World :=
  default scene_AB (exec (CreateConnectionBetweenPorts 3 3 4) scene_AB).

(** A third node ["C"] at 6 with the tagged output ["out2"] at 7. *)
Definition scene_ABC : World :=
  let w := default scene_AB_connected
             (run_from scene_AB_connected [NewNodeItem "C" "C"; AddOutput 6 "out2"]) in
  default w (exec (AddTag w 7 0) w).

(** [scene_AB_connected] with ["A"] and ["B"] grouped: the group is at 6,
    its forward ports ["A_o"] at 7 and ["B_i"] at 8. *)
Definition scene_grouped : World :=
  default scene_AB_connected (exec (NewGroupItem [1%positive; 2%positive]) scene_AB_connected).

Definition scene_ungrouped : World := ungroup scene_grouped 6.

(** [scene_grouped] with a node ["C"] at 9 and its output ["out2"] at 10. *)
Definition scene_grouped_C : World :=
  default scene_grouped (run_from scene_grouped [NewNodeItem "C" "C"; AddOutput 9 "out2"]).

(** Two states with the same registry, the same ports and the same node
    names: the connection queries cannot tell them apart. *)
Definition same_graph (w w' : World) : Prop :=
  registry w' = registry w
  /\ portLabels w' = portLabels w
  /\ forall n, m_nodeName (nodeAt w' n) = m_nodeName (nodeAt w n).

Global Instance In_pointer_dec (c : positive) (l : list positive) : Decision (In c l) :=
  in_dec Pos.eq_dec c l.

(** Every command of the run is well typed in the state it is issued in,
    and returns. *)
Fixpoint typed_run (w : World) (cs : list Command) : Prop :=
  match cs with
  | [] => True
  | c :: cs' =>
      well_typed w c /\
      match exec c w with
      | Some w' => typed_run w' cs'
      | None => False
      end
  end.

(** A check of [ranked] over the entries of the forwarding tables. *)
Definition rankedb (w : World) (rank : PortPtr -> nat) : bool :=
  forallb (fun gd =>
      forallb (fun kv => forallb (fun c => Nat.ltb (rank c) (rank (fst kv))) (snd kv))
        (forwardInputsDescriptor gd ++ forwardOutputsDescriptor gd
         ++ forwardParametersInputsDescriptor gd))
    (QMap.values (m_groups (registry w))).

(** [scene_AB] where ["B.i"] carries the tag of index 1 as well. *)
Definition scene_AB_two_tags : World :=
  default scene_AB (exec (AddTag scene_AB 4 1) scene_AB).

(** ["A"] and ["B"] created, ["B"] unregistered again. *)
Definition scene_unregistered : World :=
  run [NewNodeItem "A" "A"; NewNodeItem "B" "B"; UnregisterNode 2].

(** ["A"] and ["B"] created and grouped, the group at 3. *)
Definition scene_bare_group : World :=
  run [NewNodeItem "A" "A"; NewNodeItem "B" "B"; NewGroupItem [1%positive; 2%positive]].

(** [scene_ungrouped] once the scheduled deletion of the group has run. *)
Definition scene_group_deleted : World := deleteItem scene_ungrouped 6.

(** The commands that lead from the empty scene to [scene_ungrouped]. *)
Definition ungroup_commands : list Command :=
  let w := run [NewNodeItem "A" "A"; NewNodeItem "B" "B"; AddOutput 1 "o"; AddInput 2 "i"] in
  [NewNodeItem "A" "A"; NewNodeItem "B" "B"; AddOutput 1 "o"; AddInput 2 "i";
   AddTag w 3 0; AddTag w 4 0; CreateConnectionBetweenPorts 3 3 4;
   NewGroupItem [1%positive; 2%positive]; Ungroup 6].






(** ["A"] with the output ["o"] at 3 and ["B"] with the input ["i"] at 4,
    not connected; ["A"] grouped alone (the group at 5, its forward output
    ["A_o"] at 6), that group grouped alone (the group at 7, its forward
    output ["A_A_o"] at 8); then the outer forward output is connected to
    ["B.i"], the connection at 9.  Both groups are titled ["A"], like the
    node. *)
Definition nested_commands : list Command :=
  firstn 6 ungroup_commands
  ++ [NewGroupItem [1%positive]; NewGroupItem [5%positive];
      CreateConnectionBetweenPorts 5 8 4].

Definition scene_nested : World := run nested_commands.

(** ** The shape of the tables

    A [QMap] holds one entry per key and iterates in key order; every
    descriptor sits under the item it describes. *)

Fixpoint ascending (ks : list positive) : Prop :=
  match ks with
  | [] => True
  | k :: ks' => Forall (Pos.lt k) ks' /\ ascending ks'
  end.

Definition node_entry_ok (kv : NodePtr * NodeDescriptor) : Prop :=
  nd_node (snd kv) = fst kv
  /\ ascending (QMap.keys (inputsDescriptor (snd kv)))
  /\ ascending (QMap.keys (outputsDescriptor (snd kv)))
  /\ ascending (QMap.keys (parametersInputsDescriptor (snd kv))).

Definition group_entry_ok (kv : NodePtr * GroupDescriptor) : Prop :=
  gd_group (snd kv) = fst kv
  /\ ascending (QMap.keys (forwardInputsDescriptor (snd kv)))
  /\ ascending (QMap.keys (forwardOutputsDescriptor (snd kv)))
  /\ ascending (QMap.keys (forwardParametersInputsDescriptor (snd kv))).

(** The tables of the registry, as [QMap] keeps them. *)
Record WF (w : World) : Prop := mkWF {
  wf_nodes : ascending (QMap.keys (m_nodes (registry w)));
  wf_groups : ascending (QMap.keys (m_groups (registry w)));
  wf_node_entries : Forall node_entry_ok (m_nodes (registry w));
  wf_group_entries : Forall group_entry_ok (m_groups (registry w))
}.

(** [steady w w']: going from [w] to [w'] kept the tables in shape,
    registered no group, gave no registered group another id and left the
    group counter alone. *)
Record steady (w w' : World) : Prop := mkSteady {
  steady_wf : WF w -> WF w';
  steady_groups : forall g d', lookupGroupUnlocked w' g = Some d' ->
    exists d, lookupGroupUnlocked w g = Some d /\ gd_uid d' = gd_uid d;
  steady_nextg : m_nextGroupId (registry w') = m_nextGroupId (registry w)
}.

(** The invariant of the runs of [k] commands, on the side of the groups. *)
Record GInv (k : nat) (w : World) : Prop := mkGInv {
  ginv_wf : WF w;
  ginv_next : (Z.of_nat k < INT64_MAX)%Z ->
    (1 <= m_nextGroupId (registry w) <= Z.of_nat k + 1)%Z;
  ginv_uid_range : (Z.of_nat k < INT64_MAX)%Z ->
    forall g d, lookupGroupUnlocked w g = Some d ->
    (1 <= gd_uid d < m_nextGroupId (registry w))%Z;
  ginv_uid_distinct : (Z.of_nat k < INT64_MAX)%Z ->
    forall a b da db, lookupGroupUnlocked w a = Some da -> lookupGroupUnlocked w b = Some db ->
    a <> b -> gd_uid da <> gd_uid db
}.

(** [QVector::removeAll(c)] on one vector. *)
Definition without (c : ConnPtr) : list ConnPtr -> list ConnPtr :=
  List.filter (fun x => negb (Pos.eqb x c)).

(** [c] is listed by no descriptor of the registry. *)
Definition unlisted (w : World) (c : ConnPtr) : Prop :=
  forall n d q, lookupNodeUnlocked w n = Some d -> ~ In c (connectionsIn d q).

(** The entry of the node table that [findNode] stops at. *)
Definition findEntry (w : World) (name : string) : option (NodePtr * NodeDescriptor) :=
  List.find (fun kv => String.eqb (m_nodeName (nodeAt w (nd_node (snd kv)))) name)
            (m_nodes (registry w)).

(** [rewritten g w w']: [w'] is [w] with every descriptor [d] of the node
    table replaced, under its key [n], by [g n d]; the groups, the ports and
    the names of the nodes are the same. *)
Definition rewritten (g : NodePtr -> NodeDescriptor -> NodeDescriptor) (w w' : World) : Prop :=
  m_nodes (registry w')
  = List.map (fun kv => (fst kv, g (fst kv) (snd kv))) (m_nodes (registry w))
  /\ m_groups (registry w') = m_groups (registry w)
  /\ portLabels w' = portLabels w
  /\ forall n, m_nodeName (nodeAt w' n) = m_nodeName (nodeAt w n).

(** The three calls that unregister a port, by orientation, and the table
    of a descriptor they work on. *)
Definition unregisterPort (o : Orientation) (w : World) (n : NodePtr) (p : PortPtr) : World :=
  match o with
  | Input => unregisterInput w n p
  | Output => unregisterOutput w n p
  | Parameter_ => unregisterParameter w n p
  end.

Definition portTable (o : Orientation) (d : NodeDescriptor) : QMap.t (list ConnPtr) :=
  match o with
  | Input => inputsDescriptor d
  | Output => outputsDescriptor d
  | Parameter_ => parametersInputsDescriptor d
  end.

Definition setPortTable (o : Orientation) (m : QMap.t (list ConnPtr)) (d : NodeDescriptor)
    : NodeDescriptor :=
  match o with
  | Input => set_inputsDescriptor m d
  | Output => set_outputsDescriptor m d
  | Parameter_ => set_parametersInputsDescriptor m d
  end.

(** The ports a descriptor holds, in the order [resolvePort] scans them. *)
Definition portKeys (nd : NodeDescriptor) : list PortPtr :=
  QMap.keys (inputsDescriptor nd) ++ QMap.keys (outputsDescriptor nd)
  ++ QMap.keys (parametersInputsDescriptor nd).

(** [p] is a port called [portName] of the module [nodeName]. *)
Definition named (w : World) (nodeName portName : string) (p : PortPtr) : Prop :=
  m_portName (portAt w p) = portName /\ m_moduleName (portAt w p) = nodeName.

(** The entries of the three forwarding tables of a group. *)
Definition forwardEntries (gd : GroupDescriptor) : list (PortPtr * list PortPtr) :=
  forwardInputsDescriptor gd ++ forwardOutputsDescriptor gd
  ++ forwardParametersInputsDescriptor gd.

(** [still w w']: [w'] has the registry, the ports, the connection items
    and the allocator of [w], and its nodes carry the same names. *)
Definition still (w w' : World) : Prop :=
  registry w' = registry w /\ portLabels w' = portLabels w
  /\ connectionItems w' = connectionItems w /\ nextAddr w' = nextAddr w
  /\ forall n, m_nodeName (nodeAt w' n) = m_nodeName (nodeAt w n).

(** ** Ports of a node by name (utility/src/GraphRegistry.cpp)

    [GraphRegistry::getInputPortByName]: the first input of the node that
    carries the name. *)
Definition getInputPortByName (w : World) (node : NodePtr) (portName' : string)
    : option PortPtr :=
  List.find (fun port => String.eqb (m_portName (portAt w port)) portName')
            (m_inputs (nodeAt w node)).

(** ** Removing ports (view/src/NodeItem.cpp) *)

(** [QVector::removeOne]: the first occurrence goes. *)
Fixpoint removeOne (x : positive) (l : list positive) : list positive :=
  match l with
  | [] => []
  | y :: l' => if Pos.eqb y x then l' else y :: removeOne x l'
  end.

(** [NodeItem::removeInput] for a port given by its pointer.
    [disconnectPorts] disconnects the Qt signals between the port and the
    node and nothing else; the port object is only scheduled for deletion
    ([deleteLater]). *)
Definition removeInput (w : World) (this : NodePtr) (input : PortPtr) : World :=
  if existsb (Pos.eqb input) (m_inputs (nodeAt w this)) then
    let w1 := set_node this
                (set_m_inputs (removeOne input (m_inputs (nodeAt w this))) (nodeAt w this)) w in
    unregisterInput w1 this input
  else w.

(** [apart this a w w']: going from [w], where every address below [a] is
    taken, to [w'] wrote to no node but [this] and to no port below [a],
    and gave no address back. *)
Definition apart (this : NodePtr) (a : positive) (w w' : World) : Prop :=
  (a <= nextAddr w)%positive ->
  (a <= nextAddr w')%positive
  /\ (forall n, n <> this -> nodeAt w' n = nodeAt w n)
  /\ (forall p, (p < a)%positive -> portAt w' p = portAt w p).

(** What [disableWidgetOfConnectedParametersInput] makes of the controls
    [ps] of a node, written into the map [m]: a control is enabled exactly
    when [connected] says that its port has no connection. *)
Definition refreshed (connected : PortPtr -> option bool) (ps m : QMap.t ParamWidget)
    : QMap.t ParamWidget :=
  fold_left (fun m kv =>
      match connected (fst kv) with
      | Some b => QMap.insert (fst kv) (set_widget_enabled (negb b) (snd kv)) m
      | None => m
      end) ps m.

(** A check of [unlisted] over the entries of the node table. *)
Definition unlistedb (w : World) (c : ConnPtr) : bool :=
  forallb (fun kv =>
      forallb (fun e => negb (existsb (Pos.eqb c) (snd e)))
        (inputsDescriptor (snd kv) ++ outputsDescriptor (snd kv)
         ++ parametersInputsDescriptor (snd kv)))
    (m_nodes (registry w)).

(** A node ["A"] at 1 with one parameter port ["gain"] at 2, whose control
    is disabled. *)
Definition scene_param : World :=
  run [NewNodeItem "A" "A"; AddParameter 1 (mkParamWidget false 1) "gain"].

(** A descriptor to fall back on where a lookup is known to answer. *)
Definition noNode : NodeDescriptor :=
  {| nd_uid := 0; nd_node := 1; inputsDescriptor := []; outputsDescriptor := [];
     parametersInputsDescriptor := [] |}.
Definition noGroup : GroupDescriptor :=
  {| gd_uid := 0; gd_group := 1; memberNodes := []; forwardInputsDescriptor := [];
     forwardOutputsDescriptor := []; forwardParametersInputsDescriptor := [] |}.

(** * Properties *)

Module QMapFacts.
Import QMap.
Section Facts.
Context {V : Type}.
Implicit Types (m : t V) (k : positive) (v : V).

Lemma value_insert_eq m k v : value (insert k v m) k = Some v.
Proof.
  induction m as [|[k' v'] m IH]; simpl.
  - by rewrite Pos.eqb_refl.
  - destruct (Pos.ltb k k') eqn:Hlt; simpl.
    + by rewrite Pos.eqb_refl.
    + destruct (Pos.eqb k k') eqn:Heq; simpl.
      * by rewrite Pos.eqb_refl.
      * rewrite Pos.eqb_sym, Heq. exact IH.
Qed.

Lemma value_insert_ne m k k' v : k <> k' -> value (insert k v m) k' = value m k'.
Proof.
  intros Hne. induction m as [|[k0 v0] m IH]; simpl.
  - destruct (Pos.eqb_spec k k'); congruence.
  - destruct (Pos.ltb k k0) eqn:Hlt; simpl.
    + destruct (Pos.eqb_spec k k'); congruence.
    + destruct (Pos.eqb_spec k k0) as [->|Hk]; simpl.
      * destruct (Pos.eqb_spec k0 k'); congruence.
      * destruct (Pos.eqb_spec k0 k'); [done | exact IH].
Qed.

Lemma value_remove_eq m k : value (remove k m) k = None.
Proof.
  induction m as [|[k' v'] m IH]; simpl; [done|].
  destruct (Pos.eqb_spec k' k) as [->|Hne]; simpl; [exact IH|].
  destruct (Pos.eqb_spec k' k); [done | exact IH].
Qed.

Lemma value_remove_ne m k k' : k <> k' -> value (remove k m) k' = value m k'.
Proof.
  intros Hne. induction m as [|[k0 v0] m IH]; simpl; [done|].
  destruct (Pos.eqb_spec k0 k) as [->|Hk]; simpl.
  - destruct (Pos.eqb_spec k k'); [done | exact IH].
  - destruct (Pos.eqb_spec k0 k'); [done | exact IH].
Qed.

Lemma contains_true m k : contains m k = true <-> exists v, value m k = Some v.
Proof.
  unfold contains. destruct (value m k); split; intros H; eauto.
  - done.
  - by destruct H.
Qed.

Lemma contains_false m k : contains m k = false <-> value m k = None.
Proof. unfold contains. by destruct (value m k). Qed.

Lemma value_In m k v : value m k = Some v -> In (k, v) m.
Proof.
  induction m as [|[k' v'] m IH]; simpl; [done|].
  destruct (Pos.eqb_spec k' k) as [->|Hne].
  - intros [= ->]. by left.
  - intros H. right. by apply IH.
Qed.

Lemma In_keys_value m k : In k (keys m) <-> exists v, value m k = Some v.
Proof.
  induction m as [|[k' v'] m IH]; simpl.
  - split; [done | by intros [? ?]].
  - destruct (Pos.eqb_spec k' k) as [->|Hne].
    + split; eauto.
    + rewrite <- IH. split; [intros [?|?]; [done|done] | by right].
Qed.
End Facts.
End QMapFacts.

Module TaggableFacts.
Import Taggable.
Lemma popcount_pos p : 0 < popcount p.
Proof. induction p; simpl; lia. Qed.

Lemma count_zero s : count s = 0 <-> s = 0%N.
Proof.
destruct s as [|p]; simpl; [done|].
pose proof (popcount_pos p). split; [lia | done].
Qed.


End TaggableFacts.

(** ** Reading the heap and the tables after a write *)

Lemma portAt_set_port_eq w p o : portAt (set_port p o w) p = o.
Proof. unfold portAt, set_port; simpl. by rewrite lookup_total_insert_eq. Qed.

Lemma portAt_set_port_ne w p q o : p <> q -> portAt (set_port p o w) q = portAt w q.
Proof. intros H. unfold portAt, set_port; simpl. by rewrite lookup_total_insert_ne. Qed.

Lemma nodeAt_set_node_eq w n o : nodeAt (set_node n o w) n = o.
Proof. unfold nodeAt, set_node; simpl. by rewrite lookup_total_insert_eq. Qed.

Lemma nodeAt_set_node_ne w n m o : n <> m -> nodeAt (set_node n o w) m = nodeAt w m.
Proof. intros H. unfold nodeAt, set_node; simpl. by rewrite lookup_total_insert_ne. Qed.

Lemma connAt_set_conn_eq w c o : connAt (set_conn c o w) c = o.
Proof. unfold connAt, set_conn; simpl. by rewrite lookup_total_insert_eq. Qed.


Lemma lookupGroup_store_group_eq w g d : lookupGroupUnlocked (store_group g d w) g = Some d.
Proof. unfold lookupGroupUnlocked, store_group; simpl. apply QMapFacts.value_insert_eq. Qed.

Lemma lookupGroup_store_group_ne w g h d :
  g <> h -> lookupGroupUnlocked (store_group g d w) h = lookupGroupUnlocked w h.
Proof. intros H. unfold lookupGroupUnlocked, store_group; simpl. by apply QMapFacts.value_insert_ne. Qed.

Lemma lookupNode_store_node_eq w n d : lookupNodeUnlocked (store_node n d w) n = Some d.
Proof. unfold lookupNodeUnlocked, store_node; simpl. apply QMapFacts.value_insert_eq. Qed.

Lemma lookupNode_store_node_ne w n m d :
  n <> m -> lookupNodeUnlocked (store_node n d w) m = lookupNodeUnlocked w m.
Proof. intros H. unfold lookupNodeUnlocked, store_node; simpl. by apply QMapFacts.value_insert_ne. Qed.

Lemma at_push_back_eq {A} (m : QMap.t (list A)) k x :
  QMap.at_ (QMap.push_back k x m) k = QMap.at_ m k ++ [x].
Proof. unfold QMap.at_, QMap.push_back. by rewrite QMapFacts.value_insert_eq. Qed.

Lemma at_push_back_ne {A} (m : QMap.t (list A)) k k' x :
  k <> k' -> QMap.at_ (QMap.push_back k x m) k' = QMap.at_ m k'.
Proof. intros H. unfold QMap.at_, QMap.push_back. by rewrite QMapFacts.value_insert_ne. Qed.

(** ** Port registration rejects a port of another orientation *)

(** C8.  A registration call made with a port whose orientation is not the
    one of the call ([registerInput] with an output port, [registerParameter]
    with a port that is not a parameter, ...) changes nothing at all: the
    registry, and so every port map of every descriptor, is as before. *)
Theorem registerPort_wrong_orientation_is_noop (o : Orientation) (w : World)
    (n : NodePtr) (p : PortPtr) :
  m_orientation (portAt w p) <> o -> registerPort o w n p = w.
Proof.
  intros Hne. destruct o; simpl.
  - unfold registerInput, isInputPort. by rewrite bool_decide_eq_false_2.
  - unfold registerParameter, isParameterPort. by rewrite bool_decide_eq_false_2.
  - unfold registerOutput, isOutputPort. by rewrite bool_decide_eq_false_2.
Qed.

(** ** Forwarding entries are appended, tags are copied *)

Lemma registerForward_step (k : ForwardKind) (w : World) (g : NodePtr) (f c : PortPtr) :
  lookupGroupUnlocked w g <> None ->
  let w' := registerForward k w g f c in
  lookupGroupUnlocked w' g <> None
  /\ (forall k', forwardedList k' w' g f =
                 forwardedList k' w g f ++ (if bool_decide (k = k') then [c] else []))
  /\ m_tags (portAt w' f) = m_tags (portAt w c)
  /\ (forall p, p <> f -> portAt w' p = portAt w p).
Proof.
  intros Hg. destruct (lookupGroupUnlocked w g) as [gd|] eqn:Hgd; [|done].
  assert (Hl : forall d, lookupGroupUnlocked
                 (copyTagsFrom (store_group g d w) f c) g = Some d).
  { intros d. unfold copyTagsFrom, lookupGroupUnlocked. simpl.
    apply QMapFacts.value_insert_eq. }
  assert (Ht : forall d, m_tags (portAt (copyTagsFrom (store_group g d w) f c) f)
                         = m_tags (portAt w c)).
  { intros d. unfold copyTagsFrom. rewrite portAt_set_port_eq. done. }
  assert (Hp : forall d p, p <> f ->
                 portAt (copyTagsFrom (store_group g d w) f c) p = portAt w p).
  { intros d p Hpf. unfold copyTagsFrom. by rewrite portAt_set_port_ne. }
  unfold forwardedList.
  destruct k; simpl;
    [unfold registerForwardInput | unfold registerForwardOutput
     | unfold registerForwardParameter];
    rewrite Hgd, Hl; (split; [done|]); (split; [|auto]);
    intros k'; rewrite ?Hl; destruct k'; simpl;
    rewrite ?at_push_back_eq, ?app_nil_r; done.
Qed.

(** C7.  For a registered group [g] and a forward port [f], a sequence of
    [registerForwardInput], [registerForwardOutput] and
    [registerForwardParameter] calls with the concrete ports [c1 ... ck]
    appends each port to the list its table keeps under [f], in the order
    of the calls; after the sequence the tag set of [f] is the tag set of
    the last port [ck] (the copy of one set, not a union), every other port
    being left as it was. *)
Theorem registerForward_appends_and_copies_last_tags (w : World) (g : NodePtr)
    (f : PortPtr) (calls : list (ForwardKind * PortPtr)) :
  lookupGroupUnlocked w g <> None ->
  let w' := fold_left (fun w kc => registerForward (fst kc) w g f (snd kc)) calls w in
  (forall k, forwardedList k w' g f =
             forwardedList k w g f
             ++ List.map snd (List.filter (fun kc => bool_decide (fst kc = k)) calls))
  /\ (forall ck, List.last (List.map snd calls) f = ck -> calls <> [] ->
        m_tags (portAt w' f) = m_tags (portAt w' ck))
  /\ (forall p, p <> f -> portAt w' p = portAt w p).
Proof.
  revert w. induction calls as [|[k c] cs IH]; intros w Hg; simpl.
  - split; [intros; by rewrite app_nil_r|]. split; done.
  - destruct (registerForward_step k w g f c Hg) as (Hg1 & Hl1 & Ht1 & Hp1).
    destruct (IH _ Hg1) as (Hl & Ht & Hp).
    split; [|split].
    + intros k'. rewrite Hl, Hl1, <- app_assoc. by destruct (bool_decide (k = k')).
    + intros ck Hck _. destruct cs as [|[k' c'] cs'].
      * simpl in *. subst ck.
        destruct (decide (c = f)) as [->|Hcf]; [done|].
        rewrite Ht1. by rewrite Hp1.
      * apply Ht; [exact Hck | done].
    + intros p Hpf. rewrite Hp by done. by apply Hp1.
Qed.

(** ** Compatibility of two ports *)

Lemma isAnyInputPort_cases p :
  isAnyInputPort p = match m_orientation p with Output => false | _ => true end.
Proof. unfold isAnyInputPort. by destruct (m_orientation p). Qed.

Lemma isOutputPort_cases p :
  isOutputPort p = match m_orientation p with Output => true | _ => false end.
Proof. unfold isOutputPort. by destruct (m_orientation p). Qed.

Lemma isSink_cases p :
  isSink p = match m_orientation p with Output => false | _ => true end.
Proof. unfold isSink. by destruct (m_orientation p). Qed.

Lemma PortsAreCompatible_sym fuel w p q :
  PortsAreCompatible fuel w p q = PortsAreCompatible fuel w q p.
Proof.
  unfold PortsAreCompatible.
  rewrite !isAnyInputPort_cases, !isOutputPort_cases, !isSink_cases.
  rewrite (orb_comm (negb (port_isVisible (portAt w p)))).
  destruct (negb (port_isVisible (portAt w q)) || negb (port_isVisible (portAt w p))); [done|].
  rewrite (bool_decide_ext (port_parentItem (portAt w p) = port_parentItem (portAt w q))
             (port_parentItem (portAt w q) = port_parentItem (portAt w p))) by (split; congruence).
  destruct (bool_decide _); [done|].
  rewrite (orb_comm (Nat.eqb (Taggable.count (m_tags (portAt w p))) 0)).
  unfold Taggable.haveSameTags. rewrite (N.eqb_sym (m_tags (portAt w p))).
  destruct (m_orientation (portAt w p)), (m_orientation (portAt w q)); simpl; try done;
    destruct (_ || _); try done;
    destruct (hasConnection fuel w _) as [[|]|]; done.
Qed.

Lemma PortsAreCompatible_true_same_tags fuel w p q :
  PortsAreCompatible fuel w p q = Some true -> m_tags (portAt w p) = m_tags (portAt w q).
Proof.
  unfold PortsAreCompatible.
  repeat (match goal with
          | |- context [if ?b then Some false else _] => destruct b; [done|]
          end).
  destruct (if isSink (portAt w p) then _ else _) as [[|]|]; try done.
  destruct (if isSink (portAt w q) then _ else _) as [[|]|]; try done.
  unfold Taggable.haveSameTags. intros [= H]. by apply N.eqb_eq.
Qed.

(** C1.  [PortsAreCompatible] gives the same answer for [(p, q)] and for
    [(q, p)], and it answers true only when the tag masks of the two ports
    are equal; so a port tagged with one tag is never compatible with a port
    that carries this tag and another one. *)
Theorem PortsAreCompatible_symmetric_and_exact (fuel : nat) (w : World) (p q : PortPtr) :
  PortsAreCompatible fuel w p q = PortsAreCompatible fuel w q p
  /\ (PortsAreCompatible fuel w p q = Some true ->
      m_tags (portAt w p) = m_tags (portAt w q))
  /\ (forall i j : N, i <> j ->
      m_tags (portAt w p) = Taggable.singleTag i ->
      m_tags (portAt w q) = Taggable.addTag j (Taggable.singleTag i) ->
      PortsAreCompatible fuel w p q <> Some true).
Proof.
  split; [apply PortsAreCompatible_sym|].
  split; [apply PortsAreCompatible_true_same_tags|].
  intros i j Hij Hp Hq Hc.
  apply PortsAreCompatible_true_same_tags in Hc. rewrite Hp, Hq in Hc.
  unfold Taggable.addTag, Taggable.singleTag in Hc.
  assert (Hbit : N.testbit (N.shiftl 1 i) j = N.testbit (N.lor (N.shiftl 1 i) (N.shiftl 1 j)) j)
    by (by rewrite <- Hc).
  rewrite N.lor_spec in Hbit.
  rewrite !N.shiftl_1_l in Hbit.
  rewrite N.pow2_bits_eqb, N.pow2_bits_eqb in Hbit.
  rewrite N.eqb_refl in Hbit.
  destruct (N.eqb_spec i j); [done|]. simpl in Hbit. done.
Qed.

(** ** The recursive queries: when they return, and what *)

Section Loops.
Context {A B : Type}.

Lemma concatMapM_app (f : A -> option (list B)) (l1 l2 : list A) :
  concatMapM f (l1 ++ l2) =
  match concatMapM f l1 with
  | None => None
  | Some a => match concatMapM f l2 with None => None | Some b => Some (a ++ b) end
  end.
Proof.
  induction l1 as [|x l1 IH]; simpl.
  - by destruct (concatMapM f l2).
  - destruct (f x) as [r|]; [|done]. rewrite IH.
    destruct (concatMapM f l1) as [a|]; [|done].
    destruct (concatMapM f l2) as [b|]; [|done].
    by rewrite app_assoc.
Qed.

Lemma concatMapM_mono (f g : A -> option (list B)) (l : list A) (r : list B) :
  (forall x r, In x l -> f x = Some r -> g x = Some r) ->
  concatMapM f l = Some r -> concatMapM g l = Some r.
Proof.
  revert r. induction l as [|x l IH]; simpl; intros r Hfg; [done|].
  destruct (f x) as [a|] eqn:Hfx; [|done].
  rewrite (Hfg x a) by auto.
  destruct (concatMapM f l) as [b|] eqn:Hl; [|done].
  intros. rewrite (IH b); auto.
Qed.

Lemma concatMapM_total (f : A -> option (list B)) (l : list A) :
  (forall x, In x l -> exists r, f x = Some r) -> exists r, concatMapM f l = Some r.
Proof.
  induction l as [|x l IH]; simpl; intros Hf; [by eexists|].
  destruct (Hf x) as [a ->]; [by left|].
  destruct IH as [b ->]; [by auto|]. by eexists.
Qed.

Lemma concatMapM_ext (f g : A -> option (list B)) (l : list A) :
  (forall x, In x l -> f x = g x) -> concatMapM f l = concatMapM g l.
Proof.
  induction l as [|x l IH]; simpl; intros Hfg; [done|].
  rewrite (Hfg x) by auto. rewrite IH by auto. done.
Qed.

(** A non-empty result comes from an element with a non-empty result. *)
Lemma concatMapM_nonempty (f : A -> option (list B)) (l : list A) (r : list B) :
  concatMapM f l = Some r -> r <> [] ->
  exists x a, In x l /\ f x = Some a /\ a <> [].
Proof.
  revert r. induction l as [|x l IH]; simpl; intros r.
  - by intros [= <-].
  - destruct (f x) as [a|] eqn:Hfx; [|done].
    destruct (concatMapM f l) as [b|] eqn:Hl; [|done].
    intros [= <-] Hne. destruct a as [|a0 a].
    + destruct (IH b eq_refl) as (y & c & Hy & Hc & Hcne); [done|].
      exists y, c. auto.
    + exists x, (a0 :: a). auto.
Qed.

Lemma concatMapM_empty (f : A -> option (list B)) (l : list A) :
  concatMapM f l = Some [] -> forall x, In x l -> f x = Some [].
Proof.
  induction l as [|x l IH]; simpl; [done|].
  destruct (f x) as [a|] eqn:Hfx; [|done].
  destruct (concatMapM f l) as [b|] eqn:Hl; [|done].
  intros [= Hab]. apply app_eq_nil in Hab as [-> ->].
  intros y [<-|Hy]; [done | by apply IH].
Qed.

Lemma anyM_mono (f g : A -> option bool) (l : list A) (b : bool) :
  (forall x r, In x l -> f x = Some r -> g x = Some r) ->
  anyM f l = Some b -> anyM g l = Some b.
Proof.
  induction l as [|x l IH]; simpl; intros Hfg; [done|].
  destruct (f x) as [a|] eqn:Hfx; [|done].
  rewrite (Hfg x a) by auto. destruct a; [done|]. apply IH. auto.
Qed.

Lemma anyM_total (f : A -> option bool) (l : list A) :
  (forall x, In x l -> exists r, f x = Some r) -> exists r, anyM f l = Some r.
Proof.
  induction l as [|x l IH]; simpl; intros Hf; [by eexists|].
  destruct (Hf x) as [a ->]; [by left|].
  destruct a; [by eexists|]. apply IH. auto.
Qed.

Lemma anyM_true (f : A -> option bool) (l : list A) :
  anyM f l = Some true -> exists x, In x l /\ f x = Some true.
Proof.
  induction l as [|x l IH]; simpl; [done|].
  destruct (f x) as [[|]|] eqn:Hfx; try done.
  - intros _. exists x. auto.
  - intros H. destruct (IH H) as (y & Hy & Hfy). exists y. auto.
Qed.

Lemma anyM_false (f : A -> option bool) (l : list A) :
  anyM f l = Some false -> forall x, In x l -> f x = Some false.
Proof.
  induction l as [|x l IH]; simpl; [done|].
  destruct (f x) as [[|]|] eqn:Hfx; try done.
  intros H y [<-|Hy]; [done | by apply IH].
Qed.

End Loops.

Lemma checkMap_appendIfExists (rec : PortPtr -> option (list ConnPtr))
    (mp : QMap.t (list PortPtr)) (p : PortPtr) :
  (if QMap.contains mp p then concatMapM rec (QMap.at_ mp p) else Some [])
  = concatMapM rec (appendIfExists mp p).
Proof. unfold appendIfExists. by destruct (QMap.contains mp p). Qed.

(** [getConnectionsFromGroupPort] walks the ports that
    [getAllForwardedPortsFromAPort] returns, in the same order. *)
Lemma groupPortConnections_forwarded (rec : PortPtr -> option (list ConnPtr)) w p :
  groupPortConnections rec w p = concatMapM rec (getAllForwardedPortsFromAPort w p).
Proof.
  unfold groupPortConnections, getAllForwardedPortsFromAPort.
  induction (QMap.values (m_groups (registry w))) as [|gd gds IH]; simpl; [done|].
  rewrite concatMapM_app, <- IH. unfold forwardedBy.
  rewrite !concatMapM_app, <- !checkMap_appendIfExists.
  destruct (if QMap.contains (forwardInputsDescriptor gd) p then _ else _); [|done].
  destruct (if QMap.contains (forwardOutputsDescriptor gd) p then _ else _); [|done].
  destruct (if QMap.contains (forwardParametersInputsDescriptor gd) p then _ else _); done.
Qed.

Lemma getConnections_S fuel w p :
  getConnections (S fuel) w p =
  match findNode w (m_moduleName (portAt w p)) with
  | None => concatMapM (getConnections fuel w) (getAllForwardedPortsFromAPort w p)
  | Some owner =>
      match lookupNodeUnlocked w (nd_node owner) with
      | None => Some []
      | Some nd => Some (connectionsIn nd p)
      end
  end.
Proof. simpl. by rewrite groupPortConnections_forwarded. Qed.

Lemma hasConnection_S fuel w p :
  hasConnection (S fuel) w p =
  match anyM (hasConnection fuel w) (getAllForwardedPortsFromAPort w p) with
  | None => None
  | Some true => Some true
  | Some false =>
      match getConnections fuel w p with
      | None => None
      | Some conns => Some (negb (bool_decide (conns = [])))
      end
  end.
Proof. done. Qed.

Lemma getConnections_mono_S fuel w p l :
  getConnections fuel w p = Some l -> getConnections (S fuel) w p = Some l.
Proof.
  revert p l. induction fuel as [|fuel IH]; intros p l; [done|].
  rewrite (getConnections_S (S fuel)), (getConnections_S fuel).
  destruct (findNode w _); [done|].
  apply concatMapM_mono. intros x r _. apply IH.
Qed.


Lemma hasConnection_mono_S fuel w p b :
  hasConnection fuel w p = Some b -> hasConnection (S fuel) w p = Some b.
Proof.
  revert p b. induction fuel as [|fuel IH]; intros p b; [done|].
  rewrite (hasConnection_S (S fuel)), (hasConnection_S fuel).
  destruct (anyM (hasConnection fuel w) _) as [r|] eqn:Hany; [|done].
  rewrite (anyM_mono (hasConnection fuel w) (hasConnection (S fuel) w) _ r)
    by (done || (intros x r' _; apply IH)).
  destruct r; [done|].
  destruct (getConnections fuel w p) as [l|] eqn:Hl; [|done].
  by rewrite (getConnections_mono_S _ _ _ _ Hl).
Qed.

Lemma hasConnection_mono fuel fuel' w p b :
  fuel <= fuel' -> hasConnection fuel w p = Some b -> hasConnection fuel' w p = Some b.
Proof.
  induction 1 as [|m Hle IH]; [done|].
  intros H. apply hasConnection_mono_S. by apply IH.
Qed.

(** With ranked forwarding tables both queries return, given fuel for the
    nesting the rank allows. *)
Lemma getConnections_total w rank fuel p :
  ranked w rank -> rank p < fuel -> exists l, getConnections fuel w p = Some l.
Proof.
  intros Hr. revert p. induction fuel as [|fuel IH]; intros p Hp; [lia|].
  rewrite getConnections_S.
  destruct (findNode w _).
  - destruct (lookupNodeUnlocked w _); by eexists.
  - apply concatMapM_total. intros c Hc. apply IH.
    specialize (Hr p c Hc). lia.
Qed.

Lemma hasConnection_total w rank fuel p :
  ranked w rank -> rank p + 1 < fuel -> exists b, hasConnection fuel w p = Some b.
Proof.
  intros Hr. revert p. induction fuel as [|fuel IH]; intros p Hp; [lia|].
  rewrite hasConnection_S.
  destruct (anyM_total (hasConnection fuel w) (getAllForwardedPortsFromAPort w p)) as [r ->].
  { intros c Hc. apply IH. specialize (Hr p c Hc). lia. }
  destruct r; [by eexists|].
  destruct (getConnections_total w rank fuel p Hr) as [l ->]; [lia|]. by eexists.
Qed.

Lemma getConnections_S_own fuel w p :
  getConnections (S fuel) w p =
  match findNode w (m_moduleName (portAt w p)) with
  | None => concatMapM (getConnections fuel w) (getAllForwardedPortsFromAPort w p)
  | Some _ => Some (ownConnections w p)
  end.
Proof.
  rewrite getConnections_S. unfold ownConnections.
  destruct (findNode w _); [|done]. by destruct (lookupNodeUnlocked w _).
Qed.

Lemma ownConnections_getConnections fuel w p l :
  getConnections fuel w p = Some l -> ownConnections w p <> [] -> l = ownConnections w p.
Proof.
  destruct fuel as [|fuel]; [done|]. rewrite getConnections_S_own.
  unfold ownConnections at 2.
  destruct (findNode w _); [congruence | done].
Qed.

(** A non-empty answer of [getConnections] comes from a port, the queried
    one or one behind it, with connections of its own. *)
Lemma getConnections_nonempty_reach fuel w p l :
  getConnections fuel w p = Some l -> l <> [] ->
  exists c, clos_refl_trans PortPtr (forwards_to w) p c /\ ownConnections w c <> [].
Proof.
  revert p l. induction fuel as [|fuel IH]; intros p l; [done|].
  rewrite getConnections_S_own.
  destruct (findNode w _) eqn:Hfind.
  - intros [= <-] Hne. exists p. split; [apply rt_refl | done].
  - intros Hl Hne.
    destruct (concatMapM_nonempty _ _ _ Hl Hne) as (x & a & Hx & Ha & Hane).
    destruct (IH x a Ha Hane) as (c & Hxc & Hc).
    exists c. split; [|done].
    eapply rt_trans; [apply rt_step; exact Hx | exact Hxc].
Qed.

Lemma hasConnection_true_reach fuel w p :
  hasConnection fuel w p = Some true ->
  exists c, clos_refl_trans PortPtr (forwards_to w) p c /\ ownConnections w c <> [].
Proof.
  revert p. induction fuel as [|fuel IH]; intros p; [done|].
  rewrite hasConnection_S.
  destruct (anyM (hasConnection fuel w) _) as [[|]|] eqn:Hany; [| |done].
  - intros _. destruct (anyM_true _ _ Hany) as (x & Hx & Hhx).
    destruct (IH x Hhx) as (c & Hxc & Hc). exists c. split; [|done].
    eapply rt_trans; [apply rt_step; exact Hx | exact Hxc].
  - destruct (getConnections fuel w p) as [l|] eqn:Hl; [|done].
    intros [= Hb]. apply negb_true_iff, bool_decide_eq_false in Hb.
    eapply getConnections_nonempty_reach; eauto.
Qed.

Lemma hasConnection_false_reach fuel w p c :
  hasConnection fuel w p = Some false ->
  clos_refl_trans PortPtr (forwards_to w) p c -> ownConnections w c = [].
Proof.
  intros Hh Hpc. apply clos_rt_rt1n in Hpc. revert fuel Hh.
  induction Hpc as [p | p x c Hpx Hxc IH]; intros fuel; (destruct fuel as [|fuel]; [done|]);
    rewrite hasConnection_S;
    destruct (anyM (hasConnection fuel w) _) as [[|]|] eqn:Hany; try done;
    destruct (getConnections fuel w p) as [l|] eqn:Hl; try done; intros [= Hb].
  - apply negb_false_iff, bool_decide_eq_true in Hb. subst l.
    destruct (ownConnections w p) as [|c0 cs] eqn:Hown; [done|].
    assert (Hne : ownConnections w p <> []) by (by rewrite Hown).
    pose proof (ownConnections_getConnections _ _ _ _ Hl Hne) as Heq.
    by rewrite Hown in Heq.
  - eapply IH. eapply anyM_false; [exact Hany | exact Hpx].
Qed.

Lemma clos_rt_eq_or_t {X : Type} (R : X -> X -> Prop) x y :
  clos_refl_trans X R x y -> x = y \/ clos_trans X R x y.
Proof.
  induction 1 as [x y H | x | x y z _ IH1 _ IH2].
  - right. by apply t_step.
  - by left.
  - destruct IH1 as [->|H1]; [exact IH2|].
    destruct IH2 as [<-|H2]; [by right|].
    right. eapply t_trans; eauto.
Qed.

(** ** A forward port is connected when a port behind it is *)

(** C6, as amended.  Let [f] be a forward port of a group that forwards to
    at least one port, in a registry whose forwarding tables are ranked.
    Then [hasConnection f] returns, and it returns true exactly when [f]
    itself or a port reachable from [f] through the forwarding tables, a
    concrete port or the forward port of an inner group, has a connection
    list of its own that is not empty: a list in the descriptor of the node
    that its module name resolves to.  When [f] has no such list, that is:
    exactly when a port reachable from [f] in one step or more has one. *)
Theorem hasConnection_forward_port_iff_concrete_connected (w : World)
    (rank : PortPtr -> nat) (fuel : nat) (f : PortPtr) :
  ranked w rank ->
  rank f + 1 < fuel ->
  getAllForwardedPortsFromAPort w f <> [] ->
  exists b, hasConnection fuel w f = Some b
    /\ (b = true <->
        exists c, clos_refl_trans PortPtr (forwards_to w) f c /\ ownConnections w c <> [])
    /\ (ownConnections w f = [] ->
        (b = true <-> exists c, reaches w f c /\ ownConnections w c <> [])).
Proof.
  intros Hr Hfuel _.
  destruct (hasConnection_total w rank fuel f Hr Hfuel) as [b Hb].
  exists b. split; [done|].
  assert (Hiff : b = true <->
            exists c, clos_refl_trans PortPtr (forwards_to w) f c /\ ownConnections w c <> []).
  { split.
    - intros ->. exact (hasConnection_true_reach _ _ _ Hb).
    - intros (c & Hfc & Hc). destruct b; [done|]. exfalso. apply Hc.
      eapply hasConnection_false_reach; [exact Hb | exact Hfc]. }
  split; [exact Hiff|]. intros Hown. rewrite Hiff. split.
  - intros (c & Hfc & Hc). exists c. split; [|done].
    destruct (clos_rt_eq_or_t _ _ _ Hfc) as [<-|Ht]; [done | exact Ht].
  - intros (c & Hfc & Hc). exists c. split; [|done]. by apply clos_t_clos_rt.
Qed.

(** ** A connected sink refuses a second connection *)


Lemma PortsAreCompatible_connected_sink fuel w p q :
  isSink (portAt w p) = true -> hasConnection fuel w p = Some true ->
  PortsAreCompatible fuel w p q = Some false.
Proof.
  intros Hs Hh. unfold PortsAreCompatible.
  repeat (match goal with
          | |- context [if ?b then Some false else _] => destruct b; [done|]
          end).
  by rewrite Hs, Hh.
Qed.


(** ** registerConnection *)

Lemma lookupNode_on_node n f w m :
  lookupNodeUnlocked (on_node n f w) m =
  if decide (n = m) then option_map f (lookupNodeUnlocked w m) else lookupNodeUnlocked w m.
Proof.
  unfold on_node. destruct (decide (n = m)) as [->|Hne].
  - destruct (lookupNodeUnlocked w m) eqn:H; simpl; [|done].
    apply lookupNode_store_node_eq.
  - destruct (lookupNodeUnlocked w n); [|done]. by apply lookupNode_store_node_ne.
Qed.

Lemma on_node_frame n f w :
  let w' := on_node n f w in
  m_groups (registry w') = m_groups (registry w)
  /\ m_nextNodeId (registry w') = m_nextNodeId (registry w)
  /\ m_nextGroupId (registry w') = m_nextGroupId (registry w)
  /\ nodeItems w' = nodeItems w /\ portLabels w' = portLabels w
  /\ connectionItems w' = connectionItems w /\ nextAddr w' = nextAddr w.
Proof. unfold on_node. by destruct (lookupNodeUnlocked w n). Qed.

(** The two writes of [registerConnection], once the ports are classified
    and both owners are found. *)
Lemma registerConnection_resolved w from to c inPort outPort outNode inNode :
  classify w from to = (inPort, Some outPort) ->
  ownerByName w (m_moduleName (portAt w outPort)) = Some outNode ->
  ownerByName w (m_moduleName (portAt w inPort)) = Some inNode ->
  registerConnection w from to c =
  on_node inNode (fun d => set_inputsDescriptor (QMap.push_back inPort c (inputsDescriptor d)) d)
    (on_node outNode
       (fun d => set_outputsDescriptor (QMap.push_back outPort c (outputsDescriptor d)) d) w).
Proof.
  intros Hc Ho Hi. unfold registerConnection. rewrite Hc, Ho, Hi. done.
Qed.

Lemma value_push_back {A} (m : QMap.t (list A)) k k' x :
  QMap.value (QMap.push_back k x m) k' =
  if decide (k = k') then Some (QMap.at_ m k' ++ [x]) else QMap.value m k'.
Proof.
  unfold QMap.push_back, QMap.at_. destruct (decide (k = k')) as [->|Hne].
  - apply QMapFacts.value_insert_eq.
  - by apply QMapFacts.value_insert_ne.
Qed.

Lemma decide_pair {X : Type} (n m p q : positive) (a b : X) :
  (if decide (n = m /\ p = q) then a else b)
  = if decide (m = n) then (if decide (q = p) then a else b) else b.
Proof.
  destruct (decide (n = m /\ p = q)) as [[-> ->]|Hn].
  - by rewrite !decide_True.
  - destruct (decide (m = n)) as [->|]; [|done].
    destruct (decide (q = p)) as [->|]; [|done]. by destruct Hn.
Qed.

(** C4 (amended).  [registerConnection(from, to, c)] changes nothing when
    [from] is an input or a parameter and [to] is not an output (both are
    sinks), and nothing when the owner of either port is found neither among
    the nodes nor among the groups of that name.  When one port is a sink,
    the other is an output and both owners are found, [c] is appended to the
    list of the output in the outputs descriptor of its owner and to the
    list of the sink in the inputs descriptor of its owner, for an owner
    that is a registered node; an owner that is a group has no descriptor of
    connection lists and nothing is recorded on its side.  No other list,
    descriptor, table or object changes. *)
Theorem registerConnection_effect (w : World) (from to : PortPtr) (c : ConnPtr) :
  (isAnyInputPort (portAt w from) = true -> isOutputPort (portAt w to) = false ->
   registerConnection w from to c = w)
  /\ (forall inPort outPort,
        classify w from to = (inPort, Some outPort) ->
        ownerByName w (m_moduleName (portAt w outPort)) = None
        \/ ownerByName w (m_moduleName (portAt w inPort)) = None ->
        registerConnection w from to c = w)
  /\ (forall inPort outPort outNode inNode,
        classify w from to = (inPort, Some outPort) ->
        isAnyInputPort (portAt w inPort) = true ->
        ownerByName w (m_moduleName (portAt w outPort)) = Some outNode ->
        ownerByName w (m_moduleName (portAt w inPort)) = Some inNode ->
        let w' := registerConnection w from to c in
        (forall n, lookupNodeUnlocked w n = None -> lookupNodeUnlocked w' n = None)
        /\ (forall n d, lookupNodeUnlocked w n = Some d ->
              exists d', lookupNodeUnlocked w' n = Some d'
                /\ nd_uid d' = nd_uid d /\ nd_node d' = nd_node d
                /\ parametersInputsDescriptor d' = parametersInputsDescriptor d
                /\ (forall p, QMap.value (outputsDescriptor d') p =
                      if decide (n = outNode /\ p = outPort)
                      then Some (QMap.at_ (outputsDescriptor d) p ++ [c])
                      else QMap.value (outputsDescriptor d) p)
                /\ (forall p, QMap.value (inputsDescriptor d') p =
                      if decide (n = inNode /\ p = inPort)
                      then Some (QMap.at_ (inputsDescriptor d) p ++ [c])
                      else QMap.value (inputsDescriptor d) p))
        /\ m_groups (registry w') = m_groups (registry w)
        /\ m_nextNodeId (registry w') = m_nextNodeId (registry w)
        /\ m_nextGroupId (registry w') = m_nextGroupId (registry w)
        /\ nodeItems w' = nodeItems w /\ portLabels w' = portLabels w
        /\ connectionItems w' = connectionItems w /\ nextAddr w' = nextAddr w).
Proof.
  split; [|split].
  - intros Hin Hout. unfold registerConnection, classify. by rewrite Hin, Hout.
  - intros inPort outPort Hc Hown. unfold registerConnection. rewrite Hc.
    destruct Hown as [-> | ->]; [done|]. by destruct (ownerByName w _).
  - intros inPort outPort outNode inNode Hc _ Ho Hi w'.
    subst w'. rewrite (registerConnection_resolved _ _ _ _ _ _ _ _ Hc Ho Hi).
    set (fout := fun d => set_outputsDescriptor _ d).
    set (fin := fun d => set_inputsDescriptor _ d).
    split; [|split].
    + intros n Hn. rewrite !lookupNode_on_node, Hn.
      by repeat (match goal with |- context [decide ?P] => destruct (decide P) end).
    + intros n d Hn. rewrite !lookupNode_on_node, Hn.
      exists ((if decide (inNode = n) then fin else id)
                ((if decide (outNode = n) then fout else id) d)).
      split; [by destruct (decide (inNode = n)), (decide (outNode = n))|].
      split; [by destruct (decide (inNode = n)), (decide (outNode = n))|].
      split; [by destruct (decide (inNode = n)), (decide (outNode = n))|].
      split; [by destruct (decide (inNode = n)), (decide (outNode = n))|].
      split; intros p; rewrite decide_pair.
      * destruct (decide (inNode = n)), (decide (outNode = n)); simpl;
          rewrite ?value_push_back; done.
      * destruct (decide (inNode = n)), (decide (outNode = n)); simpl;
          rewrite ?value_push_back; done.
    + destruct (on_node_frame inNode fin (on_node outNode fout w)) as (E1&E2&E3&E4&E5&E6&E7).
      destruct (on_node_frame outNode fout w) as (F1&F2&F3&F4&F5&F6&F7).
      simpl in *. rewrite E1, E2, E3, E4, E5, E6, E7. done.
Qed.

(** C4 as stated fails where an owner is a group.  In [scene_grouped_C],
    [registerConnection(C.out2, B_i, c)] with [B_i] the forward input of the
    group classifies the two ports and finds both owners, yet the
    connection is listed under [B_i] in no inputs descriptor of its owner:
    a group has none. *)
Lemma registerConnection_group_owner_not_recorded :
  let w := scene_grouped_C in
  let c := 11%positive in
  ~ (classify w 10 8 = (8%positive, Some 10%positive) ->
     ownerByName w (m_moduleName (portAt w 10)) = Some 9%positive ->
     ownerByName w (m_moduleName (portAt w 8)) = Some 6%positive ->
     exists dout din,
       lookupNodeUnlocked (registerConnection w 10 8 c) 9 = Some dout
       /\ In c (QMap.at_ (outputsDescriptor dout) 10)
       /\ lookupNodeUnlocked (registerConnection w 10 8 c) 6 = Some din
       /\ In c (QMap.at_ (inputsDescriptor din) 8)).
Proof.
  intros w c H.
  destruct H as (dout & din & _ & _ & Hdin & _); [by vm_compute ..|].
  vm_compute in Hdin. discriminate.
Qed.

(** The case the amended statement leaves out: with two output ports
    [registerConnection] does not stop, it takes [to] for the sink and
    records the connection under both. *)
Example registerConnection_two_outputs_recorded :
  let w' := registerConnection scene_ABC 3 7 9 in
  classify scene_ABC 3 7 = (7%positive, Some 3%positive)
  /\ isOutputPort (portAt scene_ABC 3) = true /\ isOutputPort (portAt scene_ABC 7) = true
  /\ option_map (fun d => QMap.at_ (inputsDescriptor d) 7) (lookupNodeUnlocked w' 6)
     = Some [9%positive]
  /\ option_map (fun d => QMap.at_ (outputsDescriptor d) 3) (lookupNodeUnlocked w' 1)
     = Some [5%positive; 9%positive].
Proof. by vm_compute. Qed.

(** ** Activation cascades to the connections of the outputs *)

Lemma find_pointwise {X : Type} (f g : X -> bool) (l : list X) :
  (forall x, f x = g x) -> List.find f l = List.find g l.
Proof. intros H. induction l as [|x l IH]; simpl; [done|]. by rewrite H, IH. Qed.

Lemma findNode_same_graph w w' name : same_graph w w' -> findNode w' name = findNode w name.
Proof.
  intros (Hr & _ & Hn). unfold findNode. rewrite Hr.
  apply find_pointwise. intros nd. by rewrite Hn.
Qed.

Lemma getConnections_same_graph fuel w w' p :
  same_graph w w' -> getConnections fuel w' p = getConnections fuel w p.
Proof.
  intros Hs. revert p. induction fuel as [|fuel IH]; intros p; [done|].
  rewrite !getConnections_S, (findNode_same_graph _ _ _ Hs).
  destruct Hs as (Hr & Hp & Hn).
  unfold portAt, lookupNodeUnlocked, getAllForwardedPortsFromAPort. rewrite Hr, Hp.
  destruct (findNode w _); [done|].
  apply concatMapM_ext. intros x _. apply IH.
Qed.


Lemma setConnectionsActive_frame b l w :
  let w' := setConnectionsActive b l w in
  registry w' = registry w /\ portLabels w' = portLabels w
  /\ nodeItems w' = nodeItems w /\ nextAddr w' = nextAddr w.
Proof.
  revert w. induction l as [|c l IH]; intros w; simpl; [done|].
  destruct (IH (set_conn c (setIsActive b (connAt w c)) w)) as (H1 & H2 & H3 & H4).
  simpl in *. by rewrite H1, H2, H3, H4.
Qed.


Lemma same_graph_setConnectionsActive b l w : same_graph w (setConnectionsActive b l w).
Proof.
  destruct (setConnectionsActive_frame b l w) as (H1 & H2 & H3 & _).
  split; [done|]. split; [done|]. intros n. unfold nodeAt. simpl in H3. by rewrite H3.
Qed.

(** The outer loop sets the flag on the connections of all the outputs. *)
Lemma cascadeActive_concat fuel b w outs :
  cascadeActive fuel b w outs =
  match concatMapM (getConnections fuel w) outs with
  | Some ls => Some (setConnectionsActive b ls w)
  | None => None
  end.
Proof.
  revert w. induction outs as [|p outs IH]; intros w; simpl; [done|].
  destruct (getConnections fuel w p) as [l|]; [|done].
  rewrite IH.
  rewrite (concatMapM_ext (getConnections fuel (setConnectionsActive b l w))
             (getConnections fuel w))
    by (intros x _; apply getConnections_same_graph, same_graph_setConnectionsActive).
  destruct (concatMapM (getConnections fuel w) outs) as [ls|]; [|done].
  unfold setConnectionsActive. by rewrite fold_left_app.
Qed.

Lemma concatMapM_In {A B : Type} (f : A -> option (list B)) (l : list A) (r : list B) (y : B) :
  concatMapM f l = Some r ->
  (In y r <-> exists x a, In x l /\ f x = Some a /\ In y a).
Proof.
  revert r. induction l as [|x l IH]; simpl; intros r.
  - intros [= <-]. split; [done | by intros (? & ? & [] & _)].
  - destruct (f x) as [a|] eqn:Hfx; [|done].
    destruct (concatMapM f l) as [b|] eqn:Hl; [|done].
    intros [= <-]. rewrite in_app_iff, (IH b eq_refl). split.
    + intros [Hy | (x' & a' & Hx' & Ha' & Hy)]; [exists x, a | exists x', a']; auto.
    + intros (x' & a' & [<-|Hx'] & Ha' & Hy).
      * left. congruence.
      * right. exists x', a'. auto.
Qed.


(** ** What the operations leave alone *)

Lemma frame_refl w : frame w w.
Proof. split; eauto. lia. Qed.

Lemma frame_trans w1 w2 w3 : frame w1 w2 -> frame w2 w3 -> frame w1 w3.
Proof.
  intros [N1 G1 X1 A1] [N2 G2 X2 A2]. split.
  - intros n d3 H3. destruct (N2 n d3 H3) as (d2 & H2 & E2).
    destruct (N1 n d2 H2) as (d1 & H1 & E1). exists d1. split; [done | congruence].
  - intros g Hg. destruct (G2 g Hg) as [Hg2 E2]. destruct (G1 g Hg2) as [Hg1 E1].
    split; [done | congruence].
  - congruence.
  - lia.
Qed.

Lemma frame_fold {X : Type} (f : World -> X -> World) (l : list X) (w : World) :
  (forall w x, frame w (f w x)) -> frame w (fold_left f l w).
Proof.
  intros Hf. revert w. induction l as [|x l IH]; intros w; simpl; [apply frame_refl|].
  eapply frame_trans; [apply Hf | apply IH].
Qed.

Lemma frame_iter (f : World -> World) (k : nat) (w : World) :
  (forall w, frame w (f w)) -> frame w (Nat.iter k f w).
Proof.
  intros Hf. induction k as [|k IH]; simpl; [apply frame_refl|].
  eapply frame_trans; [apply IH | apply Hf].
Qed.

(** A change of the heap alone. *)
Lemma frame_heap w w' :
  registry w' = registry w ->
  (forall g, QMap.contains (m_groups (registry w)) g = true ->
             is_group (nodeAt w' g) = is_group (nodeAt w g)) ->
  (nextAddr w <= nextAddr w')%positive ->
  frame w w'.
Proof.
  intros Hr Hg Ha. split; unfold lookupNodeUnlocked; rewrite ?Hr; eauto.
Qed.

Lemma frame_set_port w p o : frame w (set_port p o w).
Proof. apply frame_heap; simpl; [done | done | lia]. Qed.

Lemma frame_set_conn w c o : frame w (set_conn c o w).
Proof. apply frame_heap; simpl; [done | done | lia]. Qed.

Lemma frame_alloc w : frame w (snd (alloc w)).
Proof. apply frame_heap; simpl; [done | done | lia]. Qed.

Lemma frame_set_node_same w n o :
  is_group o = is_group (nodeAt w n) -> frame w (set_node n o w).
Proof.
  intros Ho. apply frame_heap; simpl; [done | | lia].
  intros g _. destruct (decide (n = g)) as [->|Hne].
  - by rewrite nodeAt_set_node_eq.
  - by rewrite nodeAt_set_node_ne.
Qed.

Lemma frame_set_node_unregistered w n o :
  QMap.contains (m_groups (registry w)) n = false -> frame w (set_node n o w).
Proof.
  intros Hn. apply frame_heap; simpl; [done | | lia].
  intros g Hg. destruct (decide (n = g)) as [->|Hne]; [congruence|].
  by rewrite nodeAt_set_node_ne.
Qed.

Lemma frame_store_node w n d d' :
  lookupNodeUnlocked w n = Some d -> key_info d' = key_info d -> frame w (store_node n d' w).
Proof.
  intros Hn Hk. split; simpl; eauto; [|lia].
  intros m dm. destruct (decide (n = m)) as [->|Hne].
  - rewrite lookupNode_store_node_eq. intros [= <-]. eauto.
  - rewrite lookupNode_store_node_ne by done. eauto.
Qed.

Lemma frame_on_node n f w :
  (forall d, key_info (f d) = key_info d) -> frame w (on_node n f w).
Proof.
  intros Hf. unfold on_node. destruct (lookupNodeUnlocked w n) eqn:H; [|apply frame_refl].
  eapply frame_store_node; eauto.
Qed.

Lemma frame_store_group w g gd gd' :
  lookupGroupUnlocked w g = Some gd -> frame w (store_group g gd' w).
Proof.
  intros Hg. split; simpl; eauto; [|lia].
  intros h Hh. split; [|done].
  destruct (decide (g = h)) as [<-|Hne].
  - apply QMapFacts.contains_true. eauto.
  - apply QMapFacts.contains_true in Hh as [x Hx].
    rewrite QMapFacts.value_insert_ne in Hx by done.
    apply QMapFacts.contains_true. eauto.
Qed.

Lemma frame_remove_node w n :
  frame w (set_registry (set_m_nodes (QMap.remove n (m_nodes (registry w))) (registry w)) w).
Proof.
  split; simpl; eauto; [|lia].
  intros m d. unfold lookupNodeUnlocked; simpl.
  destruct (decide (n = m)) as [->|Hne].
  - by rewrite QMapFacts.value_remove_eq.
  - rewrite QMapFacts.value_remove_ne by done. eauto.
Qed.

Lemma frame_remove_group w g :
  frame w (set_registry (set_m_groups (QMap.remove g (m_groups (registry w))) (registry w)) w).
Proof.
  split; simpl; eauto; [|lia].
  intros h Hh. split; [|done].
  apply QMapFacts.contains_true in Hh as [x Hx].
  destruct (decide (g = h)) as [->|Hne].
  - by rewrite QMapFacts.value_remove_eq in Hx.
  - rewrite QMapFacts.value_remove_ne in Hx by done.
    apply QMapFacts.contains_true. eauto.
Qed.

Lemma frame_copyTagsFrom w f a : frame w (copyTagsFrom w f a).
Proof. apply frame_set_port. Qed.

Ltac frame_steps :=
  repeat first
    [ apply frame_refl
    | apply frame_set_port
    | apply frame_set_conn
    | apply frame_copyTagsFrom
    | apply frame_set_node_same; reflexivity
    | eapply frame_store_node; [eassumption | reflexivity]
    | eapply frame_store_group; eassumption
    | eapply frame_trans; [eapply frame_store_group; eassumption | apply frame_copyTagsFrom ] ].

Lemma frame_registerInput w n p : frame w (registerInput w n p).
Proof.
  unfold registerInput. destruct (isInputPort _); [|frame_steps].
  destruct (lookupNodeUnlocked w n) eqn:H; frame_steps.
Qed.

Lemma frame_registerOutput w n p : frame w (registerOutput w n p).
Proof.
  unfold registerOutput. destruct (isOutputPort _); [|frame_steps].
  destruct (lookupNodeUnlocked w n) eqn:H; frame_steps.
Qed.

Lemma frame_registerParameter w n p : frame w (registerParameter w n p).
Proof.
  unfold registerParameter. destruct (isParameterPort _); [|frame_steps].
  destruct (lookupNodeUnlocked w n) eqn:H; frame_steps.
Qed.

Lemma frame_unregisterInput w n p : frame w (unregisterInput w n p).
Proof.
  unfold unregisterInput. destruct (isInputPort _); [|frame_steps].
  destruct (lookupNodeUnlocked w n) eqn:H; frame_steps.
Qed.

Lemma frame_unregisterOutput w n p : frame w (unregisterOutput w n p).
Proof.
  unfold unregisterOutput. destruct (isOutputPort _); [|frame_steps].
  destruct (lookupNodeUnlocked w n) eqn:H; frame_steps.
Qed.

Lemma frame_unregisterParameter w n p : frame w (unregisterParameter w n p).
Proof.
  unfold unregisterParameter. destruct (lookupNodeUnlocked w n) eqn:H; frame_steps.
Qed.

Lemma frame_registerConnection w from to c : frame w (registerConnection w from to c).
Proof.
  unfold registerConnection.
  destruct (classify w from to) as [inPort [outPort|]]; [|frame_steps].
  destruct (ownerByName w (m_moduleName (portAt w outPort))) as [outNode|]; [|frame_steps].
  destruct (ownerByName w (m_moduleName (portAt w inPort))) as [inNode|]; [|frame_steps].
  apply frame_trans with
    (on_node outNode
       (fun d => set_outputsDescriptor (QMap.push_back outPort c (outputsDescriptor d)) d) w).
  - by apply frame_on_node.
  - apply (frame_on_node inNode
       (fun d => set_inputsDescriptor (QMap.push_back inPort c (inputsDescriptor d)) d)).
    done.
Qed.

Lemma value_map_entries {V W : Type} (f : V -> W) (m : QMap.t V) (k : positive) :
  QMap.value (List.map (fun kv => (fst kv, f (snd kv))) m) k = option_map f (QMap.value m k).
Proof.
  induction m as [|[k' v] m IH]; simpl; [done|].
  by destruct (Pos.eqb k' k).
Qed.

Lemma frame_unregisterConnection w c : frame w (unregisterConnection w c).
Proof.
  split; simpl; eauto; [|lia].
  intros n d'. unfold lookupNodeUnlocked; simpl. rewrite value_map_entries.
  destruct (QMap.value (m_nodes (registry w)) n) as [d|]; [|done].
  intros [= <-]. eauto.
Qed.

Lemma frame_unregisterNode w n : frame w (unregisterNode w n).
Proof.
  unfold unregisterNode. destruct (is_group _); [frame_steps|].
  destruct (QMap.contains _ _); [apply frame_remove_node | frame_steps].
Qed.

Lemma frame_unregisterGroup w g : frame w (unregisterGroup w g).
Proof.
  unfold unregisterGroup. destruct (QMap.contains _ _); [apply frame_remove_group | frame_steps].
Qed.

Lemma frame_addNodeToGroup w g n : frame w (addNodeToGroup w g n).
Proof.
  unfold addNodeToGroup. destruct (lookupGroupUnlocked w g) eqn:H; [|frame_steps].
  destruct (lookupNodeUnlocked w n); frame_steps.
Qed.

Lemma frame_removeNodeFromGroup w g n : frame w (removeNodeFromGroup w g n).
Proof.
  unfold removeNodeFromGroup. destruct (lookupGroupUnlocked w g) eqn:H; frame_steps.
Qed.

Lemma frame_registerForwardInput w g f a : frame w (registerForwardInput w g f a).
Proof. unfold registerForwardInput. destruct (lookupGroupUnlocked w g) eqn:H; frame_steps. Qed.

Lemma frame_registerForwardOutput w g f a : frame w (registerForwardOutput w g f a).
Proof. unfold registerForwardOutput. destruct (lookupGroupUnlocked w g) eqn:H; frame_steps. Qed.

Lemma frame_registerForwardParameter w g f a : frame w (registerForwardParameter w g f a).
Proof. unfold registerForwardParameter. destruct (lookupGroupUnlocked w g) eqn:H; frame_steps. Qed.

Lemma frame_unregisterForwardPort w g f : frame w (unregisterForwardPort w g f).
Proof. unfold unregisterForwardPort. destruct (lookupGroupUnlocked w g) eqn:H; frame_steps. Qed.

Lemma frame_cascadeActive fuel b w outs w' :
  cascadeActive fuel b w outs = Some w' -> frame w w'.
Proof.
  rewrite cascadeActive_concat. destruct (concatMapM _ _) as [ls|]; [|done].
  intros [= <-]. destruct (setConnectionsActive_frame b ls w) as (H1 & H2 & H3 & H4).
  simpl in *. apply frame_heap; [done | | lia].
  intros g _. unfold nodeAt. by rewrite H3.
Qed.

Lemma frame_activateNode fuel w n w' : activateNode fuel w n = Some w' -> frame w w'.
Proof.
  unfold activateNode. intros H. eapply frame_trans; [|eapply frame_cascadeActive; exact H].
  frame_steps.
Qed.

Lemma frame_deactivateNode fuel w n w' : deactivateNode fuel w n = Some w' -> frame w w'.
Proof.
  unfold deactivateNode. intros H. eapply frame_trans; [|eapply frame_cascadeActive; exact H].
  frame_steps.
Qed.

Lemma frame_newPortLabel w this name o : frame w (fst (newPortLabel w this name o)).
Proof.
  unfold newPortLabel. simpl.
  eapply frame_trans; [apply (frame_alloc w) | apply frame_set_port].
Qed.

Lemma frame_addInput w this name : frame w (fst (addInput w this name)).
Proof.
  unfold addInput. pose proof (frame_newPortLabel w this name Input) as H.
  destruct (newPortLabel w this name Input) as [w1 input]. simpl in *.
  eapply frame_trans; [exact H|].
  eapply frame_trans; [|apply frame_registerInput]. frame_steps.
Qed.

Lemma frame_addOutput w this name : frame w (fst (addOutput w this name)).
Proof.
  unfold addOutput. pose proof (frame_newPortLabel w this name Output) as H.
  destruct (newPortLabel w this name Output) as [w1 output]. simpl in *.
  eapply frame_trans; [exact H|].
  eapply frame_trans; [|apply frame_registerOutput]. frame_steps.
Qed.

Lemma frame_addParamInput w this name : frame w (fst (addParamInput w this name)).
Proof.
  unfold addParamInput. pose proof (frame_newPortLabel w this name Parameter_) as H.
  destruct (newPortLabel w this name Parameter_) as [w1 input]. simpl in *.
  eapply frame_trans; [exact H | apply frame_registerParameter].
Qed.

Lemma frame_addParameter w this widget name : frame w (fst (addParameter w this widget name)).
Proof.
  unfold addParameter. pose proof (frame_addParamInput w this name) as H.
  destruct (addParamInput w this name) as [w1 p]. simpl in *.
  eapply frame_trans; [exact H|]. frame_steps.
Qed.

Lemma frame_disableWidgets fuel item ps w w' :
  disableWidgets fuel item w ps = Some w' -> frame w w'.
Proof.
  revert w. induction ps as [|[pPort proxy] ps IH]; intros w; simpl.
  - intros [= <-]. apply frame_refl.
  - destruct (hasConnection fuel w pPort) as [b|]; [|done].
    intros H. eapply frame_trans; [|apply (IH _ H)]. frame_steps.
Qed.

Lemma nodeMoved_same fuel w n w' : nodeMoved fuel w n = Some w' -> w' = w.
Proof.
  unfold nodeMoved. destruct (is_group _); [|congruence].
  destruct (lookupGroupUnlocked w n); [|congruence].
  repeat (destruct (concatMapM _ _); [|done]). congruence.
Qed.

Lemma frame_refreshOwner fuel w name w' : refreshOwner fuel w name = Some w' -> frame w w'.
Proof.
  unfold refreshOwner, disableWidgetOfConnectedParametersInput.
  destruct (findGroup w name) as [gd|].
  - destruct (disableWidgets _ _ _ _) as [w1|] eqn:H1; [|done].
    intros H. apply nodeMoved_same in H as ->. by eapply frame_disableWidgets.
  - destruct (findNode w name) as [nd|]; [|done].
    destruct (disableWidgets _ _ _ _) as [w1|] eqn:H1; [|done].
    intros H. apply nodeMoved_same in H as ->. by eapply frame_disableWidgets.
Qed.

Lemma frame_createConnectionBetweenPorts fuel w from to w' r :
  createConnectionBetweenPorts fuel w from to = Some (w', r) -> frame w w'.
Proof.
  unfold createConnectionBetweenPorts.
  destruct (PortsAreCompatible fuel w from to) as [[|]|]; [| |done].
  2: { intros [= <- _]. apply frame_refl. }
  destruct (hasConnectionTo fuel w from to) as [[|]|]; [| |done].
  { intros [= <- _]. apply frame_refl. }
  simpl.
  match goal with
  | |- context [refreshOwner fuel ?w3 ?n] =>
      destruct (refreshOwner fuel w3 n) as [w4|] eqn:H4; [|done];
      assert (H3 : frame w w3)
  end.
  { eapply frame_trans; [|apply frame_registerConnection].
    eapply frame_trans; [apply (frame_alloc w) | apply frame_set_conn]. }
  destruct (refreshOwner fuel w4 _) as [w5|] eqn:H5; [|done].
  intros [= <- _].
  eapply frame_trans; [exact H3|].
  eapply frame_trans; eapply frame_refreshOwner; eauto.
Qed.

Lemma frame_createConnection fuel w p1 p2 b w' r :
  createConnection fuel w p1 p2 b = Some (w', r) -> frame w w'.
Proof.
  unfold createConnection.
  destruct (createConnectionBetweenPorts fuel w p1 p2) as [[w1 [c|]]|] eqn:H1; [| |done].
  2: { intros [= <- _]. by eapply frame_createConnectionBetweenPorts. }
  destruct (findNode w1 _) as [nd|]; [|done].
  destruct b.
  - destruct (activateNode fuel w1 _) as [w2|] eqn:H2; [|done]. intros [= <- _].
    eapply frame_trans; [by eapply frame_createConnectionBetweenPorts|].
    by eapply frame_activateNode.
  - destruct (deactivateNode fuel w1 _) as [w2|] eqn:H2; [|done]. intros [= <- _].
    eapply frame_trans; [by eapply frame_createConnectionBetweenPorts|].
    by eapply frame_deactivateNode.
Qed.

Lemma frame_disconnectAllPorts w this : frame w (disconnectAllPorts w this).
Proof. unfold disconnectAllPorts. frame_steps. Qed.

Lemma frame_changeNodeVisibility w this val : frame w (changeNodeVisibility w this val).
Proof.
  unfold changeNodeVisibility.
  eapply frame_trans; [|apply frame_fold; intros; apply frame_set_port]. frame_steps.
Qed.

Lemma frame_setMovable w this val : frame w (setMovable w this val).
Proof. unfold setMovable. frame_steps. Qed.

Lemma frame_ungroup w this : frame w (ungroup w this).
Proof.
  unfold ungroup.
  set (w1 := disconnectAllPorts w this).
  set (w2 := fold_left _ _ w1).
  apply frame_trans with w1; [apply frame_disconnectAllPorts|].
  apply frame_trans with w2; [|apply frame_set_node_same; reflexivity].
  subst w2. apply frame_fold. intros w0 n.
  eapply frame_trans; [|apply frame_fold; intros; apply frame_unregisterForwardPort].
  eapply frame_trans; [apply frame_changeNodeVisibility | apply frame_setMovable].
Qed.

Lemma frame_mirrorInput this w p : frame w (mirrorInput this w p).
Proof.
  unfold mirrorInput. pose proof (frame_addInput w this (forwardName (portAt w p))) as H.
  destruct (addInput w this _) as [w1 g]. simpl in *.
  eapply frame_trans; [exact H|].
  eapply frame_trans; [apply frame_set_port | apply frame_registerForwardInput].
Qed.

Lemma frame_mirrorOutput this w p : frame w (mirrorOutput this w p).
Proof.
  unfold mirrorOutput. pose proof (frame_addOutput w this (forwardName (portAt w p))) as H.
  destruct (addOutput w this _) as [w1 g]. simpl in *.
  eapply frame_trans; [exact H|].
  eapply frame_trans; [apply frame_set_port | apply frame_registerForwardOutput].
Qed.

Lemma frame_mirrorPorts w this : frame w (mirrorPorts w this).
Proof.
  unfold mirrorPorts. apply frame_fold. intros w0 n.
  set (w1 := fold_left (mirrorInput this) _ w0).
  apply frame_trans with w1; [subst w1|]; apply frame_fold; intros;
    [apply frame_mirrorInput | apply frame_mirrorOutput].
Qed.

Lemma frame_addGroupWidget this p name w : frame w (addGroupWidget this p name w).
Proof.
  unfold addGroupWidget.
  pose proof (frame_addParameter w this (mkParamWidget true 0) name) as H.
  destruct (addParameter w this _ name) as [w1 g]. simpl in *.
  eapply frame_trans; [exact H|].
  eapply frame_trans; [apply frame_set_port | apply frame_registerForwardParameter].
Qed.

Lemma frame_mirrorParams w this : frame w (mirrorParams w this).
Proof.
  unfold mirrorParams. apply frame_fold. intros w0 [name [p widget]].
  apply frame_iter. intros. apply frame_addGroupWidget.
Qed.

(** ** The invariant of the runs *)

Lemma wrap64_small z : (- 2 ^ 63 <= z < 2 ^ 63)%Z -> wrap64 z = z.
Proof. intros H. unfold wrap64. rewrite Z.mod_small; lia. Qed.

Lemma contains_groups_typed k w g :
  Inv k w -> is_group (nodeAt w g) = false -> QMap.contains (m_groups (registry w)) g = false.
Proof.
  intros HI Hg. destruct (QMap.contains (m_groups (registry w)) g) eqn:Hc; [|done].
  destruct (inv_groups_typed _ _ HI g Hc) as [Ht _]. congruence.
Qed.

Lemma Inv_frame k w w' : Inv k w -> frame w w' -> Inv k w'.
Proof.
  intros [K T D N R U] [FN FG FX FA]. split.
  - intros n d' H'. destruct (FN n d' H') as (d & H & E).
    injection E as _ E. rewrite <- E. by apply K.
  - intros g Hg. destruct (FG g Hg) as [Hg0 E]. destruct (T g Hg0) as [Ht Ha].
    split; [congruence | lia].
  - intros n Hn. apply QMapFacts.contains_true in Hn as [d' H'].
    destruct (FN n d' H') as (d & H & _).
    destruct (QMap.contains (m_groups (registry w')) n) eqn:Hc; [|done].
    destruct (FG n Hc) as [Hg0 _].
    rewrite D in Hg0; [done|]. apply QMapFacts.contains_true. eauto.
  - intros Hk. rewrite FX. auto.
  - intros Hk n d' H'. destruct (FN n d' H') as (d & H & E).
    injection E as E _. rewrite FX, <- E. eauto.
  - intros Hk a b da' db' Ha' Hb' Hab.
    destruct (FN a da' Ha') as (da & Ha & Ea). destruct (FN b db' Hb') as (db & Hb & Eb).
    injection Ea as Ea _. injection Eb as Eb _. rewrite <- Ea, <- Eb. eauto.
Qed.

Lemma Inv_S k w : Inv k w -> Inv (S k) w.
Proof.
  intros [K T D N R U]. split; auto.
  - intros Hk. assert (Hk' : (Z.of_nat k < INT64_MAX)%Z) by lia.
    specialize (N Hk'). lia.
  - intros Hk. apply R. lia.
  - intros Hk. apply U. lia.
Qed.

Lemma Inv_init : Inv 0 initWorld.
Proof. split; done. Qed.

Lemma Inv_registerNode k w n : Inv k w -> Inv (S k) (fst (registerNode w n)).
Proof.
  intros HI. unfold registerNode.
  destruct (is_group (nodeAt w n)) eqn:Hg; [by apply Inv_S|].
  destruct (QMap.value (m_nodes (registry w)) n) as [d0|] eqn:Hn; [by apply Inv_S|].
  simpl. destruct HI as [K T D N R U].
  set (d := {| nd_uid := m_nextNodeId (registry w); nd_node := n; inputsDescriptor := [];
               outputsDescriptor := []; parametersInputsDescriptor := [] |}).
  assert (L : forall m, lookupNodeUnlocked
                (set_registry
                   {| m_nodes := QMap.insert n d (m_nodes (registry w));
                      m_groups := m_groups (registry w);
                      m_nextNodeId := wrap64 (m_nextNodeId (registry w) + 1);
                      m_nextGroupId := m_nextGroupId (registry w) |} w) m
              = if decide (n = m) then Some d else lookupNodeUnlocked w m).
  { intros m. unfold lookupNodeUnlocked; simpl. destruct (decide (n = m)) as [->|Hne].
    - apply QMapFacts.value_insert_eq.
    - by apply QMapFacts.value_insert_ne. }
  assert (W : (Z.of_nat (S k) < INT64_MAX)%Z ->
              wrap64 (m_nextNodeId (registry w) + 1) = (m_nextNodeId (registry w) + 1)%Z
              /\ (1 <= m_nextNodeId (registry w) <= Z.of_nat k + 1)%Z).
  { intros Hk. assert (Hk' : (Z.of_nat k < INT64_MAX)%Z) by lia.
    specialize (N Hk'). split; [|done]. apply wrap64_small. unfold INT64_MAX in *. lia. }
  split.
  - intros m dm. rewrite L. case_decide as E; [intros [= <-]; by subst | apply K].
  - apply T.
  - intros m Hm. simpl. apply QMapFacts.contains_true in Hm as [dm Hdm].
    change (lookupNodeUnlocked
              (set_registry
                 {| m_nodes := QMap.insert n d (m_nodes (registry w));
                    m_groups := m_groups (registry w);
                    m_nextNodeId := wrap64 (m_nextNodeId (registry w) + 1);
                    m_nextGroupId := m_nextGroupId (registry w) |} w) m = Some dm) in Hdm.
    rewrite L in Hdm. case_decide as E.
    + subst m. destruct (QMap.contains (m_groups (registry w)) n) eqn:Hc; [|done].
      destruct (T n Hc). congruence.
    + apply D. apply QMapFacts.contains_true. eauto.
  - intros Hk. simpl. destruct (W Hk) as [-> ?]. lia.
  - intros Hk m dm. rewrite L. simpl. destruct (W Hk) as [-> ?].
    case_decide as E.
    + intros [= <-]. simpl. lia.
    + intros Hm. assert (Hk' : (Z.of_nat k < INT64_MAX)%Z) by lia.
      specialize (R Hk' m dm Hm). lia.
  - intros Hk a b da db. rewrite !L. assert (Hk' : (Z.of_nat k < INT64_MAX)%Z) by lia.
    case_decide as Ea; case_decide as Eb.
    + congruence.
    + intros [= <-] Hb _. simpl. specialize (R Hk' b db Hb). lia.
    + intros Ha [= <-] _. simpl. specialize (R Hk' a da Ha). lia.
    + by apply U.
Qed.

Lemma Inv_registerGroup k w g :
  Inv k w -> is_group (nodeAt w g) = true -> (g < nextAddr w)%positive ->
  Inv k (fst (registerGroup w g)).
Proof.
  intros HI Hg Ha. unfold registerGroup.
  destruct (QMap.value (m_groups (registry w)) g) as [d0|] eqn:Hn; [done|].
  simpl. destruct HI as [K T D N R U].
  set (w' := set_registry _ w).
  assert (L : forall m d, lookupNodeUnlocked w' m = Some d ->
                          m <> g /\ lookupNodeUnlocked w m = Some d).
  { intros m d. unfold lookupNodeUnlocked; simpl.
    destruct (QMap.contains (m_nodes (registry w)) g) eqn:Hc.
    - destruct (decide (g = m)) as [->|Hne].
      + by rewrite QMapFacts.value_remove_eq.
      + rewrite QMapFacts.value_remove_ne by done. auto.
    - intros Hm. split; [|done]. intros ->.
      apply QMapFacts.contains_false in Hc. congruence. }
  split.
  - intros m d Hm. apply (K m d). by apply L.
  - intros h Hh. simpl in Hh. apply QMapFacts.contains_true in Hh as [x Hx].
    destruct (decide (g = h)) as [<-|Hne]; [done|].
    rewrite QMapFacts.value_insert_ne in Hx by done.
    apply T. apply QMapFacts.contains_true. eauto.
  - intros m Hm. apply QMapFacts.contains_true in Hm as [d Hd].
    destruct (L m d Hd) as [Hne Hm]. simpl.
    apply QMapFacts.contains_false. rewrite QMapFacts.value_insert_ne by done.
    apply QMapFacts.contains_false. apply D. apply QMapFacts.contains_true. eauto.
  - done.
  - intros Hk m d Hm. simpl. apply (R Hk m d). by apply L.
  - intros Hk a b da db Ha' Hb'. apply (U Hk); by apply L.
Qed.

Lemma registerNode_frame_groups w n :
  m_groups (registry (fst (registerNode w n))) = m_groups (registry w)
  /\ nextAddr (fst (registerNode w n)) = nextAddr w
  /\ nodeItems (fst (registerNode w n)) = nodeItems w.
Proof.
  unfold registerNode. destruct (is_group _); [done|].
  by destruct (QMap.value _ _).
Qed.

(** The object at a fresh address is no registered group. *)
Lemma fresh_not_group k w :
  Inv k w -> QMap.contains (m_groups (registry w)) (nextAddr w) = false.
Proof.
  intros HI. destruct (QMap.contains _ _) eqn:Hc; [|done].
  destruct (inv_groups_typed _ _ HI _ Hc) as [_ Hlt]. lia.
Qed.

Lemma newNodeItem_facts k w name displayed :
  Inv k w ->
  let w1 := fst (newNodeItem w name displayed) in
  Inv (S k) w1
  /\ snd (newNodeItem w name displayed) = nextAddr w
  /\ m_groups (registry w1) = m_groups (registry w)
  /\ nextAddr w1 = Pos.succ (nextAddr w).
Proof.
  intros HI. unfold newNodeItem. simpl.
  set (obj := {| m_nodeName := name |}).
  set (w0 := set_node (nextAddr w) obj _).
  assert (H0 : Inv k w0).
  { apply (Inv_frame k w); [done|].
    apply frame_trans with (snd (alloc w)); [apply frame_alloc|].
    apply frame_set_node_unregistered. simpl. by eapply fresh_not_group. }
  destruct (registerNode_frame_groups w0 (nextAddr w)) as (E1 & E2 & _).
  split; [by apply Inv_registerNode|]. split; [done|].
  rewrite E1, E2. done.
Qed.

Lemma Inv_newGroupItem k w nodes w' this :
  Inv k w -> newGroupItem w nodes = Some (w', this) -> Inv (S k) w'.
Proof.
  intros HI. unfold newGroupItem.
  destruct (newNodeItem_facts k w "Group" "Group" HI) as (H1 & Hthis & Hg1 & Ha1).
  destruct (newNodeItem w "Group" "Group") as [w1 this0]. simpl in *. subst this0.
  set (w2 := set_node (nextAddr w) _ w1).
  assert (H2 : Inv (S k) w2).
  { apply (Inv_frame _ w1); [done|]. apply frame_set_node_unregistered.
    rewrite Hg1. by eapply fresh_not_group. }
  assert (H3 : Inv (S k) (fst (registerGroup w2 (nextAddr w)))).
  { apply Inv_registerGroup; [done | | ].
    - subst w2. by rewrite nodeAt_set_node_eq.
    - subst w2. simpl. rewrite Ha1. lia. }
  set (w3 := fst (registerGroup w2 (nextAddr w))) in *.
  set (w4 := fold_left _ nodes w3).
  assert (H4 : Inv (S k) w4).
  { apply (Inv_frame _ w3); [done|]. subst w4. apply frame_fold. intros w0 n.
    eapply frame_trans; [|apply frame_setMovable].
    eapply frame_trans; [|apply frame_changeNodeVisibility].
    destruct (existsb _ _); [apply frame_refl|]. by apply frame_set_node_same. }
  destruct (buildTitle w4 (nextAddr w)) as [title|]; [|done].
  intros [= <- _].
  apply (Inv_frame _ w4); [done|].
  eapply frame_trans; [|apply frame_mirrorParams].
  eapply frame_trans; [|apply frame_mirrorPorts].
  by apply frame_set_node_same.
Qed.

Lemma frame_deleteNodeItem w n :
  QMap.contains (m_groups (registry w)) n = false -> frame w (deleteNodeItem w n).
Proof.
  intros Hn. unfold deleteNodeItem.
  set (w1 := disconnectAllPorts w n).
  set (w2 := set_node n _ w1).
  set (w3 := unregisterNode w2 n).
  assert (F3 : frame w w3).
  { apply frame_trans with w1; [apply frame_disconnectAllPorts|].
    apply frame_trans with w2; [|apply frame_unregisterNode].
    by apply frame_set_node_unregistered. }
  eapply frame_trans; [exact F3|].
  apply frame_heap; simpl; [done | | lia].
  intros g Hg. unfold nodeAt; simpl.
  destruct (decide (n = g)) as [->|Hne]; [|by rewrite lookup_total_delete_ne].
  destruct (frame_groups _ _ F3 g Hg) as [Hg0 _]. congruence.
Qed.

Lemma Inv_deleteItem k w n : Inv k w -> Inv k (deleteItem w n).
Proof.
  intros HI. unfold deleteItem. destruct (is_group (nodeAt w n)) eqn:Hg.
  - unfold deleteGroupItem.
    set (w1 := unregisterGroup w n).
    set (w2 := set_node n _ w1).
    assert (Hc : QMap.contains (m_groups (registry w2)) n = false).
    { subst w2 w1. simpl. unfold unregisterGroup.
      destruct (QMap.contains (m_groups (registry w)) n) eqn:Hc; [|done].
      simpl. apply QMapFacts.contains_false, QMapFacts.value_remove_eq. }
    apply (Inv_frame k w); [done|].
    apply frame_trans with w1; [apply frame_unregisterGroup|].
    apply frame_trans with w2; [by apply frame_set_node_same|].
    by apply frame_deleteNodeItem.
  - apply (Inv_frame k w); [done|]. apply frame_deleteNodeItem.
    by eapply contains_groups_typed.
Qed.

Lemma Inv_exec k w c w' :
  Inv k w -> well_typed w c -> exec c w = Some w' -> Inv (S k) w'.
Proof.
  intros HI Hty Hex.
  assert (HF : frame w w' -> Inv (S k) w') by (intros; by apply Inv_S, (Inv_frame k w)).
  destruct c; simpl in Hex; try (injection Hex as <-).
  - by apply Inv_registerNode.
  - apply HF, frame_unregisterNode.
  - apply HF, frame_registerInput.
  - apply HF, frame_registerOutput.
  - apply HF, frame_registerParameter.
  - apply HF, frame_unregisterInput.
  - apply HF, frame_unregisterOutput.
  - apply HF, frame_unregisterParameter.
  - apply HF, frame_registerConnection.
  - apply HF, frame_unregisterConnection.
  - destruct Hty. apply Inv_S. by apply Inv_registerGroup.
  - apply HF, frame_unregisterGroup.
  - apply HF, frame_addNodeToGroup.
  - apply HF, frame_removeNodeFromGroup.
  - apply HF, frame_registerForwardInput.
  - apply HF, frame_registerForwardOutput.
  - apply HF, frame_registerForwardParameter.
  - apply HF, frame_unregisterForwardPort.
  - by eapply HF, frame_activateNode.
  - by eapply HF, frame_deactivateNode.
  - by apply newNodeItem_facts.
  - by apply HF, frame_set_node_same.
  - apply HF, frame_addInput.
  - apply HF, frame_addOutput.
  - apply HF, frame_addParameter.
  - apply HF, frame_set_port.
  - destruct (createConnection fuel w port1 port2 isActive) as [[w1 r]|] eqn:H; [|done].
    injection Hex as <-. by eapply HF, frame_createConnection.
  - destruct (createConnectionBetweenPorts fuel w fromPort toPort) as [[w1 r]|] eqn:H; [|done].
    injection Hex as <-. by eapply HF, frame_createConnectionBetweenPorts.
  - destruct (newGroupItem w nodes) as [[w1 this]|] eqn:H; [|done].
    injection Hex as <-. by eapply Inv_newGroupItem.
  - apply HF, frame_ungroup.
  - by apply Inv_S, Inv_deleteItem.
Qed.

Lemma reachable_Inv k w : reachable k w -> Inv k w.
Proof.
  induction 1 as [|k w c w' _ IH Hty Hex]; [apply Inv_init | by eapply Inv_exec].
Qed.

Lemma reachable_run_from k w cs w' :
  reachable k w -> typed_run w cs -> run_from w cs = Some w' ->
  reachable (length cs + k) w'.
Proof.
  revert k w. induction cs as [|c cs IH]; intros k w Hr Ht; simpl.
  - by intros [= <-].
  - destruct Ht as [Hty Ht]. unfold run_from. simpl.
    destruct (exec c w) as [w1|] eqn:Hex; [|done].
    intros Hrun. replace (S (length cs + k)) with (length cs + S k) by lia.
    apply (IH (S k) w1); [by eapply reachable_step | done | done].
Qed.

(** ** Registration of nodes *)

(** C3.  In a state reached by a run of the editor (shorter than the range
    of the 64-bit id counter), for a node [n] that is not a group the call
    [registerNode(n)] followed by a second [registerNode(n)] gives the same
    id twice, the second call changes nothing ([allNodes()] has the same
    size); when [n] was not registered, the id is the fresh value of the
    counter, which no registered node holds; and after the call any two
    distinct registered nodes hold distinct ids. *)
Theorem registerNode_idempotent_fresh_and_distinct (k : nat) (w : World) (n : NodePtr) :
  reachable k w ->
  (Z.of_nat (S k) < INT64_MAX)%Z ->
  is_group (nodeAt w n) = false ->
  let w1 := fst (registerNode w n) in
  let id1 := snd (registerNode w n) in
  let w2 := fst (registerNode w1 n) in
  let id2 := snd (registerNode w1 n) in
  id2 = id1
  /\ w2 = w1
  /\ length (allNodes w2) = length (allNodes w1)
  /\ (exists d, lookupNodeUnlocked w1 n = Some d /\ nd_uid d = id1)
  /\ (lookupNodeUnlocked w n = None ->
      id1 = m_nextNodeId (registry w)
      /\ forall m d, lookupNodeUnlocked w m = Some d -> nd_uid d <> id1)
  /\ (forall a b da db,
        lookupNodeUnlocked w1 a = Some da -> lookupNodeUnlocked w1 b = Some db ->
        a <> b -> nd_uid da <> nd_uid db).
Proof.
  intros Hr Hk Hg w1 id1 w2 id2.
  pose proof (reachable_Inv _ _ Hr) as HI.
  pose proof (Inv_registerNode k w n HI) as HI1. fold w1 in HI1.
  assert (Hreg : exists d, lookupNodeUnlocked w1 n = Some d /\ nd_uid d = id1
                 /\ is_group (nodeAt w1 n) = false).
  { subst w1 id1. unfold registerNode. rewrite Hg.
    destruct (QMap.value (m_nodes (registry w)) n) as [d0|] eqn:Hn; simpl.
    - exists d0. auto.
    - eexists. split.
      + unfold lookupNodeUnlocked; simpl. apply QMapFacts.value_insert_eq.
      + split; [reflexivity | done]. }
  destruct Hreg as (d & Hd & Hid & Hg1).
  assert (H2 : registerNode w1 n = (w1, id1)).
  { unfold registerNode at 1. rewrite Hg1.
    unfold lookupNodeUnlocked in Hd. rewrite Hd. by rewrite Hid. }
  subst w2 id2. rewrite H2. simpl.
  repeat split; eauto.
  - subst id1. unfold registerNode. rewrite Hg.
    unfold lookupNodeUnlocked in H. by rewrite H.
  - intros m dm Hm. assert (Hk' : (Z.of_nat k < INT64_MAX)%Z) by lia.
    pose proof (inv_uid_range _ _ HI Hk' m dm Hm) as Hrange.
    subst id1. unfold registerNode. rewrite Hg.
    unfold lookupNodeUnlocked in H. rewrite H. simpl. lia.
  - apply (inv_uid_distinct _ _ HI1 Hk).
Qed.

(** ** Nodes and groups are registered apart *)

(** C10.  In every state reached by a run of the editor no item is a key of
    both the node table and the group table: [registerNode] refuses an item
    that is a group (it returns -1 and changes nothing), and after
    [registerGroup(g)] the item [g] is a key of the group table and not of
    the node table. *)
Theorem node_and_group_tables_disjoint (k : nat) (w : World) :
  reachable k w ->
  (forall x, QMap.contains (m_nodes (registry w)) x = true ->
             QMap.contains (m_groups (registry w)) x = false)
  /\ (forall g, is_group (nodeAt w g) = true -> registerNode w g = (w, (-1)%Z))
  /\ (forall g, let w' := fst (registerGroup w g) in
                QMap.contains (m_groups (registry w')) g = true
                /\ QMap.contains (m_nodes (registry w')) g = false).
Proof.
  intros Hr. pose proof (reachable_Inv _ _ Hr) as HI.
  split; [apply (inv_disjoint _ _ HI)|]. split.
  - intros g Hg. unfold registerNode. by rewrite Hg.
  - intros g. simpl. unfold registerGroup.
    destruct (QMap.value (m_groups (registry w)) g) as [d|] eqn:Hd; simpl.
    + assert (Hc : QMap.contains (m_groups (registry w)) g = true)
        by (apply QMapFacts.contains_true; eauto).
      split; [done|].
      destruct (QMap.contains (m_nodes (registry w)) g) eqn:Hn; [|done].
      pose proof (inv_disjoint _ _ HI g Hn). congruence.
    + split.
      * apply QMapFacts.contains_true. eexists. apply QMapFacts.value_insert_eq.
      * destruct (QMap.contains (m_nodes (registry w)) g) eqn:Hn; [|done].
        apply QMapFacts.contains_false, QMapFacts.value_remove_eq.
Qed.

(** ** Grouping and ungrouping *)

Lemma appendIfExists_In (mp : QMap.t (list PortPtr)) (f c : PortPtr) :
  In c (appendIfExists mp f) -> exists l, In (f, l) mp /\ In c l.
Proof.
  unfold appendIfExists, QMap.contains, QMap.at_.
  destruct (QMap.value mp f) as [l|] eqn:E; [|done]. simpl.
  intros Hc. exists l. split; [by apply QMapFacts.value_In | done].
Qed.

Lemma rankedb_ranked w rank : rankedb w rank = true -> ranked w rank.
Proof.
  intros H f c Hfc. unfold forwards_to, getAllForwardedPortsFromAPort in Hfc.
  apply in_flat_map in Hfc as (gd & Hgd & Hc).
  unfold rankedb in H. rewrite forallb_forall in H. specialize (H gd Hgd).
  rewrite forallb_forall in H.
  assert (Hl : exists l, In (f, l) (forwardInputsDescriptor gd ++ forwardOutputsDescriptor gd
                                    ++ forwardParametersInputsDescriptor gd) /\ In c l).
  { unfold forwardedBy in Hc. rewrite !in_app_iff in Hc.
    destruct Hc as [Hc|[Hc|Hc]]; apply appendIfExists_In in Hc as (l & Hl & Hcl);
      exists l; rewrite !in_app_iff; auto. }
  destruct Hl as (l & Hl & Hcl). specialize (H (f, l) Hl). simpl in H.
  rewrite forallb_forall in H. specialize (H c Hcl). by apply Nat.ltb_lt in H.
Qed.

(** The scene of the example: what lies at which address. *)
Example scene_grouped_layout :
  m_nodeName (nodeAt scene_grouped 1) = "A"
  /\ m_nodeName (nodeAt scene_grouped 2) = "B"
  /\ m_outputs (nodeAt scene_grouped 1) = [3%positive]
  /\ m_inputs (nodeAt scene_grouped 2) = [4%positive]
  /\ connAt scene_grouped 5
     = {| m_inputPort := {| portName := "i"; moduleName := "B"; isInput := true |};
          m_outputPort := {| portName := "o"; moduleName := "A"; isInput := false |};
          conn_isActive := false |}
  /\ is_group (nodeAt scene_grouped 6) = true
  /\ m_nodeName (nodeAt scene_grouped 6) = "A . B"
  /\ group_nodes (nodeAt scene_grouped 6) = [1%positive; 2%positive]
  /\ m_outputs (nodeAt scene_grouped 6) = [7%positive]
  /\ m_inputs (nodeAt scene_grouped 6) = [8%positive]
  /\ m_portName (portAt scene_grouped 7) = "A_o"
  /\ m_portName (portAt scene_grouped 8) = "B_i"
  /\ hasConnectionTo 2 scene_grouped 3 4 = Some true.
Proof. by vm_compute. Qed.

(** The example is a run of the editor. *)
Lemma scene_ungrouped_reachable : reachable 9 scene_ungrouped.
Proof.
  apply (reachable_run_from 0 initWorld ungroup_commands).
  - apply reachable_init.
  - vm_compute. tauto.
  - vm_compute. reflexivity.
Qed.

(** C5, evaluated.  ["A.o"] is connected to ["B.i"], the two nodes are
    grouped and the group is ungrouped.  The connection is still found, but
    the forward ports ["A_o"] and ["B_i"] of the group still forward to
    ["A.o"] and ["B.i"]: [ungroup] hands the ports of the member nodes to
    [unregisterForwardPort], which removes entries by forward port, so it
    removes none.  The entries go only when the group item is destroyed. *)
Theorem ungroup_leaves_forwarding_entries :
  hasConnectionTo 2 scene_ungrouped 3 4 = Some true
  /\ getAllForwardedPortsFromAPort scene_grouped 7 = [3%positive]
  /\ getAllForwardedPortsFromAPort scene_grouped 8 = [4%positive]
  /\ getAllForwardedPortsFromAPort scene_ungrouped 7 = [3%positive]
  /\ getAllForwardedPortsFromAPort scene_ungrouped 8 = [4%positive]
  /\ registry scene_ungrouped = registry scene_grouped
  /\ getAllForwardedPortsFromAPort scene_group_deleted 7 = []
  /\ getAllForwardedPortsFromAPort scene_group_deleted 8 = [].
Proof. by vm_compute. Qed.

(** ** The statements at concrete scenes *)

Lemma no_group_ranked w :
  QMap.values (m_groups (registry w)) = [] -> ranked w (fun _ => 0).
Proof. intros H. apply rankedb_ranked. unfold rankedb. by rewrite H. Qed.

(** C1 at ["A.o"] and ["B.i"]: compatible in both orders when both carry
    the tag 0 alone, not compatible once ["B.i"] carries a second tag. *)
Lemma PortsAreCompatible_symmetric_and_exact_witness :
  (PortsAreCompatible 2 scene_AB 3 4 = Some true
   /\ PortsAreCompatible 2 scene_AB 4 3 = Some true
   /\ m_tags (portAt scene_AB 3) = m_tags (portAt scene_AB 4))
  /\ ((0 <> 1)%N
      /\ m_tags (portAt scene_AB_two_tags 3) = Taggable.singleTag 0
      /\ m_tags (portAt scene_AB_two_tags 4) = Taggable.addTag 1 (Taggable.singleTag 0)
      /\ PortsAreCompatible 2 scene_AB_two_tags 3 4 <> Some true).
Proof.
  split.
  - destruct (PortsAreCompatible_symmetric_and_exact 2 scene_AB 3 4) as (Hs & He & _).
    assert (H : PortsAreCompatible 2 scene_AB 3 4 = Some true) by (vm_compute; reflexivity).
    split; [exact H|]. split; [rewrite <- Hs; exact H | exact (He H)].
  - destruct (PortsAreCompatible_symmetric_and_exact 2 scene_AB_two_tags 3 4) as (_ & _ & Hn).
    assert (H01 : (0 <> 1)%N) by discriminate.
    assert (H3 : m_tags (portAt scene_AB_two_tags 3) = Taggable.singleTag 0)
      by (vm_compute; reflexivity).
    assert (H4 : m_tags (portAt scene_AB_two_tags 4) = Taggable.addTag 1 (Taggable.singleTag 0))
      by (vm_compute; reflexivity).
    split; [exact H01|]. split; [exact H3|]. split; [exact H4|].
    exact (Hn 0%N 1%N H01 H3 H4).
Defined.




Lemma scene_unregistered_reachable : reachable 3 scene_unregistered.
Proof.
  apply (reachable_run_from 0 initWorld
           [NewNodeItem "A" "A"; NewNodeItem "B" "B"; UnregisterNode 2]).
  - apply reachable_init.
  - vm_compute. tauto.
  - vm_compute. reflexivity.
Qed.

(** C3 at ["B"], created, unregistered and registered again: it gets the
    fresh id 3 both times, and ["A"] keeps the id 1. *)
Lemma registerNode_idempotent_fresh_and_distinct_witness :
  (reachable 3 scene_unregistered
   /\ (Z.of_nat 4 < INT64_MAX)%Z
   /\ is_group (nodeAt scene_unregistered 2) = false)
  /\ snd (registerNode (fst (registerNode scene_unregistered 2)) 2)
     = snd (registerNode scene_unregistered 2)
  /\ fst (registerNode (fst (registerNode scene_unregistered 2)) 2)
     = fst (registerNode scene_unregistered 2).
Proof.
  assert (Hk : (Z.of_nat 4 < INT64_MAX)%Z) by (vm_compute; reflexivity).
  assert (Hg : is_group (nodeAt scene_unregistered 2) = false) by (vm_compute; reflexivity).
  split; [split; [exact scene_unregistered_reachable|]; split; [exact Hk | exact Hg]|].
  destruct (registerNode_idempotent_fresh_and_distinct 3 scene_unregistered 2
              scene_unregistered_reachable Hk Hg) as (H1 & H2 & _).
  split; [exact H1 | exact H2].
Defined.

(** C4 (amended) at three calls: two sinks, an owner that is gone, and the
    pair ["A.o"], ["B.i"]. *)
Lemma registerConnection_effect_witness :
  ((isAnyInputPort (portAt scene_AB 4) = true /\ isOutputPort (portAt scene_AB 4) = false)
   /\ registerConnection scene_AB 4 4 9 = scene_AB)
  /\ ((classify scene_group_deleted 7 4 = (4%positive, Some 7%positive)
       /\ ownerByName scene_group_deleted (m_moduleName (portAt scene_group_deleted 7)) = None)
      /\ registerConnection scene_group_deleted 7 4 9 = scene_group_deleted)
  /\ ((classify scene_AB 3 4 = (4%positive, Some 3%positive)
       /\ isAnyInputPort (portAt scene_AB 4) = true
       /\ ownerByName scene_AB (m_moduleName (portAt scene_AB 3)) = Some 1%positive
       /\ ownerByName scene_AB (m_moduleName (portAt scene_AB 4)) = Some 2%positive)
      /\ m_groups (registry (registerConnection scene_AB 3 4 9)) = m_groups (registry scene_AB)).
Proof.
  destruct (registerConnection_effect scene_AB 4 4 9) as (Ha & _ & _).
  destruct (registerConnection_effect scene_group_deleted 7 4 9) as (_ & Hb & _).
  destruct (registerConnection_effect scene_AB 3 4 9) as (_ & _ & Hc).
  assert (A1 : isAnyInputPort (portAt scene_AB 4) = true) by (vm_compute; reflexivity).
  assert (A2 : isOutputPort (portAt scene_AB 4) = false) by (vm_compute; reflexivity).
  assert (B1 : classify scene_group_deleted 7 4 = (4%positive, Some 7%positive))
    by (vm_compute; reflexivity).
  assert (B2 : ownerByName scene_group_deleted
                 (m_moduleName (portAt scene_group_deleted 7)) = None)
    by (vm_compute; reflexivity).
  assert (C1 : classify scene_AB 3 4 = (4%positive, Some 3%positive))
    by (vm_compute; reflexivity).
  assert (C3 : ownerByName scene_AB (m_moduleName (portAt scene_AB 3)) = Some 1%positive)
    by (vm_compute; reflexivity).
  assert (C4 : ownerByName scene_AB (m_moduleName (portAt scene_AB 4)) = Some 2%positive)
    by (vm_compute; reflexivity).
  split; [split; [split; [exact A1 | exact A2] | exact (Ha A1 A2)]|].
  split; [split; [split; [exact B1 | exact B2] | exact (Hb _ _ B1 (or_introl B2))]|].
  split; [split; [exact C1|]; split; [exact A1|]; split; [exact C3 | exact C4]|].
  destruct (Hc _ _ _ _ C1 A1 C3 C4) as (_ & _ & Hg & _). exact Hg.
Defined.

(** C6 at the forward input ["B_i"] of the group: it forwards to ["B.i"],
    which is connected. *)
Lemma hasConnection_forward_port_iff_concrete_connected_witness :
  (ranked scene_grouped (fun p => if Pos.leb 7 p then 1 else 0)
   /\ 1 + 1 < 3
   /\ getAllForwardedPortsFromAPort scene_grouped 8 <> []
   /\ ownConnections scene_grouped 8 = [])
  /\ exists b, hasConnection 3 scene_grouped 8 = Some b
       /\ (b = true <-> exists c, reaches scene_grouped 8 c /\ ownConnections scene_grouped c <> []).
Proof.
  assert (Hr : ranked scene_grouped (fun p => if Pos.leb 7 p then 1 else 0))
    by (apply rankedb_ranked; vm_compute; reflexivity).
  assert (Hf : 1 + 1 < 3) by lia.
  assert (Hn : getAllForwardedPortsFromAPort scene_grouped 8 <> [])
    by (vm_compute; discriminate).
  assert (Ho : ownConnections scene_grouped 8 = []) by (vm_compute; reflexivity).
  split; [split; [exact Hr|]; split; [exact Hf|]; split; [exact Hn | exact Ho]|].
  destruct (hasConnection_forward_port_iff_concrete_connected
              scene_grouped (fun p => if Pos.leb 7 p then 1 else 0) 3 8 Hr Hf Hn)
    as (b & Hb & _ & Hiff).
  exists b. split; [exact Hb | exact (Hiff Ho)].
Defined.

(** The first step of a path through the forwarding tables. *)
Lemma reaches_through w f c l :
  getAllForwardedPortsFromAPort w f = l -> reaches w f c ->
  exists y, In y l /\ (y = c \/ reaches w y c).
Proof.
  intros <- H. apply clos_trans_t1n in H.
  inversion H as [y Hy | y z Hy Hz]; subst.
  - exists c. split; [exact Hy | by left].
  - exists y. split; [exact Hy|]. right. by apply clos_t1n_trans.
Qed.

Lemma scene_nested_reachable : reachable 9 scene_nested.
Proof.
  apply (reachable_run_from 0 initWorld nested_commands).
  - apply reachable_init.
  - vm_compute. tauto.
  - vm_compute. reflexivity.
Qed.

(** C6 as the claim states it fails in [scene_nested], a state that a run
    of nine calls reaches.  The forward output ["A_o"] at 6 forwards to
    ["A.o"] at 3 and to nothing else, and 3 is the only port behind it.
    [hasConnection] answers true for 6, though no descriptor lists a
    connection for the concrete port 3 and [hasConnection] answers false for
    it: the connection 9, made through the outer forward port, is listed
    under 6 itself, in the descriptor of the node ["A"] that the module name
    of 6 resolves to. *)
Lemma hasConnection_true_with_no_connected_concrete_port :
  let w := scene_nested in
  reachable 9 w
  /\ getAllForwardedPortsFromAPort w 6 = [3%positive]
  /\ (forall c, reaches w 6 c -> c = 3%positive)
  /\ getAllForwardedPortsFromAPort w 3 = []
  /\ port_parentItem (portAt w 3) = Some 1%positive
  /\ is_group (nodeAt w 1) = false
  /\ List.map (fun d => connectionsIn d 3) (allNodes w) = [[]; []]
  /\ hasConnection 5 w 3 = Some false
  /\ hasConnection 5 w 6 = Some true
  /\ ownConnections w 6 = [9%positive]
  /\ ~ (hasConnection 5 w 6 = Some true
        <-> exists c d, reaches w 6 c /\ In d (allNodes w) /\ connectionsIn d c <> []).
Proof.
  intros w.
  assert (E6 : getAllForwardedPortsFromAPort w 6 = [3%positive]) by (vm_compute; reflexivity).
  assert (E3 : getAllForwardedPortsFromAPort w 3 = []) by (vm_compute; reflexivity).
  assert (R : forall c, reaches w 6 c -> c = 3%positive).
  { intros c H.
    destruct (reaches_through w 6 c [3%positive] E6 H) as (y & [<-|[]] & [Hy|Hy]); [symmetry; exact Hy|].
    by destruct (reaches_through w 3 c [] E3 Hy) as (z & [] & _). }
  assert (L : List.map (fun d => connectionsIn d 3) (allNodes w) = [[]; []])
    by (vm_compute; reflexivity).
  assert (H6 : hasConnection 5 w 6 = Some true) by (vm_compute; reflexivity).
  split; [exact scene_nested_reachable|]. split; [exact E6|]. split; [exact R|].
  split; [exact E3|]. split; [vm_compute; reflexivity|]. split; [vm_compute; reflexivity|].
  split; [exact L|]. split; [vm_compute; reflexivity|]. split; [exact H6|].
  split; [vm_compute; reflexivity|].
  intros [Hto _]. destruct (Hto H6) as (c & d & Hc & Hd & Hne).
  apply R in Hc as ->. apply Hne.
  pose proof (in_map (fun d => connectionsIn d 3) (allNodes w) d Hd) as Hin.
  cbv beta in Hin. rewrite L in Hin.
  destruct Hin as [H|[H|[]]]; symmetry; exact H.
Qed.

(** C7 at the group of [scene_grouped]: two ports registered as parameters
    and one as an input under the forward input ["B_i"]. *)
Lemma registerForward_appends_and_copies_last_tags_witness :
  lookupGroupUnlocked scene_grouped 6 <> None
  /\ forwardedList ForwardParameter
       (fold_left (fun w kc => registerForward (fst kc) w 6 8 (snd kc))
          [(ForwardParameter, 3%positive); (ForwardInput, 3%positive);
           (ForwardParameter, 4%positive)] scene_grouped) 6 8
     = forwardedList ForwardParameter scene_grouped 6 8 ++ [3%positive; 4%positive].
Proof.
  assert (Hg : lookupGroupUnlocked scene_grouped 6 <> None) by (vm_compute; discriminate).
  split; [exact Hg|].
  exact (proj1 (registerForward_appends_and_copies_last_tags scene_grouped 6 8
                  [(ForwardParameter, 3%positive); (ForwardInput, 3%positive);
                   (ForwardParameter, 4%positive)] Hg) ForwardParameter).
Defined.

(** C8 at the output ["A.o"] handed to [registerInput]. *)
Lemma registerPort_wrong_orientation_is_noop_witness :
  m_orientation (portAt scene_AB 3) <> Input
  /\ registerPort Input scene_AB 1 3 = scene_AB.
Proof.
  assert (Ho : m_orientation (portAt scene_AB 3) <> Input) by (vm_compute; discriminate).
  split; [exact Ho|].
  exact (registerPort_wrong_orientation_is_noop Input scene_AB 1 3 Ho).
Defined.




Lemma scene_bare_group_reachable : reachable 3 scene_bare_group.
Proof.
  apply (reachable_run_from 0 initWorld
           [NewNodeItem "A" "A"; NewNodeItem "B" "B"; NewGroupItem [1%positive; 2%positive]]).
  - apply reachable_init.
  - vm_compute. tauto.
  - vm_compute. reflexivity.
Qed.

(** C10 at a scene with a group: the group item, registered as a node while
    its base constructor ran, is a key of the group table only, and
    [registerNode] refuses it. *)
Lemma node_and_group_tables_disjoint_witness :
  reachable 3 scene_bare_group
  /\ QMap.contains (m_groups (registry scene_bare_group)) 3 = true
  /\ QMap.contains (m_nodes (registry scene_bare_group)) 3 = false
  /\ registerNode scene_bare_group 3 = (scene_bare_group, (-1)%Z).
Proof.
  destruct (node_and_group_tables_disjoint 3 scene_bare_group scene_bare_group_reachable)
    as (Hd & Hn & Hg).
  assert (H3 : is_group (nodeAt scene_bare_group 3) = true) by (vm_compute; reflexivity).
  split; [exact scene_bare_group_reachable|].
  split; [vm_compute; reflexivity|].
  split; [|exact (Hn 3%positive H3)].
  destruct (QMap.contains (m_nodes (registry scene_bare_group)) 3) eqn:E; [|reflexivity].
  specialize (Hd 3%positive E). vm_compute in Hd. discriminate Hd.
Defined.

(** * Further properties of the registry *)

(** ** Ordered maps *)

Module QMapOrder.
Import QMap.
Section Order.
Context {V : Type}.
Implicit Types (m : t V) (k : positive) (v : V).

Lemma lt_value_None m k : Forall (Pos.lt k) (keys m) -> value m k = None.
Proof.
  induction m as [|[k' v'] m IH]; simpl; [done|].
  intros H. apply List.Forall_cons_iff in H as [H1 H2].
  rewrite (proj2 (Pos.eqb_neq k' k)) by lia. auto.
Qed.

Lemma Forall_keys_insert (P : positive -> Prop) m k v :
  P k -> Forall P (keys m) -> Forall P (keys (insert k v m)).
Proof.
  intros Hk. induction m as [|[k' v'] m IH]; simpl; intros H.
  - by constructor.
  - apply List.Forall_cons_iff in H as [H1 H2].
    destruct (Pos.ltb k k'); [|destruct (Pos.eqb k k')]; simpl; repeat constructor; auto.
Qed.

Lemma Forall_keys_remove (P : positive -> Prop) m k :
  Forall P (keys m) -> Forall P (keys (remove k m)).
Proof.
  induction m as [|[k' v'] m IH]; simpl; intros H; [done|].
  apply List.Forall_cons_iff in H as [H1 H2].
  destruct (negb (Pos.eqb k' k)); simpl; [constructor|]; auto.
Qed.

Lemma ascending_insert m k v : ascending (keys m) -> ascending (keys (insert k v m)).
Proof.
  induction m as [|[k' v'] m IH]; simpl.
  - intros _. split; [constructor | done].
  - intros [H1 H2].
    destruct (Pos.ltb k k') eqn:E1; [|destruct (Pos.eqb k k') eqn:E2]; simpl.
    + apply Pos.ltb_lt in E1. split; [|done]. constructor; [done|].
      eapply List.Forall_impl; [|exact H1]. intros x Hx. simpl in Hx. lia.
    + apply Pos.eqb_eq in E2 as ->. done.
    + apply Pos.ltb_ge in E1. apply Pos.eqb_neq in E2.
      split; [|auto]. apply Forall_keys_insert; [lia | done].
Qed.

Lemma ascending_remove m k : ascending (keys m) -> ascending (keys (remove k m)).
Proof.
  induction m as [|[k' v'] m IH]; simpl; [done|].
  intros [H1 H2]. destruct (negb (Pos.eqb k' k)); simpl; [|auto].
  split; [by apply Forall_keys_remove | auto].
Qed.

Lemma Forall_insert (P : positive * V -> Prop) m k v :
  P (k, v) -> Forall P m -> Forall P (insert k v m).
Proof.
  intros Hk. induction m as [|[k' v'] m IH]; simpl; intros H.
  - by constructor.
  - apply List.Forall_cons_iff in H as [H1 H2].
    destruct (Pos.ltb k k'); [|destruct (Pos.eqb k k')]; repeat constructor; auto.
Qed.

Lemma Forall_remove (P : positive * V -> Prop) m k : Forall P m -> Forall P (remove k m).
Proof.
  induction m as [|[k' v'] m IH]; simpl; intros H; [done|].
  apply List.Forall_cons_iff in H as [H1 H2].
  destruct (negb (Pos.eqb k' k)); simpl; [constructor|]; auto.
Qed.

Lemma In_value m k v : ascending (keys m) -> In (k, v) m -> value m k = Some v.
Proof.
  induction m as [|[k' v'] m IH]; simpl; [done|].
  intros [H1 H2] [E|Hin].
  - injection E as -> ->. by rewrite Pos.eqb_refl.
  - destruct (Pos.eqb k' k) eqn:E; [|auto].
    apply Pos.eqb_eq in E as ->. exfalso.
    rewrite List.Forall_forall in H1. specialize (H1 k).
    assert (Hk : In k (keys m)) by (apply (in_map fst _ _ Hin)).
    specialize (H1 Hk). lia.
Qed.

(** Entries above [k] are not touched by a rewrite of the entry of [k]. *)
Lemma map_above m k (f : positive * V -> positive * V) :
  Forall (Pos.lt k) (keys m) ->
  List.map (fun kv => if Pos.eqb (fst kv) k then f kv else kv) m = m.
Proof.
  induction m as [|[k' v'] m IH]; simpl; [done|].
  intros H. apply List.Forall_cons_iff in H as [H1 H2].
  rewrite (proj2 (Pos.eqb_neq k' k)) by lia. by rewrite IH.
Qed.

Lemma lt_trans_keys m k k' :
  (k < k')%positive -> Forall (Pos.lt k') (keys m) -> Forall (Pos.lt k) (keys m).
Proof. intros Hk. apply Forall_impl. intros x Hx. lia. Qed.

(** [m[k] = v] on a key that is there rewrites its entry in place. *)
Lemma insert_existing m k v :
  ascending (keys m) -> contains m k = true ->
  insert k v m = List.map (fun kv => if Pos.eqb (fst kv) k then (k, v) else kv) m.
Proof.
  unfold contains.
  induction m as [|[k' v'] m IH]; simpl; [done|].
  intros [H1 H2]. rewrite (Pos.eqb_sym k' k).
  destruct (Pos.ltb k k') eqn:E1; [|destruct (Pos.eqb k k') eqn:E2].
  - apply Pos.ltb_lt in E1. rewrite (proj2 (Pos.eqb_neq k k')) by lia.
    rewrite (lt_value_None m k); [done|]. by apply (lt_trans_keys m k k').
  - apply Pos.eqb_eq in E2 as ->. intros _. by rewrite map_above.
  - intros H. by rewrite IH.
Qed.

Lemma insert_same m k v : ascending (keys m) -> value m k = Some v -> insert k v m = m.
Proof.
  induction m as [|[k' v'] m IH]; simpl; [done|].
  intros [H1 H2]. rewrite (Pos.eqb_sym k' k).
  destruct (Pos.ltb k k') eqn:E1; [|destruct (Pos.eqb k k') eqn:E2].
  - apply Pos.ltb_lt in E1. rewrite (proj2 (Pos.eqb_neq k k')) by lia.
    rewrite (lt_value_None m k); [done|]. by apply (lt_trans_keys m k k').
  - apply Pos.eqb_eq in E2 as ->. by intros [= ->].
  - intros H. by rewrite IH.
Qed.

Lemma insert_insert m k v v' : insert k v' (insert k v m) = insert k v' m.
Proof.
  induction m as [|[k0 v0] m IH]; simpl.
  - by rewrite Pos.ltb_irrefl, Pos.eqb_refl.
  - destruct (Pos.ltb k k0) eqn:E1; [|destruct (Pos.eqb k k0) eqn:E2]; simpl.
    + by rewrite Pos.ltb_irrefl, Pos.eqb_refl.
    + by rewrite Pos.ltb_irrefl, Pos.eqb_refl.
    + by rewrite E1, E2, IH.
Qed.

Lemma remove_absent m k : value m k = None -> remove k m = m.
Proof.
  induction m as [|[k' v'] m IH]; simpl; [done|].
  destruct (Pos.eqb k' k); [done|]. simpl. intros H. by rewrite (IH H).
Qed.

Lemma remove_insert_absent m k v :
  ascending (keys m) -> value m k = None -> remove k (insert k v m) = m.
Proof.
  induction m as [|[k' v'] m IH]; simpl.
  - intros _ _. unfold remove. simpl. by rewrite Pos.eqb_refl.
  - intros [H1 H2]. rewrite (Pos.eqb_sym k' k).
    destruct (Pos.ltb k k') eqn:E1; [|destruct (Pos.eqb k k') eqn:E2]; [| done |].
    + intros H. unfold remove at 1. simpl. rewrite Pos.eqb_refl. simpl.
      apply (remove_absent ((k', v') :: m)). simpl. rewrite (Pos.eqb_sym k' k).
      by destruct (Pos.eqb k k').
    + intros H. unfold remove. simpl. rewrite (Pos.eqb_sym k' k), E2. simpl.
      f_equal. by apply IH.
Qed.

Lemma keys_NoDup m : ascending (keys m) -> List.NoDup (keys m).
Proof.
  induction m as [|[k' v'] m IH]; simpl; [constructor|].
  intros [H1 H2]. constructor; [|auto].
  intros Hin.
  rewrite List.Forall_forall in H1. specialize (H1 _ Hin). lia.
Qed.

End Order.

(** A rewrite of the values keeps the keys. *)
Lemma keys_map_entries {V W : Type} (f : V -> W) (m : t V) :
  keys (List.map (fun kv => (fst kv, f (snd kv))) m) = keys m.
Proof. unfold keys. rewrite List.map_map. by apply List.map_ext. Qed.

End QMapOrder.

(** ** The tables keep their shape *)

Lemma WF_registry w w' : registry w' = registry w -> WF w -> WF w'.
Proof. intros Hr [A B C D]. split; rewrite Hr; done. Qed.

Lemma WF_init : WF initWorld.
Proof. split; simpl; done. Qed.

Lemma lookup_node_entry_ok w n d :
  WF w -> lookupNodeUnlocked w n = Some d -> node_entry_ok (n, d).
Proof.
  intros HW H. apply QMapFacts.value_In in H.
  pose proof (wf_node_entries _ HW) as HF. rewrite List.Forall_forall in HF. by apply HF.
Qed.

Lemma lookup_group_entry_ok w g d :
  WF w -> lookupGroupUnlocked w g = Some d -> group_entry_ok (g, d).
Proof.
  intros HW H. apply QMapFacts.value_In in H.
  pose proof (wf_group_entries _ HW) as HF. rewrite List.Forall_forall in HF. by apply HF.
Qed.

Lemma steady_refl w : steady w w.
Proof. split; eauto. Qed.

Lemma steady_trans w1 w2 w3 : steady w1 w2 -> steady w2 w3 -> steady w1 w3.
Proof.
  intros [W1 G1 X1] [W2 G2 X2]. split; [auto | | congruence].
  intros g d3 H3. destruct (G2 g d3 H3) as (d2 & H2 & E2).
  destruct (G1 g d2 H2) as (d1 & H1 & E1). exists d1. split; [done | congruence].
Qed.

Lemma steady_fold {X : Type} (f : World -> X -> World) (l : list X) (w : World) :
  (forall w x, steady w (f w x)) -> steady w (fold_left f l w).
Proof.
  intros Hf. revert w. induction l as [|x l IH]; intros w; simpl; [apply steady_refl|].
  eapply steady_trans; [apply Hf | apply IH].
Qed.

Lemma steady_iter (f : World -> World) (k : nat) (w : World) :
  (forall w, steady w (f w)) -> steady w (Nat.iter k f w).
Proof.
  intros Hf. induction k as [|k IH]; simpl; [apply steady_refl|].
  eapply steady_trans; [apply IH | apply Hf].
Qed.

(** A change of the heap alone. *)
Lemma steady_heap w w' : registry w' = registry w -> steady w w'.
Proof.
  intros Hr. split; unfold lookupGroupUnlocked; rewrite ?Hr; eauto.
  by apply WF_registry.
Qed.

Lemma steady_store_node w n d d' :
  lookupNodeUnlocked w n = Some d ->
  (node_entry_ok (n, d) -> node_entry_ok (n, d')) ->
  steady w (store_node n d' w).
Proof.
  intros Hn Hd. split; simpl; eauto.
  intros HW. pose proof (lookup_node_entry_ok _ _ _ HW Hn) as Hok.
  destruct HW as [A B C D]. split; simpl; [|done| |done].
  - by apply QMapOrder.ascending_insert.
  - apply QMapOrder.Forall_insert; auto.
Qed.

Lemma steady_store_group w g gd gd' :
  lookupGroupUnlocked w g = Some gd ->
  gd_uid gd' = gd_uid gd ->
  (group_entry_ok (g, gd) -> group_entry_ok (g, gd')) ->
  steady w (store_group g gd' w).
Proof.
  intros Hg Hu Hd. split; simpl; [| |done].
  - intros HW. pose proof (lookup_group_entry_ok _ _ _ HW Hg) as Hok.
    destruct HW as [A B C D]. split; simpl; [done| |done|].
    + by apply QMapOrder.ascending_insert.
    + apply QMapOrder.Forall_insert; auto.
  - intros h d'. destruct (decide (g = h)) as [<-|Hne].
    + rewrite lookupGroup_store_group_eq. intros [= <-]. eauto.
    + rewrite lookupGroup_store_group_ne by done. eauto.
Qed.

Lemma steady_remove_node w n :
  steady w (set_registry (set_m_nodes (QMap.remove n (m_nodes (registry w))) (registry w)) w).
Proof.
  split; simpl; eauto.
  intros [A B C D]. split; simpl; [|done| |done].
  - by apply QMapOrder.ascending_remove.
  - by apply QMapOrder.Forall_remove.
Qed.

Lemma steady_remove_group w g :
  steady w (set_registry (set_m_groups (QMap.remove g (m_groups (registry w))) (registry w)) w).
Proof.
  split; simpl; [| |done].
  - intros [A B C D]. split; simpl; [done| |done|].
    + by apply QMapOrder.ascending_remove.
    + by apply QMapOrder.Forall_remove.
  - intros h d'. unfold lookupGroupUnlocked; simpl.
    destruct (decide (g = h)) as [->|Hne].
    + by rewrite QMapFacts.value_remove_eq.
    + rewrite QMapFacts.value_remove_ne by done. eauto.
Qed.

Ltac entry_ok :=
  let H := fresh in
  intros H; destruct H as (?&?&?&?); unfold QMap.push_back; simpl in *;
  split; [done|]; split; [|split];
  first [ assumption
        | by apply QMapOrder.ascending_insert
        | by apply QMapOrder.ascending_remove ].

Ltac steady_steps :=
  repeat first
    [ apply steady_refl
    | apply steady_heap; reflexivity
    | eapply steady_store_node; [eassumption | entry_ok]
    | eapply steady_store_group; [eassumption | reflexivity | entry_ok]
    | eapply steady_trans;
        [eapply steady_store_group; [eassumption | reflexivity | entry_ok]
        | apply steady_heap; reflexivity ] ].

Lemma steady_registerNode w n : steady w (fst (registerNode w n)).
Proof.
  unfold registerNode. destruct (is_group _); [apply steady_refl|].
  destruct (QMap.value _ _) eqn:Hn; [apply steady_refl|].
  split; simpl; eauto.
  intros [A B C D]. split; simpl; [|done| |done].
  - by apply QMapOrder.ascending_insert.
  - apply QMapOrder.Forall_insert; [|done]. by repeat split.
Qed.

Lemma steady_unregisterNode w n : steady w (unregisterNode w n).
Proof.
  unfold unregisterNode. destruct (is_group _); [apply steady_refl|].
  destruct (QMap.contains _ _); [apply steady_remove_node | apply steady_refl].
Qed.

Lemma steady_registerInput w n p : steady w (registerInput w n p).
Proof.
  unfold registerInput. destruct (isInputPort _); [|steady_steps].
  destruct (lookupNodeUnlocked w n) eqn:H; steady_steps.
Qed.

Lemma steady_registerOutput w n p : steady w (registerOutput w n p).
Proof.
  unfold registerOutput. destruct (isOutputPort _); [|steady_steps].
  destruct (lookupNodeUnlocked w n) eqn:H; steady_steps.
Qed.

Lemma steady_registerParameter w n p : steady w (registerParameter w n p).
Proof.
  unfold registerParameter. destruct (isParameterPort _); [|steady_steps].
  destruct (lookupNodeUnlocked w n) eqn:H; steady_steps.
Qed.

Lemma steady_unregisterInput w n p : steady w (unregisterInput w n p).
Proof.
  unfold unregisterInput. destruct (isInputPort _); [|steady_steps].
  destruct (lookupNodeUnlocked w n) eqn:H; steady_steps.
Qed.

Lemma steady_unregisterOutput w n p : steady w (unregisterOutput w n p).
Proof.
  unfold unregisterOutput. destruct (isOutputPort _); [|steady_steps].
  destruct (lookupNodeUnlocked w n) eqn:H; steady_steps.
Qed.

Lemma steady_unregisterParameter w n p : steady w (unregisterParameter w n p).
Proof.
  unfold unregisterParameter. destruct (lookupNodeUnlocked w n) eqn:H; steady_steps.
Qed.

Lemma steady_on_node n f w :
  (forall d, node_entry_ok (n, d) -> node_entry_ok (n, f d)) -> steady w (on_node n f w).
Proof.
  intros Hf. unfold on_node. destruct (lookupNodeUnlocked w n) eqn:H; [|apply steady_refl].
  eapply steady_store_node; eauto.
Qed.

Lemma steady_registerConnection w from to c : steady w (registerConnection w from to c).
Proof.
  unfold registerConnection.
  destruct (classify w from to) as [inPort [outPort|]]; [|steady_steps].
  destruct (ownerByName w (m_moduleName (portAt w outPort))) as [outNode|]; [|steady_steps].
  destruct (ownerByName w (m_moduleName (portAt w inPort))) as [inNode|]; [|steady_steps].
  apply steady_trans with
    (on_node outNode
       (fun d => set_outputsDescriptor (QMap.push_back outPort c (outputsDescriptor d)) d) w).
  - apply steady_on_node. intros d. entry_ok.
  - apply (steady_on_node inNode
       (fun d => set_inputsDescriptor (QMap.push_back inPort c (inputsDescriptor d)) d)).
    intros d. entry_ok.
Qed.

Lemma steady_unregisterConnection w c : steady w (unregisterConnection w c).
Proof.
  split; simpl; eauto.
  intros [A B C D]. split; simpl; [|done| |done].
  - by rewrite QMapOrder.keys_map_entries.
  - rewrite List.Forall_forall in C. apply List.Forall_forall.
    intros kv Hkv. apply in_map_iff in Hkv as ([n d] & <- & Hin).
    destruct (C _ Hin) as (E & I & O & P). simpl in *.
    unfold node_entry_ok, withoutConnection, removeAllFrom. simpl.
    by rewrite !QMapOrder.keys_map_entries.
Qed.

Lemma steady_unregisterGroup w g : steady w (unregisterGroup w g).
Proof.
  unfold unregisterGroup. destruct (QMap.contains _ _); [apply steady_remove_group | steady_steps].
Qed.

Lemma steady_addNodeToGroup w g n : steady w (addNodeToGroup w g n).
Proof.
  unfold addNodeToGroup. destruct (lookupGroupUnlocked w g) eqn:H; [|steady_steps].
  destruct (lookupNodeUnlocked w n); steady_steps.
Qed.

Lemma steady_removeNodeFromGroup w g n : steady w (removeNodeFromGroup w g n).
Proof.
  unfold removeNodeFromGroup. destruct (lookupGroupUnlocked w g) eqn:H; steady_steps.
Qed.

Lemma steady_copyTagsFrom w f a : steady w (copyTagsFrom w f a).
Proof. by apply steady_heap. Qed.

Lemma steady_registerForwardInput w g f a : steady w (registerForwardInput w g f a).
Proof.
  unfold registerForwardInput. destruct (lookupGroupUnlocked w g) eqn:H; [|steady_steps].
  eapply steady_trans; [|apply steady_copyTagsFrom]. steady_steps.
Qed.

Lemma steady_registerForwardOutput w g f a : steady w (registerForwardOutput w g f a).
Proof.
  unfold registerForwardOutput. destruct (lookupGroupUnlocked w g) eqn:H; [|steady_steps].
  eapply steady_trans; [|apply steady_copyTagsFrom]. steady_steps.
Qed.

Lemma steady_registerForwardParameter w g f a : steady w (registerForwardParameter w g f a).
Proof.
  unfold registerForwardParameter. destruct (lookupGroupUnlocked w g) eqn:H; [|steady_steps].
  eapply steady_trans; [|apply steady_copyTagsFrom]. steady_steps.
Qed.

Lemma steady_unregisterForwardPort w g f : steady w (unregisterForwardPort w g f).
Proof.
  unfold unregisterForwardPort. destruct (lookupGroupUnlocked w g) eqn:H; steady_steps.
Qed.

Lemma setConnectionsActive_registry b l w : registry (setConnectionsActive b l w) = registry w.
Proof.
  unfold setConnectionsActive. revert w. induction l as [|c l IH]; intros w; simpl; [done|].
  by rewrite IH.
Qed.

Lemma cascadeActive_registry fuel b w outs w' :
  cascadeActive fuel b w outs = Some w' -> registry w' = registry w.
Proof.
  revert w. induction outs as [|p outs IH]; intros w; simpl; [by intros [= <-]|].
  destruct (getConnections fuel w p) as [conns|]; [|done].
  intros H. rewrite (IH _ H). apply setConnectionsActive_registry.
Qed.

Lemma steady_activateNode fuel w n w' : activateNode fuel w n = Some w' -> steady w w'.
Proof.
  unfold activateNode. intros H. apply steady_heap.
  by rewrite (cascadeActive_registry _ _ _ _ _ H).
Qed.

Lemma steady_deactivateNode fuel w n w' : deactivateNode fuel w n = Some w' -> steady w w'.
Proof.
  unfold deactivateNode. intros H. apply steady_heap.
  by rewrite (cascadeActive_registry _ _ _ _ _ H).
Qed.

Lemma steady_newNodeItem w name displayed : steady w (fst (newNodeItem w name displayed)).
Proof.
  unfold newNodeItem. simpl.
  eapply steady_trans; [|apply steady_registerNode]. by apply steady_heap.
Qed.

Lemma steady_addInput w this name : steady w (fst (addInput w this name)).
Proof.
  unfold addInput, newPortLabel. simpl.
  eapply steady_trans; [|apply steady_registerInput]. by apply steady_heap.
Qed.

Lemma steady_addOutput w this name : steady w (fst (addOutput w this name)).
Proof.
  unfold addOutput, newPortLabel. simpl.
  eapply steady_trans; [|apply steady_registerOutput]. by apply steady_heap.
Qed.

Lemma steady_addParamInput w this name : steady w (fst (addParamInput w this name)).
Proof.
  unfold addParamInput, newPortLabel. simpl.
  eapply steady_trans; [|apply steady_registerParameter]. by apply steady_heap.
Qed.

Lemma steady_addParameter w this widget name : steady w (fst (addParameter w this widget name)).
Proof.
  unfold addParameter. pose proof (steady_addParamInput w this name) as H.
  destruct (addParamInput w this name) as [w1 p]. simpl in *.
  eapply steady_trans; [exact H|]. by apply steady_heap.
Qed.

Lemma disableWidgets_registry fuel item ps w w' :
  disableWidgets fuel item w ps = Some w' -> registry w' = registry w.
Proof.
  revert w. induction ps as [|[pPort proxy] ps IH]; intros w; simpl.
  - by intros [= <-].
  - destruct (hasConnection fuel w pPort) as [b|]; [|done].
    intros H. by rewrite (IH _ H).
Qed.

Lemma refreshOwner_registry fuel w name w' :
  refreshOwner fuel w name = Some w' -> registry w' = registry w.
Proof.
  unfold refreshOwner, disableWidgetOfConnectedParametersInput.
  destruct (findGroup w name) as [gd|].
  - destruct (disableWidgets _ _ _ _) as [w1|] eqn:H1; [|done].
    intros H. apply nodeMoved_same in H as ->. by eapply disableWidgets_registry.
  - destruct (findNode w name) as [nd|]; [|done].
    destruct (disableWidgets _ _ _ _) as [w1|] eqn:H1; [|done].
    intros H. apply nodeMoved_same in H as ->. by eapply disableWidgets_registry.
Qed.

Lemma steady_createConnectionBetweenPorts fuel w from to w' r :
  createConnectionBetweenPorts fuel w from to = Some (w', r) -> steady w w'.
Proof.
  unfold createConnectionBetweenPorts.
  destruct (PortsAreCompatible fuel w from to) as [[|]|]; [| |done].
  2: { intros [= <- _]. apply steady_refl. }
  destruct (hasConnectionTo fuel w from to) as [[|]|]; [| |done].
  { intros [= <- _]. apply steady_refl. }
  simpl.
  match goal with
  | |- context [refreshOwner fuel ?w3 ?n] =>
      destruct (refreshOwner fuel w3 n) as [w4|] eqn:H4; [|done];
      assert (H3 : steady w w3)
  end.
  { eapply steady_trans; [|apply steady_registerConnection]. by apply steady_heap. }
  destruct (refreshOwner fuel w4 _) as [w5|] eqn:H5; [|done].
  intros [= <- _].
  eapply steady_trans; [exact H3|].
  apply steady_heap.
  by rewrite (refreshOwner_registry _ _ _ _ H5), (refreshOwner_registry _ _ _ _ H4).
Qed.

Lemma steady_createConnection fuel w p1 p2 b w' r :
  createConnection fuel w p1 p2 b = Some (w', r) -> steady w w'.
Proof.
  unfold createConnection.
  destruct (createConnectionBetweenPorts fuel w p1 p2) as [[w1 [c|]]|] eqn:H1; [| |done].
  2: { intros [= <- _]. by eapply steady_createConnectionBetweenPorts. }
  destruct (findNode w1 _) as [nd|]; [|done].
  destruct b.
  - destruct (activateNode fuel w1 _) as [w2|] eqn:H2; [|done]. intros [= <- _].
    eapply steady_trans; [by eapply steady_createConnectionBetweenPorts|].
    by eapply steady_activateNode.
  - destruct (deactivateNode fuel w1 _) as [w2|] eqn:H2; [|done]. intros [= <- _].
    eapply steady_trans; [by eapply steady_createConnectionBetweenPorts|].
    by eapply steady_deactivateNode.
Qed.

Lemma changeNodeVisibility_registry w this val :
  registry (changeNodeVisibility w this val) = registry w.
Proof.
  unfold changeNodeVisibility.
  set (w1 := set_node this _ w). change (registry w) with (registry w1).
  generalize w1. induction (m_inputs _ ++ _) as [|p l IH]; intros w0; simpl; [done|].
  by rewrite IH.
Qed.

Lemma steady_changeNodeVisibility w this val : steady w (changeNodeVisibility w this val).
Proof. apply steady_heap, changeNodeVisibility_registry. Qed.

Lemma steady_setMovable w this val : steady w (setMovable w this val).
Proof. by apply steady_heap. Qed.

Lemma steady_ungroup w this : steady w (ungroup w this).
Proof.
  unfold ungroup.
  set (w1 := disconnectAllPorts w this).
  set (w2 := fold_left _ _ w1).
  apply steady_trans with w1; [by apply steady_heap|].
  apply steady_trans with w2; [|by apply steady_heap].
  subst w2. apply steady_fold. intros w0 n.
  eapply steady_trans; [|apply steady_fold; intros; apply steady_unregisterForwardPort].
  eapply steady_trans; [apply steady_changeNodeVisibility | apply steady_setMovable].
Qed.

Lemma steady_mirrorInput this w p : steady w (mirrorInput this w p).
Proof.
  unfold mirrorInput. pose proof (steady_addInput w this (forwardName (portAt w p))) as H.
  destruct (addInput w this _) as [w1 g]. simpl in *.
  eapply steady_trans; [exact H|].
  eapply steady_trans; [|apply steady_registerForwardInput]. by apply steady_heap.
Qed.

Lemma steady_mirrorOutput this w p : steady w (mirrorOutput this w p).
Proof.
  unfold mirrorOutput. pose proof (steady_addOutput w this (forwardName (portAt w p))) as H.
  destruct (addOutput w this _) as [w1 g]. simpl in *.
  eapply steady_trans; [exact H|].
  eapply steady_trans; [|apply steady_registerForwardOutput]. by apply steady_heap.
Qed.

Lemma steady_mirrorPorts w this : steady w (mirrorPorts w this).
Proof.
  unfold mirrorPorts. apply steady_fold. intros w0 n.
  set (w1 := fold_left (mirrorInput this) _ w0).
  apply steady_trans with w1; [subst w1|]; apply steady_fold; intros;
    [apply steady_mirrorInput | apply steady_mirrorOutput].
Qed.

Lemma steady_addGroupWidget this p name w : steady w (addGroupWidget this p name w).
Proof.
  unfold addGroupWidget.
  pose proof (steady_addParameter w this (mkParamWidget true 0) name) as H.
  destruct (addParameter w this _ name) as [w1 g]. simpl in *.
  eapply steady_trans; [exact H|].
  eapply steady_trans; [|apply steady_registerForwardParameter]. by apply steady_heap.
Qed.

Lemma steady_mirrorParams w this : steady w (mirrorParams w this).
Proof.
  unfold mirrorParams. apply steady_fold. intros w0 [name [p widget]].
  apply steady_iter. intros. apply steady_addGroupWidget.
Qed.

Lemma steady_deleteNodeItem w n : steady w (deleteNodeItem w n).
Proof.
  unfold deleteNodeItem.
  set (w1 := disconnectAllPorts w n).
  set (w2 := set_node n _ w1).
  set (w3 := unregisterNode w2 n).
  apply steady_trans with w3; [|by apply steady_heap].
  apply steady_trans with w2; [by apply steady_heap | apply steady_unregisterNode].
Qed.

Lemma steady_deleteItem w n : steady w (deleteItem w n).
Proof.
  unfold deleteItem. destruct (is_group (nodeAt w n)); [|apply steady_deleteNodeItem].
  unfold deleteGroupItem.
  set (w1 := unregisterGroup w n).
  set (w2 := set_node n _ w1).
  apply steady_trans with w1; [apply steady_unregisterGroup|].
  apply steady_trans with w2; [by apply steady_heap | apply steady_deleteNodeItem].
Qed.

(** ** The invariant of the runs, on the side of the groups *)

Lemma GInv_steady k w w' : GInv k w -> steady w w' -> GInv k w'.
Proof.
  intros [W N R U] [SW SG SX]. split.
  - auto.
  - intros Hk. rewrite SX. auto.
  - intros Hk g d' H'. destruct (SG g d' H') as (d & H & E). rewrite SX, E. eauto.
  - intros Hk a b da' db' Ha' Hb' Hab.
    destruct (SG a da' Ha') as (da & Ha & Ea). destruct (SG b db' Hb') as (db & Hb & Eb).
    rewrite Ea, Eb. eauto.
Qed.

Lemma GInv_S k w : GInv k w -> GInv (S k) w.
Proof.
  intros [W N R U]. split; auto.
  - intros Hk. assert (Hk' : (Z.of_nat k < INT64_MAX)%Z) by lia.
    specialize (N Hk'). lia.
  - intros Hk. apply R. lia.
  - intros Hk. apply U. lia.
Qed.

Lemma GInv_init : GInv 0 initWorld.
Proof. split; [apply WF_init | done..]. Qed.

Lemma lookupGroup_registerGroup w g h :
  lookupGroupUnlocked w g = None ->
  lookupGroupUnlocked (fst (registerGroup w g)) h =
  if decide (g = h)
  then Some {| gd_uid := m_nextGroupId (registry w); gd_group := g; memberNodes := [];
               forwardInputsDescriptor := []; forwardOutputsDescriptor := [];
               forwardParametersInputsDescriptor := [] |}
  else lookupGroupUnlocked w h.
Proof.
  intros Hg. unfold registerGroup. unfold lookupGroupUnlocked in Hg. rewrite Hg.
  unfold lookupGroupUnlocked; simpl. destruct (decide (g = h)) as [->|Hne].
  - apply QMapFacts.value_insert_eq.
  - by apply QMapFacts.value_insert_ne.
Qed.

Lemma WF_registerGroup w g : WF w -> WF (fst (registerGroup w g)).
Proof.
  intros [A B C D]. unfold registerGroup.
  destruct (QMap.value (m_groups (registry w)) g) as [d0|] eqn:Hn; [done|].
  split; simpl.
  - destruct (QMap.contains _ _); [by apply QMapOrder.ascending_remove | done].
  - by apply QMapOrder.ascending_insert.
  - destruct (QMap.contains _ _); [by apply QMapOrder.Forall_remove | done].
  - apply QMapOrder.Forall_insert; [|done]. by repeat split.
Qed.

Lemma GInv_registerGroup k w g : GInv k w -> GInv (S k) (fst (registerGroup w g)).
Proof.
  intros HI.
  destruct (lookupGroupUnlocked w g) as [d0|] eqn:Hg.
  { unfold registerGroup. unfold lookupGroupUnlocked in Hg. rewrite Hg. by apply GInv_S. }
  pose proof (lookupGroup_registerGroup w g) as L.
  destruct HI as [W N R U].
  assert (X : m_nextGroupId (registry (fst (registerGroup w g)))
              = wrap64 (m_nextGroupId (registry w) + 1)).
  { unfold registerGroup. unfold lookupGroupUnlocked in Hg. by rewrite Hg. }
  assert (Wr : (Z.of_nat (S k) < INT64_MAX)%Z ->
              wrap64 (m_nextGroupId (registry w) + 1) = (m_nextGroupId (registry w) + 1)%Z
              /\ (1 <= m_nextGroupId (registry w) <= Z.of_nat k + 1)%Z).
  { intros Hk. assert (Hk' : (Z.of_nat k < INT64_MAX)%Z) by lia.
    specialize (N Hk'). split; [|done]. apply wrap64_small. unfold INT64_MAX in *. lia. }
  split.
  - by apply WF_registerGroup.
  - intros Hk. rewrite X. destruct (Wr Hk) as [-> ?]. lia.
  - intros Hk h d. rewrite L by done. rewrite X. destruct (Wr Hk) as [-> ?].
    destruct (decide (g = h)) as [E|E].
    + intros [= <-]. simpl. lia.
    + intros Hh. assert (Hk' : (Z.of_nat k < INT64_MAX)%Z) by lia.
      specialize (R Hk' h d Hh). lia.
  - intros Hk a b da db. rewrite !L by done.
    assert (Hk' : (Z.of_nat k < INT64_MAX)%Z) by lia.
    destruct (decide (g = a)) as [Ea|Ea]; destruct (decide (g = b)) as [Eb|Eb].
    + congruence.
    + intros [= <-] Hb _. simpl. specialize (R Hk' b db Hb). lia.
    + intros Ha [= <-] _. simpl. specialize (R Hk' a da Ha). lia.
    + by apply U.
Qed.

Lemma GInv_newGroupItem k w nodes w' this :
  GInv k w -> newGroupItem w nodes = Some (w', this) -> GInv (S k) w'.
Proof.
  intros HI. unfold newGroupItem.
  pose proof (steady_newNodeItem w "Group" "Group") as H1.
  destruct (newNodeItem w "Group" "Group") as [w1 this0]. simpl in *.
  set (w2 := set_node this0 _ w1).
  assert (H3 : GInv (S k) (fst (registerGroup w2 this0))).
  { apply GInv_registerGroup. apply (GInv_steady k w); [done|].
    eapply steady_trans; [exact H1|]. by apply steady_heap. }
  set (w3 := fst (registerGroup w2 this0)) in *.
  set (w4 := fold_left _ nodes w3).
  assert (H4 : steady w3 w4).
  { subst w4. apply steady_fold. intros w0 n.
    eapply steady_trans; [|apply steady_setMovable].
    eapply steady_trans; [|apply steady_changeNodeVisibility].
    destruct (existsb _ _); [apply steady_refl|]. by apply steady_heap. }
  destruct (buildTitle w4 this0) as [title|]; [|done].
  intros [= <- _].
  apply (GInv_steady _ w3); [done|].
  eapply steady_trans; [exact H4|].
  eapply steady_trans; [|apply steady_mirrorParams].
  eapply steady_trans; [|apply steady_mirrorPorts].
  by apply steady_heap.
Qed.

Lemma GInv_exec k w c w' : GInv k w -> exec c w = Some w' -> GInv (S k) w'.
Proof.
  intros HI Hex.
  assert (HF : steady w w' -> GInv (S k) w') by (intros; by apply GInv_S, (GInv_steady k w)).
  destruct c; simpl in Hex; try (injection Hex as <-).
  - apply HF, steady_registerNode.
  - apply HF, steady_unregisterNode.
  - apply HF, steady_registerInput.
  - apply HF, steady_registerOutput.
  - apply HF, steady_registerParameter.
  - apply HF, steady_unregisterInput.
  - apply HF, steady_unregisterOutput.
  - apply HF, steady_unregisterParameter.
  - apply HF, steady_registerConnection.
  - apply HF, steady_unregisterConnection.
  - by apply GInv_registerGroup.
  - apply HF, steady_unregisterGroup.
  - apply HF, steady_addNodeToGroup.
  - apply HF, steady_removeNodeFromGroup.
  - apply HF, steady_registerForwardInput.
  - apply HF, steady_registerForwardOutput.
  - apply HF, steady_registerForwardParameter.
  - apply HF, steady_unregisterForwardPort.
  - by eapply HF, steady_activateNode.
  - by eapply HF, steady_deactivateNode.
  - apply HF, steady_newNodeItem.
  - by apply HF, steady_heap.
  - apply HF, steady_addInput.
  - apply HF, steady_addOutput.
  - apply HF, steady_addParameter.
  - by apply HF, steady_heap.
  - destruct (createConnection fuel w port1 port2 isActive) as [[w1 r]|] eqn:H; [|done].
    injection Hex as <-. by eapply HF, steady_createConnection.
  - destruct (createConnectionBetweenPorts fuel w fromPort toPort) as [[w1 r]|] eqn:H; [|done].
    injection Hex as <-. by eapply HF, steady_createConnectionBetweenPorts.
  - destruct (newGroupItem w nodes) as [[w1 this]|] eqn:H; [|done].
    injection Hex as <-. by eapply GInv_newGroupItem.
  - apply HF, steady_ungroup.
  - apply HF, steady_deleteItem.
Qed.

Lemma reachable_GInv k w : reachable k w -> GInv k w.
Proof.
  induction 1 as [|k w c w' _ IH Hty Hex]; [apply GInv_init | by eapply GInv_exec].
Qed.

Lemma reachable_WF k w : reachable k w -> WF w.
Proof. intros H. apply (ginv_wf k), reachable_GInv, H. Qed.

(** ** hasConnectionTo does not depend on the order of the two ports *)

Lemma hasConnectionTo_sym fuel w a b :
  hasConnectionTo fuel w a b = hasConnectionTo fuel w b a.
Proof.
  unfold hasConnectionTo, isAnyInputPort, isOutputPort.
  destruct (m_orientation (portAt w a)), (m_orientation (portAt w b));
    repeat case_bool_decide; simpl; congruence.
Qed.

(** X1.  [hasConnectionTo(a, b)] and [hasConnectionTo(b, a)] give the same
    answer, whatever the two ports are: the sink of the pair is looked up
    for a connection to the output of the pair, and a pair of two sinks or
    of two outputs is answered [false]. *)
Theorem hasConnectionTo_symmetric (fuel : nat) (w : World) (a b : PortPtr) :
  hasConnectionTo fuel w a b = hasConnectionTo fuel w b a
  /\ (isAnyInputPort (portAt w a) = isAnyInputPort (portAt w b) ->
      hasConnectionTo fuel w a b = Some false).
Proof.
  split; [apply hasConnectionTo_sym|].
  unfold hasConnectionTo, isAnyInputPort, isOutputPort.
  destruct (m_orientation (portAt w a)), (m_orientation (portAt w b));
    repeat case_bool_decide; simpl; try congruence; try done; intros; congruence.
Qed.

Lemma hasConnectionTo_symmetric_witness :
  isAnyInputPort (portAt scene_ABC 3) = isAnyInputPort (portAt scene_ABC 7)
  /\ hasConnectionTo 2 scene_ABC 3 7 = Some false
  /\ hasConnectionTo 2 scene_ABC 3 4 = hasConnectionTo 2 scene_ABC 4 3.
Proof.
  assert (H : isAnyInputPort (portAt scene_ABC 3) = isAnyInputPort (portAt scene_ABC 7))
    by (vm_compute; reflexivity).
  split; [exact H|].
  split; [exact (proj2 (hasConnectionTo_symmetric 2 scene_ABC 3 7) H)|].
  exact (proj1 (hasConnectionTo_symmetric 2 scene_ABC 3 4)).
Defined.

(** ** unregisterConnection *)

Lemma find_map {X Y : Type} (P : Y -> bool) (h : X -> Y) (l : list X) :
  List.find P (List.map h l) = option_map h (List.find (fun x => P (h x)) l).
Proof. induction l as [|x l IH]; simpl; [done|]. by destruct (P (h x)). Qed.

Lemma concatMapM_filter {A B : Type} (q : B -> bool) (f : A -> option (list B)) (l : list A) :
  concatMapM (fun x => option_map (List.filter q) (f x)) l
  = option_map (List.filter q) (concatMapM f l).
Proof.
  induction l as [|x l IH]; simpl; [done|].
  destruct (f x) as [r|]; simpl; [|done]. rewrite IH.
  destruct (concatMapM f l) as [rs|]; simpl; [|done]. by rewrite List.filter_app.
Qed.

Lemma value_removeAllFrom c mp p :
  QMap.value (removeAllFrom c mp) p = option_map (without c) (QMap.value mp p).
Proof. apply (value_map_entries (without c)). Qed.

Lemma connectionsIn_withoutConnection c nd p :
  connectionsIn (withoutConnection c nd) p = without c (connectionsIn nd p).
Proof.
  unfold connectionsIn, withoutConnection, QMap.contains, QMap.at_, without; simpl.
  rewrite !value_removeAllFrom, !List.filter_app.
  destruct (QMap.value (inputsDescriptor nd) p), (QMap.value (outputsDescriptor nd) p),
    (QMap.value (parametersInputsDescriptor nd) p); done.
Qed.

Lemma lookupNode_unregisterConnection w c n :
  lookupNodeUnlocked (unregisterConnection w c) n
  = option_map (withoutConnection c) (lookupNodeUnlocked w n).
Proof. apply (value_map_entries (withoutConnection c)). Qed.

Lemma findNode_unregisterConnection w c name :
  findNode (unregisterConnection w c) name = option_map (withoutConnection c) (findNode w name).
Proof.
  unfold findNode, unregisterConnection, QMap.values; simpl.
  rewrite List.map_map. simpl.
  rewrite <- (List.map_map snd (withoutConnection c)). apply find_map.
Qed.

Lemma getConnections_unregisterConnection fuel w c p :
  getConnections fuel (unregisterConnection w c) p
  = option_map (without c) (getConnections fuel w p).
Proof.
  revert p. induction fuel as [|fuel IH]; intros p; [done|].
  rewrite !getConnections_S, findNode_unregisterConnection.
  change (portAt (unregisterConnection w c) p) with (portAt w p).
  destruct (findNode w (m_moduleName (portAt w p))) as [owner|]; simpl.
  - rewrite lookupNode_unregisterConnection.
    destruct (lookupNodeUnlocked w (nd_node owner)) as [nd|]; simpl; [|done].
    by rewrite connectionsIn_withoutConnection.
  - change (getAllForwardedPortsFromAPort (unregisterConnection w c) p)
      with (getAllForwardedPortsFromAPort w p).
    unfold without. rewrite <- concatMapM_filter. by apply concatMapM_ext.
Qed.

Lemma without_not_In c l : ~ In c (without c l).
Proof.
  unfold without. intros H. apply List.filter_In in H as [_ H].
  by rewrite Pos.eqb_refl in H.
Qed.

Lemma without_In c x l : x <> c -> In x l -> In x (without c l).
Proof.
  intros Hx Hin. apply List.filter_In. split; [done|].
  by rewrite (proj2 (Pos.eqb_neq x c)).
Qed.

Lemma without_absent c l : ~ In c l -> without c l = l.
Proof.
  unfold without. induction l as [|x l IH]; simpl; [done|].
  intros H. destruct (Pos.eqb x c) eqn:E; simpl.
  - apply Pos.eqb_eq in E. tauto.
  - rewrite IH; [done | tauto].
Qed.

(** X2.  After [unregisterConnection(c)] the connections of any port, as
    [getConnections] reports them, are the ones it reported before without
    [c], in the same order: [c] is gone from every list, also from the
    lists reached through forwarding, and no other connection is dropped.
    The call registers and unregisters no node, and a second call changes
    nothing more. *)
Theorem unregisterConnection_removes_exactly_c (fuel : nat) (w : World) (c : ConnPtr)
    (p : PortPtr) :
  let w' := unregisterConnection w c in
  getConnections fuel w' p = option_map (without c) (getConnections fuel w p)
  /\ (forall l, getConnections fuel w' p = Some l -> ~ In c l)
  /\ (forall l x, getConnections fuel w p = Some l -> In x l -> x <> c ->
        exists l', getConnections fuel w' p = Some l' /\ In x l')
  /\ List.map fst (m_nodes (registry w')) = List.map fst (m_nodes (registry w))
  /\ unregisterConnection w' c = w'.
Proof.
  intros w'. subst w'. split; [apply getConnections_unregisterConnection|].
  split; [|split; [|split]].
  - intros l. rewrite getConnections_unregisterConnection.
    destruct (getConnections fuel w p) as [l0|]; simpl; [|done].
    intros [= <-]. apply without_not_In.
  - intros l x Hl Hx Hne. rewrite getConnections_unregisterConnection, Hl. simpl.
    eexists. split; [done|]. by apply without_In.
  - unfold unregisterConnection; simpl. rewrite List.map_map. by apply List.map_ext.
  - unfold unregisterConnection; simpl. unfold set_registry, set_m_nodes; simpl.
    f_equal. f_equal. rewrite List.map_map. apply List.map_ext. intros [n d]; simpl.
    f_equal. unfold withoutConnection, removeAllFrom; simpl. f_equal;
      rewrite List.map_map; apply List.map_ext; intros [q l]; simpl; f_equal;
      apply without_absent, without_not_In.
Qed.

Lemma unregisterConnection_removes_exactly_c_witness :
  let w := registerConnection scene_ABC 3 7 9 in
  (getConnections 1 w 3 = Some [5%positive; 9%positive]
   /\ In 5%positive [5%positive; 9%positive] /\ 5%positive <> 9%positive)
  /\ (exists l', getConnections 1 (unregisterConnection w 9) 3 = Some l' /\ In 5%positive l')
  /\ getConnections 1 (unregisterConnection w 9) 3 = Some [5%positive]
  /\ ~ In 9%positive [5%positive].
Proof.
  intros w.
  destruct (unregisterConnection_removes_exactly_c 1 w 9 3) as (_ & H2 & H3 & _).
  assert (A : getConnections 1 w 3 = Some [5%positive; 9%positive]) by (vm_compute; reflexivity).
  assert (B : In 5%positive [5%positive; 9%positive]) by (left; reflexivity).
  assert (C : 5%positive <> 9%positive) by discriminate.
  assert (D : getConnections 1 (unregisterConnection w 9) 3 = Some [5%positive])
    by (vm_compute; reflexivity).
  split; [split; [exact A|]; split; [exact B | exact C]|].
  split; [exact (H3 _ _ A B C)|].
  split; [exact D | exact (H2 _ D)].
Defined.

(** ** Descriptors rewritten in place *)

Lemma value_map_entries_key {V W : Type} (g : positive -> V -> W) (m : QMap.t V) (k : positive) :
  QMap.value (List.map (fun kv => (fst kv, g (fst kv) (snd kv))) m) k
  = option_map (g k) (QMap.value m k).
Proof.
  induction m as [|[k' v] m IH]; simpl; [done|].
  destruct (Pos.eqb k' k) eqn:E; [|done]. by apply Pos.eqb_eq in E as ->.
Qed.

Lemma findNode_findEntry w name : findNode w name = option_map snd (findEntry w name).
Proof. unfold findNode, findEntry, QMap.values. apply find_map. Qed.

Lemma findEntry_In w name kv : findEntry w name = Some kv -> In kv (m_nodes (registry w)).
Proof. unfold findEntry. intros H. by apply List.find_some in H as [H _]. Qed.

Lemma In_entry_lookup w n d :
  WF w -> In (n, d) (m_nodes (registry w)) -> nd_node d = n /\ lookupNodeUnlocked w n = Some d.
Proof.
  intros [A B C D] Hin. rewrite List.Forall_forall in C.
  destruct (C _ Hin) as (E & _). split; [done|]. by apply QMapOrder.In_value.
Qed.

Lemma findNode_lookup w name d :
  WF w -> findNode w name = Some d ->
  findEntry w name = Some (nd_node d, d) /\ lookupNodeUnlocked w (nd_node d) = Some d.
Proof.
  intros HW. rewrite findNode_findEntry.
  destruct (findEntry w name) as [[n d0]|] eqn:E; simpl; [|done]. intros [= ->].
  destruct (In_entry_lookup w n d HW (findEntry_In _ _ _ E)) as [-> H]. done.
Qed.

Lemma findEntry_rewritten g w w' name :
  rewritten g w w' -> (forall n d, nd_node (g n d) = nd_node d) ->
  findEntry w' name
  = option_map (fun kv => (fst kv, g (fst kv) (snd kv))) (findEntry w name).
Proof.
  intros (Hm & _ & _ & Hn) Hg. unfold findEntry. rewrite Hm, find_map.
  f_equal. apply find_pointwise. intros kv. simpl. by rewrite Hg, Hn.
Qed.

Lemma lookupNode_rewritten g w w' n :
  rewritten g w w' -> lookupNodeUnlocked w' n = option_map (g n) (lookupNodeUnlocked w n).
Proof. intros (Hm & _). unfold lookupNodeUnlocked. rewrite Hm. apply value_map_entries_key. Qed.

Lemma rewritten_forwarded g w w' p :
  rewritten g w w' -> getAllForwardedPortsFromAPort w' p = getAllForwardedPortsFromAPort w p.
Proof. intros (_ & Hg & _). unfold getAllForwardedPortsFromAPort. by rewrite Hg. Qed.

Lemma rewritten_portAt g w w' p : rewritten g w w' -> portAt w' p = portAt w p.
Proof. intros (_ & _ & Hp & _). unfold portAt. by rewrite Hp. Qed.

Lemma rewritten_trans g1 g2 w w1 w2 :
  rewritten g1 w w1 -> rewritten g2 w1 w2 -> rewritten (fun n d => g2 n (g1 n d)) w w2.
Proof.
  intros (M1 & G1 & P1 & N1) (M2 & G2 & P2 & N2). split; [|split; [|split]].
  - rewrite M2, M1, List.map_map. done.
  - congruence.
  - congruence.
  - intros n. by rewrite N2, N1.
Qed.

(** Writing one descriptor through [on_node] rewrites its entry in place. *)
Lemma on_node_rewritten n f w :
  WF w -> rewritten (fun k d => if Pos.eqb k n then f d else d) w (on_node n f w).
Proof.
  intros HW. destruct (on_node_frame n f w) as (G & _ & _ & N & P & _).
  split; [|split; [done|split; [done|]]].
  2: { intros m. unfold nodeAt. by rewrite N. }
  unfold on_node. destruct (lookupNodeUnlocked w n) as [d|] eqn:Hn; simpl.
  - rewrite QMapOrder.insert_existing.
    + apply List.map_ext_in. intros [k d0] Hin. simpl.
      destruct (Pos.eqb k n) eqn:E; [|done]. apply Pos.eqb_eq in E as ->.
      destruct (In_entry_lookup w n d0 HW Hin) as [_ H]. congruence.
    + apply (wf_nodes _ HW).
    + apply QMapFacts.contains_true. eauto.
  - rewrite <- (List.map_id (m_nodes (registry w))) at 1.
    apply List.map_ext_in. intros [k d0] Hin. simpl.
    destruct (Pos.eqb k n) eqn:E; [|done]. apply Pos.eqb_eq in E as ->.
    destruct (In_entry_lookup w n d0 HW Hin) as [_ H]. congruence.
Qed.

(** What the queries make of a rewrite that changes the lists of the
    descriptors only by elements that [q] filters out. *)
Lemma getConnections_rewritten (q : ConnPtr -> bool) g w w' :
  rewritten g w w' ->
  (forall n d, nd_node (g n d) = nd_node d) ->
  (forall n d p, List.filter q (connectionsIn (g n d) p) = List.filter q (connectionsIn d p)) ->
  forall fuel p,
    option_map (List.filter q) (getConnections fuel w' p)
    = option_map (List.filter q) (getConnections fuel w p).
Proof.
  intros Hr Hg Hq fuel. induction fuel as [|fuel IH]; intros p; [done|].
  rewrite !getConnections_S, (rewritten_portAt _ _ _ _ Hr), (rewritten_forwarded _ _ _ _ Hr).
  rewrite !findNode_findEntry, (findEntry_rewritten _ _ _ _ Hr Hg).
  destruct (findEntry w (m_moduleName (portAt w p))) as [[k d]|]; simpl.
  - rewrite Hg, (lookupNode_rewritten _ _ _ _ Hr).
    destruct (lookupNodeUnlocked w (nd_node d)) as [nd|]; simpl; [|done].
    by rewrite Hq.
  - rewrite <- !concatMapM_filter. by apply concatMapM_ext.
Qed.

(** ** registerConnection undone by unregisterConnection *)

Lemma rewritten_refl w : rewritten (fun _ d => d) w w.
Proof.
  split; [|done]. rewrite <- (List.map_id (m_nodes (registry w))) at 1.
  apply List.map_ext. by intros [k d].
Qed.

Lemma connectionsIn_at nd p :
  connectionsIn nd p
  = QMap.at_ (inputsDescriptor nd) p ++ QMap.at_ (outputsDescriptor nd) p
    ++ QMap.at_ (parametersInputsDescriptor nd) p.
Proof.
  unfold connectionsIn, QMap.contains, QMap.at_.
  destruct (QMap.value (inputsDescriptor nd) p), (QMap.value (outputsDescriptor nd) p),
    (QMap.value (parametersInputsDescriptor nd) p); done.
Qed.

Lemma without_push_back c k p (m : QMap.t (list ConnPtr)) :
  without c (QMap.at_ (QMap.push_back k c m) p) = without c (QMap.at_ m p).
Proof.
  destruct (decide (k = p)) as [->|Hne].
  - rewrite at_push_back_eq. unfold without. rewrite List.filter_app. simpl.
    rewrite Pos.eqb_refl. simpl. apply app_nil_r.
  - by rewrite at_push_back_ne.
Qed.

Lemma registerConnection_rewritten w from to c :
  WF w ->
  exists g, rewritten g w (registerConnection w from to c)
    /\ (forall n d, nd_node (g n d) = nd_node d)
    /\ (forall n d p, without c (connectionsIn (g n d) p) = without c (connectionsIn d p)).
Proof.
  intros HW.
  assert (Hid : exists g, rewritten g w w
    /\ (forall n d, nd_node (g n d) = nd_node d)
    /\ (forall n d p, without c (connectionsIn (g n d) p) = without c (connectionsIn d p))).
  { exists (fun _ d => d). split; [apply rewritten_refl | done]. }
  destruct (classify w from to) as [inPort [outPort|]] eqn:Hc.
  2: { unfold registerConnection. by rewrite Hc. }
  destruct (ownerByName w (m_moduleName (portAt w outPort))) as [outNode|] eqn:Ho.
  2: { unfold registerConnection. by rewrite Hc, Ho. }
  destruct (ownerByName w (m_moduleName (portAt w inPort))) as [inNode|] eqn:Hi.
  2: { unfold registerConnection. by rewrite Hc, Ho, Hi. }
  rewrite (registerConnection_resolved _ _ _ _ _ _ _ _ Hc Ho Hi).
  set (fout := fun d => set_outputsDescriptor (QMap.push_back outPort c (outputsDescriptor d)) d).
  set (fin := fun d => set_inputsDescriptor (QMap.push_back inPort c (inputsDescriptor d)) d).
  assert (HW1 : WF (on_node outNode fout w)).
  { apply (steady_wf w); [|done]. apply steady_on_node. intros d. subst fout. entry_ok. }
  eexists. split; [|split].
  - eapply rewritten_trans; [by apply on_node_rewritten | by apply on_node_rewritten].
  - intros n d. simpl. by destruct (Pos.eqb n inNode), (Pos.eqb n outNode).
  - intros n d p. simpl.
    assert (Hout : forall d0, without c (connectionsIn (fout d0) p) = without c (connectionsIn d0 p)).
    { intros d0. rewrite !connectionsIn_at. unfold without. rewrite !List.filter_app. simpl.
      f_equal. f_equal. apply without_push_back. }
    assert (Hin : forall d0, without c (connectionsIn (fin d0) p) = without c (connectionsIn d0 p)).
    { intros d0. rewrite !connectionsIn_at. unfold without. rewrite !List.filter_app. simpl.
      f_equal. apply without_push_back. }
    destruct (Pos.eqb n inNode), (Pos.eqb n outNode); rewrite ?Hin, ?Hout; done.
Qed.

Lemma getConnections_unlisted fuel w c p l :
  unlisted w c -> getConnections fuel w p = Some l -> ~ In c l.
Proof.
  intros Hu. revert p l. induction fuel as [|fuel IH]; intros p l; [done|].
  rewrite getConnections_S.
  destruct (findNode w (m_moduleName (portAt w p))) as [owner|].
  - destruct (lookupNodeUnlocked w (nd_node owner)) as [nd|] eqn:Hn.
    + intros [= <-]. by eapply Hu.
    + intros [= <-] [].
  - intros Hl Hin. apply (concatMapM_In _ _ _ c Hl) in Hin as (x & a & _ & Hx & Ha).
    by apply (IH x a).
Qed.

(** X3.  A connection [c] that no descriptor lists is registered by
    [registerConnection(from, to, c)] and unregistered again by
    [unregisterConnection(c)]: afterwards every port has the connections
    [getConnections] reported before the two calls.  (The descriptors may
    keep a key with an empty list for a port that had no list before.) *)
Theorem registerConnection_then_unregisterConnection (fuel : nat) (w : World)
    (from to : PortPtr) (c : ConnPtr) (p : PortPtr) :
  WF w ->
  unlisted w c ->
  getConnections fuel (unregisterConnection (registerConnection w from to c) c) p
  = getConnections fuel w p.
Proof.
  intros HW Hu. rewrite getConnections_unregisterConnection.
  destruct (registerConnection_rewritten w from to c HW) as (g & Hr & Hg & Hq).
  pose proof (getConnections_rewritten (fun x => negb (Pos.eqb x c)) g _ _ Hr Hg Hq fuel p) as H.
  unfold without. rewrite H.
  destruct (getConnections fuel w p) as [l|] eqn:Hl; simpl; [|done].
  f_equal. apply (without_absent c). by eapply getConnections_unlisted.
Qed.

(** ** Registering and unregistering a node *)

(** X4.  A node that is not registered (and is not a group) is registered by
    [registerNode] and removed again by [unregisterNode]: the node table,
    the group table and the heap are as before the two calls; only the id
    counter has moved on, so the id handed out in between is not handed out
    again. *)
Theorem registerNode_then_unregisterNode (w : World) (n : NodePtr) :
  WF w ->
  is_group (nodeAt w n) = false ->
  getNode w n = None ->
  let w1 := fst (registerNode w n) in
  let w2 := unregisterNode w1 n in
  (exists d, getNode w1 n = Some d /\ nd_uid d = snd (registerNode w n))
  /\ getNode w2 n = None
  /\ m_nodes (registry w2) = m_nodes (registry w)
  /\ m_groups (registry w2) = m_groups (registry w)
  /\ m_nextGroupId (registry w2) = m_nextGroupId (registry w)
  /\ m_nextNodeId (registry w2) = wrap64 (snd (registerNode w n) + 1)
  /\ nodeItems w2 = nodeItems w /\ portLabels w2 = portLabels w
  /\ connectionItems w2 = connectionItems w /\ nextAddr w2 = nextAddr w.
Proof.
  intros HW Hg Hn w1 w2. subst w1 w2. unfold getNode, lookupNodeUnlocked in *.
  unfold registerNode. rewrite Hg, Hn. simpl.
  unfold unregisterNode. simpl. unfold nodeAt in *. simpl. rewrite Hg.
  assert (Hc : QMap.contains
                 (QMap.insert n
                    {| nd_uid := m_nextNodeId (registry w); nd_node := n;
                       inputsDescriptor := []; outputsDescriptor := [];
                       parametersInputsDescriptor := [] |} (m_nodes (registry w))) n = true).
  { apply QMapFacts.contains_true. eexists. apply QMapFacts.value_insert_eq. }
  rewrite Hc. simpl.
  split; [eexists; split; [apply QMapFacts.value_insert_eq | done]|].
  split; [apply QMapFacts.value_remove_eq|].
  split; [|done].
  apply QMapOrder.remove_insert_absent; [apply (wf_nodes _ HW) | done].
Qed.

(** X5.  In a state reached by a run of the editor (shorter than the range
    of the 64-bit id counter), a registered node that is unregistered and
    registered again does not get its former id back: [unregisterNode(n)]
    removes the descriptor of [n] and of no other node, and the following
    [registerNode(n)] returns the value of the counter, which is larger than
    every id handed out so far. *)
Theorem unregisterNode_then_registerNode_new_id (k : nat) (w : World) (n : NodePtr)
    (d : NodeDescriptor) :
  reachable k w ->
  (Z.of_nat k < INT64_MAX)%Z ->
  is_group (nodeAt w n) = false ->
  getNode w n = Some d ->
  let w1 := unregisterNode w n in
  let id := snd (registerNode w1 n) in
  getNode w1 n = None
  /\ (forall m, m <> n -> getNode w1 m = getNode w m)
  /\ id = m_nextNodeId (registry w)
  /\ (nd_uid d < id)%Z
  /\ (forall m dm, getNode w m = Some dm -> (nd_uid dm < id)%Z).
Proof.
  intros Hr Hk Hg Hn w1 id. subst w1 id.
  pose proof (reachable_Inv _ _ Hr) as HI.
  unfold getNode, lookupNodeUnlocked in *.
  assert (Hc : QMap.contains (m_nodes (registry w)) n = true)
    by (apply QMapFacts.contains_true; eauto).
  unfold unregisterNode. rewrite Hg, Hc.
  unfold registerNode. simpl. unfold nodeAt in *. simpl. rewrite Hg.
  rewrite QMapFacts.value_remove_eq. simpl.
  split; [done|]. split; [intros m Hm; by apply QMapFacts.value_remove_ne|].
  split; [done|].
  split; [apply (inv_uid_range _ _ HI Hk n d Hn)|].
  intros m dm Hm. apply (inv_uid_range _ _ HI Hk m dm Hm).
Qed.

(** ** Registering and unregistering a port *)

Lemma store_node_same w n d :
  WF w -> lookupNodeUnlocked w n = Some d -> store_node n d w = w.
Proof.
  intros HW Hn. unfold store_node. rewrite QMapOrder.insert_same; [|apply (wf_nodes _ HW)|done].
  destruct w as [ns ps cs [mn mg xn xg] a]. done.
Qed.

Lemma store_node_twice w n d d' :
  store_node n d' (store_node n d w) = store_node n d' w.
Proof. unfold store_node. simpl. by rewrite QMapOrder.insert_insert. Qed.

(** X6.  A port that is not a key of the table of its kind is registered by
    [registerInput] ([registerOutput], [registerParameter]) and removed
    again by the matching unregister call: the state after the two calls is
    the state before them.  This also covers the calls that do nothing: a
    port of another orientation, a node that is not registered. *)
Theorem registerPort_then_unregisterPort (o : Orientation) (w : World) (n : NodePtr)
    (p : PortPtr) :
  WF w ->
  (forall d, lookupNodeUnlocked w n = Some d -> QMap.contains (portTable o d) p = false) ->
  unregisterPort o (registerPort o w n p) n p = w.
Proof.
  intros HW Hp.
  destruct (lookupNodeUnlocked w n) as [d|] eqn:Hn.
  2: { destruct o; simpl;
         unfold registerInput, registerOutput, registerParameter,
           unregisterInput, unregisterOutput, unregisterParameter; rewrite ?Hn;
         repeat (match goal with |- context [if ?b then _ else _] => destruct b end);
         rewrite ?Hn; done. }
  specialize (Hp d eq_refl). apply QMapFacts.contains_false in Hp.
  destruct (lookup_node_entry_ok _ _ _ HW Hn) as (_ & Ai & Ao & Ap). simpl in *.
  destruct o; simpl in *.
  - unfold registerInput, unregisterInput.
    destruct (isInputPort (portAt w p)) eqn:Ho; [|by rewrite Ho].
    rewrite Hn. change (portAt (store_node n _ w) p) with (portAt w p). rewrite Ho.
    rewrite lookupNode_store_node_eq, store_node_twice. simpl.
    rewrite QMapOrder.remove_insert_absent by done.
    rewrite <- (store_node_same w n d HW Hn) at 2. by destruct d.
  - unfold registerParameter, unregisterParameter.
    destruct (isParameterPort (portAt w p)) eqn:Ho.
    + rewrite Hn, lookupNode_store_node_eq, store_node_twice. simpl.
      rewrite QMapOrder.remove_insert_absent by done.
      rewrite <- (store_node_same w n d HW Hn) at 2. by destruct d.
    + rewrite Hn, QMapOrder.remove_absent by done.
      rewrite <- (store_node_same w n d HW Hn) at 2. by destruct d.
  - unfold registerOutput, unregisterOutput.
    destruct (isOutputPort (portAt w p)) eqn:Ho; [|by rewrite Ho].
    rewrite Hn. change (portAt (store_node n _ w) p) with (portAt w p). rewrite Ho.
    rewrite lookupNode_store_node_eq, store_node_twice. simpl.
    rewrite QMapOrder.remove_insert_absent by done.
    rewrite <- (store_node_same w n d HW Hn) at 2. by destruct d.
Qed.

Lemma registerPort_on_node o w n p :
  m_orientation (portAt w p) = o ->
  registerPort o w n p
  = on_node n (fun d => setPortTable o (QMap.insert p [] (portTable o d)) d) w.
Proof.
  intros <-. unfold on_node.
  destruct (m_orientation (portAt w p)) eqn:E; simpl;
    unfold registerInput, registerOutput, registerParameter,
      isInputPort, isOutputPort, isParameterPort; rewrite E; done.
Qed.

Lemma connectionsIn_registered o d p :
  (forall o', o' <> o -> QMap.contains (portTable o' d) p = false) ->
  connectionsIn (setPortTable o (QMap.insert p [] (portTable o d)) d) p = [].
Proof.
  intros H. rewrite connectionsIn_at. unfold QMap.at_.
  assert (N : forall o', o' <> o -> QMap.value (portTable o' d) p = None)
    by (intros o' Ho; by apply QMapFacts.contains_false, H).
  destruct o; simpl; rewrite QMapFacts.value_insert_eq; simpl.
  - pose proof (N Output ltac:(done)) as H1. pose proof (N Parameter_ ltac:(done)) as H2.
    simpl in *. by rewrite H1, H2.
  - pose proof (N Output ltac:(done)) as H1. pose proof (N Input ltac:(done)) as H2.
    simpl in *. by rewrite H1, H2.
  - pose proof (N Input ltac:(done)) as H1. pose proof (N Parameter_ ltac:(done)) as H2.
    simpl in *. by rewrite H1, H2.
Qed.

Lemma connectionsIn_registered_other o d p q m :
  (forall k, k <> p -> QMap.value m k = QMap.value (portTable o d) k) ->
  q <> p ->
  connectionsIn (setPortTable o m d) q = connectionsIn d q.
Proof.
  intros Hm Hq. rewrite !connectionsIn_at. unfold QMap.at_.
  destruct o; simpl in *; by rewrite Hm.
Qed.

(** The connections of a port of a node, after a write to the descriptor
    of [n] that leaves the lists of that port alone. *)
Lemma getConnections_on_node_other n f w q fuel :
  WF w ->
  (forall d, nd_node (f d) = nd_node d) ->
  (forall d, connectionsIn (f d) q = connectionsIn d q) ->
  findNode w (m_moduleName (portAt w q)) <> None ->
  getConnections (S fuel) (on_node n f w) q = getConnections (S fuel) w q.
Proof.
  intros HW Hf Hq Hfind.
  pose proof (on_node_rewritten n f w HW) as Hr.
  assert (Hg : forall k d, nd_node ((fun k d => if Pos.eqb k n then f d else d) k d) = nd_node d).
  { intros k d. simpl. by destruct (Pos.eqb k n). }
  rewrite !getConnections_S, (rewritten_portAt _ _ _ _ Hr).
  rewrite findNode_findEntry in Hfind.
  rewrite !findNode_findEntry, (findEntry_rewritten _ _ _ _ Hr Hg).
  destruct (findEntry w (m_moduleName (portAt w q))) as [[k d]|]; simpl in *; [|done].
  rewrite Hg, (lookupNode_rewritten _ _ _ _ Hr).
  destruct (lookupNodeUnlocked w (nd_node d)) as [nd|]; simpl; [|done].
  destruct (Pos.eqb (nd_node d) n); by rewrite ?Hq.
Qed.

(** X7.  Registering a port again forgets its connections.  When [p] is a
    port of orientation [o] whose module name resolves to the registered
    node [n], the matching register call replaces the list of [p] by the
    empty list: afterwards [getConnections(p)] is empty, whatever was
    connected to [p] before, while every other port of a node has the
    connections it had, among them the far ends of the forgotten ones. *)
Theorem registerPort_again_forgets_connections (o : Orientation) (w : World) (n : NodePtr)
    (p : PortPtr) (d : NodeDescriptor) (fuel : nat) :
  WF w ->
  m_orientation (portAt w p) = o ->
  findNode w (m_moduleName (portAt w p)) = Some d ->
  nd_node d = n ->
  (forall o', o' <> o -> QMap.contains (portTable o' d) p = false) ->
  let w' := registerPort o w n p in
  getConnections (S fuel) w' p = Some []
  /\ (forall q, q <> p -> findNode w (m_moduleName (portAt w q)) <> None ->
        getConnections (S fuel) w' q = getConnections (S fuel) w q).
Proof.
  intros HW Ho Hfind Hn Hother w'. subst w'.
  rewrite (registerPort_on_node o w n p Ho).
  set (f := fun d => setPortTable o (QMap.insert p [] (portTable o d)) d).
  assert (Hf : forall d, nd_node (f d) = nd_node d) by (intros d0; subst f; by destruct o).
  split.
  - pose proof (on_node_rewritten n f w HW) as Hr.
    assert (Hg : forall k d, nd_node ((fun k d => if Pos.eqb k n then f d else d) k d)
                             = nd_node d).
    { intros k d0. simpl. by destruct (Pos.eqb k n). }
    destruct (findNode_lookup w _ d HW Hfind) as [He Hl].
    rewrite getConnections_S, (rewritten_portAt _ _ _ _ Hr).
    rewrite findNode_findEntry, (findEntry_rewritten _ _ _ _ Hr Hg), He. simpl.
    rewrite Hg, (lookupNode_rewritten _ _ _ _ Hr), Hl, Hn, Pos.eqb_refl. simpl.
    f_equal. subst f. by apply connectionsIn_registered.
  - intros q Hq Hfq. apply getConnections_on_node_other; try done.
    intros d0. subst f. apply (connectionsIn_registered_other o d0 p q); [|done].
    intros k Hk. by apply QMapFacts.value_insert_ne.
Qed.

(** ** resolvePort *)

Lemma find_None_iff {X : Type} (P : X -> bool) (l : list X) :
  List.find P l = None <-> forall x, In x l -> P x = false.
Proof.
  split; [apply List.find_none|].
  induction l as [|x l IH]; simpl; [done|]. intros H.
  rewrite (H x) by auto. apply IH. auto.
Qed.

Lemma named_eqb w nodeName portName p :
  String.eqb (m_portName (portAt w p)) portName
  && String.eqb (m_moduleName (portAt w p)) nodeName = true
  <-> named w nodeName portName p.
Proof. unfold named. by rewrite andb_true_iff, !String.eqb_eq. Qed.

Lemma resolvePort_sound w nodeName portName p :
  resolvePort w nodeName portName = Some p ->
  named w nodeName portName p
  /\ exists nd, In nd (allNodes w) /\ m_nodeName (nodeAt w (nd_node nd)) = nodeName
       /\ In p (portKeys nd).
Proof.
  unfold resolvePort, allNodes.
  induction (QMap.values (m_nodes (registry w))) as [|nd rest IH]; [done|]. simpl.
  destruct (String.eqb (m_nodeName (nodeAt w (nd_node nd))) nodeName) eqn:En; simpl.
  2: { intros H. destruct (IH H) as (Hn & nd' & Hin & Hr). split; [done|]. exists nd'. auto. }
  apply String.eqb_eq in En.
  assert (F : In p (portKeys nd) ->
              String.eqb (m_portName (portAt w p)) portName
              && String.eqb (m_moduleName (portAt w p)) nodeName = true ->
              named w nodeName portName p
              /\ exists nd', (nd = nd' \/ In nd' rest)
                   /\ m_nodeName (nodeAt w (nd_node nd')) = nodeName /\ In p (portKeys nd')).
  { intros Hk Hp. split; [by apply named_eqb|]. exists nd. auto. }
  destruct (List.find _ (QMap.keys (inputsDescriptor nd))) as [p0|] eqn:E1.
  { intros [= <-]. apply List.find_some in E1 as [Hk Hp].
    apply F; [|done]. unfold portKeys. rewrite !in_app_iff. auto. }
  destruct (List.find _ (QMap.keys (outputsDescriptor nd))) as [p0|] eqn:E2.
  { intros [= <-]. apply List.find_some in E2 as [Hk Hp].
    apply F; [|done]. unfold portKeys. rewrite !in_app_iff. auto. }
  destruct (List.find _ (QMap.keys (parametersInputsDescriptor nd))) as [p0|] eqn:E3.
  { intros [= <-]. apply List.find_some in E3 as [Hk Hp].
    apply F; [|done]. unfold portKeys. rewrite !in_app_iff. auto. }
  intros H. destruct (IH H) as (Hn & nd' & Hin & Hr). split; [done|]. exists nd'. auto.
Qed.

Lemma resolvePort_None w nodeName portName :
  resolvePort w nodeName portName = None <->
  forall nd p, In nd (allNodes w) -> m_nodeName (nodeAt w (nd_node nd)) = nodeName ->
    In p (portKeys nd) -> ~ named w nodeName portName p.
Proof.
  unfold resolvePort, allNodes.
  induction (QMap.values (m_nodes (registry w))) as [|nd rest IH]; [done|]. simpl.
  destruct (String.eqb (m_nodeName (nodeAt w (nd_node nd))) nodeName) eqn:En; simpl.
  2: { rewrite IH. apply String.eqb_neq in En. split.
       - intros H nd' p [<-|Hin]; [done | by apply H].
       - intros H nd' p Hin. apply H. auto. }
  apply String.eqb_eq in En.
  destruct (List.find _ (QMap.keys (inputsDescriptor nd))) as [p0|] eqn:E1.
  { split; [done|]. intros H. apply List.find_some in E1 as [Hk Hp].
    apply named_eqb in Hp. exfalso. apply (H nd p0); auto.
    unfold portKeys. rewrite !in_app_iff. auto. }
  destruct (List.find _ (QMap.keys (outputsDescriptor nd))) as [p0|] eqn:E2.
  { split; [done|]. intros H. apply List.find_some in E2 as [Hk Hp].
    apply named_eqb in Hp. exfalso. apply (H nd p0); auto.
    unfold portKeys. rewrite !in_app_iff. auto. }
  destruct (List.find _ (QMap.keys (parametersInputsDescriptor nd))) as [p0|] eqn:E3.
  { split; [done|]. intros H. apply List.find_some in E3 as [Hk Hp].
    apply named_eqb in Hp. exfalso. apply (H nd p0); auto.
    unfold portKeys. rewrite !in_app_iff. auto. }
  rewrite IH. split.
  - intros H nd' p [<-|Hin]; [|by apply H].
    intros _ Hp Hn. apply named_eqb in Hn.
    unfold portKeys in Hp. rewrite !in_app_iff in Hp.
    rewrite find_None_iff in E1, E2, E3.
    destruct Hp as [Hp|[Hp|Hp]]; [apply E1 in Hp | apply E2 in Hp | apply E3 in Hp];
      congruence.
  - intros H nd' p Hin. apply H. auto.
Qed.

(** X8.  [resolvePort(nodeName, portName)] finds exactly the registered
    ports: a port it returns is called [portName], belongs to the module
    [nodeName] and is a key of a table of a registered node of that name;
    it returns null precisely when no registered node of that name holds
    such a port. *)
Theorem resolvePort_finds_exactly_registered_ports (w : World) (nodeName portName : string) :
  (forall p, resolvePort w nodeName portName = Some p ->
     named w nodeName portName p
     /\ exists nd, In nd (allNodes w) /\ m_nodeName (nodeAt w (nd_node nd)) = nodeName
          /\ In p (portKeys nd))
  /\ (resolvePort w nodeName portName = None <->
      forall nd p, In nd (allNodes w) -> m_nodeName (nodeAt w (nd_node nd)) = nodeName ->
        In p (portKeys nd) -> ~ named w nodeName portName p).
Proof. split; [apply resolvePort_sound | apply resolvePort_None]. Qed.

Lemma In_portKeys_table o nd p : In p (QMap.keys (portTable o nd)) -> In p (portKeys nd).
Proof. unfold portKeys. rewrite !in_app_iff. destruct o; simpl; auto. Qed.

(** X9.  A port registered with the call of its orientation on a registered
    node that carries the port's module name is found by [resolvePort]
    under its two names; the port returned is one with these names, the
    first in the order of the scan. *)
Theorem registerPort_then_resolvePort (o : Orientation) (w : World) (n : NodePtr)
    (p : PortPtr) (d : NodeDescriptor) :
  WF w ->
  m_orientation (portAt w p) = o ->
  lookupNodeUnlocked w n = Some d ->
  m_nodeName (nodeAt w n) = m_moduleName (portAt w p) ->
  let w' := registerPort o w n p in
  exists q, resolvePort w' (m_moduleName (portAt w p)) (m_portName (portAt w p)) = Some q
    /\ named w (m_moduleName (portAt w p)) (m_portName (portAt w p)) q.
Proof.
  intros HW Ho Hn Hname w'. subst w'.
  rewrite (registerPort_on_node o w n p Ho).
  set (f := fun d => setPortTable o (QMap.insert p [] (portTable o d)) d).
  set (w' := on_node n f w).
  destruct (lookup_node_entry_ok _ _ _ HW Hn) as (Hk & _). simpl in Hk.
  assert (Hl : lookupNodeUnlocked w' n = Some (f d)).
  { subst w'. rewrite lookupNode_on_node, decide_True by done. by rewrite Hn. }
  destruct (on_node_frame n f w) as (_ & _ & _ & HN & HP & _). fold w' in HN, HP.
  destruct (resolvePort w' (m_moduleName (portAt w p)) (m_portName (portAt w p)))
    as [q|] eqn:E.
  - exists q. split; [done|]. apply resolvePort_sound in E as [E _].
    unfold named, portAt in *. by rewrite HP in E.
  - exfalso. rewrite resolvePort_None in E. apply (E (f d) p).
    + unfold allNodes, QMap.values. apply QMapFacts.value_In in Hl.
      apply (in_map snd _ _ Hl).
    + unfold nodeAt. rewrite HN. fold (nodeAt w (nd_node (f d))).
      replace (nd_node (f d)) with n; [done|]. subst f. by destruct o.
    + apply (In_portKeys_table o). apply QMapFacts.In_keys_value.
      exists []. subst f. destruct o; simpl; apply QMapFacts.value_insert_eq.
    + unfold named, portAt. by rewrite HP.
Qed.

(** ** The forwarding tables *)

Lemma In_allGroups_lookup w gd :
  WF w -> (In gd (allGroups w) <-> exists g, lookupGroupUnlocked w g = Some gd).
Proof.
  intros HW. unfold allGroups, QMap.values. rewrite in_map_iff. split.
  - intros ([g gd'] & <- & Hin). exists g. apply QMapOrder.In_value; [apply (wf_groups _ HW)|done].
  - intros [g Hg]. exists (g, gd). split; [done|]. by apply QMapFacts.value_In.
Qed.

Lemma In_allGroups_entry_ok w gd :
  WF w -> In gd (allGroups w) -> group_entry_ok (gd_group gd, gd).
Proof.
  intros HW Hin. apply (In_allGroups_lookup w gd HW) in Hin as [g Hg].
  pose proof (lookup_group_entry_ok _ _ _ HW Hg) as Hok.
  destruct Hok as (E & ?). simpl in E. by rewrite E.
Qed.

Lemma In_appendIfExists (mp : QMap.t (list PortPtr)) (f a : PortPtr) :
  ascending (QMap.keys mp) ->
  (In a (appendIfExists mp f) <-> exists l, In (f, l) mp /\ In a l).
Proof.
  intros Hm. split; [apply appendIfExists_In|].
  intros (l & Hl & Ha). apply (QMapOrder.In_value _ _ _ Hm) in Hl.
  unfold appendIfExists, QMap.contains, QMap.at_. by rewrite Hl.
Qed.

Lemma In_forwardedBy gd f a :
  group_entry_ok (gd_group gd, gd) ->
  (In a (forwardedBy gd f) <-> exists l, In (f, l) (forwardEntries gd) /\ In a l).
Proof.
  intros (_ & Ai & Ao & Ap). simpl in *. unfold forwardedBy, forwardEntries.
  rewrite !in_app_iff, !In_appendIfExists by done. split.
  - intros [(l & H & Ha)|[(l & H & Ha)|(l & H & Ha)]]; exists l; rewrite !in_app_iff; auto.
  - intros (l & H & Ha). rewrite !in_app_iff in H. destruct H as [H|[H|H]]; eauto.
Qed.

Lemma In_forwardedTo w f a :
  In f (getAllPortsForwardedToAPort w a)
  <-> exists gd, In gd (allGroups w) /\ exists l, In (f, l) (forwardEntries gd) /\ In a l.
Proof.
  unfold getAllPortsForwardedToAPort, allGroups. rewrite in_flat_map.
  assert (C : forall mp : QMap.t (list PortPtr),
            In f (List.map fst (List.filter (fun kv => existsb (Pos.eqb a) (snd kv)) mp))
            <-> exists l, In (f, l) mp /\ In a l).
  { intros mp. rewrite in_map_iff. split.
    - intros ([f' l] & <- & H). apply List.filter_In in H as [H E]. simpl in *.
      apply existsb_exists in E as (x & Hx & Ex). apply Pos.eqb_eq in Ex as <-. eauto.
    - intros (l & H & Ha). exists (f, l). split; [done|]. apply List.filter_In.
      split; [done|]. simpl. apply existsb_exists. exists a. by rewrite Pos.eqb_refl. }
  split.
  - intros (gd & Hgd & H). exists gd. split; [done|]. unfold forwardEntries.
    rewrite !in_app_iff, !C in H.
    destruct H as [(l & H & Ha)|[(l & H & Ha)|(l & H & Ha)]]; exists l;
      rewrite !in_app_iff; auto.
  - intros (gd & Hgd & l & H & Ha). exists gd. split; [done|].
    unfold forwardEntries in H. rewrite !in_app_iff in H. rewrite !in_app_iff, !C.
    destruct H as [H|[H|H]]; eauto.
Qed.

(** X10.  The two forwarding queries are inverse to each other: a port [f]
    is among the ports [getAllPortsForwardedToAPort(a)] returns exactly when
    [a] is among the ports [getAllForwardedPortsFromAPort(f)] returns. *)
Theorem forwarding_queries_are_inverse (w : World) (f a : PortPtr) :
  WF w ->
  (In f (getAllPortsForwardedToAPort w a) <-> In a (getAllForwardedPortsFromAPort w f)).
Proof.
  intros HW. rewrite In_forwardedTo. unfold getAllForwardedPortsFromAPort.
  rewrite in_flat_map. fold (allGroups w). split.
  - intros (gd & Hgd & H). exists gd. split; [done|].
    apply In_forwardedBy; [by apply (In_allGroups_entry_ok w)|done].
  - intros (gd & Hgd & H). exists gd. split; [done|].
    apply In_forwardedBy in H; [done | by apply (In_allGroups_entry_ok w)].
Qed.

Lemma store_group_same w g gd :
  WF w -> lookupGroupUnlocked w g = Some gd -> store_group g gd w = w.
Proof.
  intros HW Hg. unfold store_group.
  rewrite QMapOrder.insert_same; [|apply (wf_groups _ HW)|done].
  destruct w as [ns ps cs [mn mg xn xg] a]. done.
Qed.

(** X11.  [unregisterForwardPort(g, f)] empties what the three tables of
    [g] hold under [f] and touches no other entry, no other group and no
    port.  Called with a port that is no key of a table of [g], a port of a
    member node for instance, or with a group that is not registered, it
    changes nothing at all. *)
Theorem unregisterForwardPort_effect (w : World) (g : NodePtr) (f : PortPtr) :
  WF w ->
  let w' := unregisterForwardPort w g f in
  (forall k, forwardedList k w' g f = [])
  /\ (forall k g' f', g' <> g \/ f' <> f ->
        forwardedList k w' g' f' = forwardedList k w g' f')
  /\ portLabels w' = portLabels w
  /\ m_nodes (registry w') = m_nodes (registry w)
  /\ ((forall k gd, lookupGroupUnlocked w g = Some gd ->
         QMap.contains (forwardTable k gd) f = false) -> w' = w).
Proof.
  intros HW w'. subst w'. unfold unregisterForwardPort, forwardedList.
  destruct (lookupGroupUnlocked w g) as [gd|] eqn:Hg.
  2: { rewrite Hg. repeat split; try done. }
  split; [|split; [|split; [done|split; [done|]]]].
  - intros k. rewrite lookupGroup_store_group_eq. unfold QMap.at_.
    destruct k; simpl; by rewrite QMapFacts.value_remove_eq.
  - intros k g' f' Hne. destruct (decide (g = g')) as [<-|Hg'].
    + rewrite lookupGroup_store_group_eq, Hg. unfold QMap.at_.
      destruct Hne as [Hne|Hne]; [done|].
      destruct k; simpl; rewrite QMapFacts.value_remove_ne; done.
    + by rewrite lookupGroup_store_group_ne.
  - intros H. rewrite <- (store_group_same w g gd HW Hg) at 2. f_equal.
    pose proof (H ForwardInput gd eq_refl) as H1.
    pose proof (H ForwardOutput gd eq_refl) as H2.
    pose proof (H ForwardParameter gd eq_refl) as H3. simpl in *.
    apply QMapFacts.contains_false in H1, H2, H3.
    rewrite !QMapOrder.remove_absent by done. by destruct gd.
Qed.

Lemma registerForward_store k w g f a gd :
  lookupGroupUnlocked w g = Some gd ->
  exists gd',
    registerForward k w g f a = copyTagsFrom (store_group g gd' w) f a
    /\ gd_uid gd' = gd_uid gd /\ gd_group gd' = gd_group gd /\ memberNodes gd' = memberNodes gd
    /\ forwardTable k gd' = QMap.push_back f a (forwardTable k gd)
    /\ forall k', k' <> k -> forwardTable k' gd' = forwardTable k' gd.
Proof.
  intros Hg. destruct k; simpl;
    unfold registerForwardInput, registerForwardOutput, registerForwardParameter; rewrite Hg;
    eexists; (split; [reflexivity|]); simpl; repeat split; intros k' Hk'; by destruct k'.
Qed.

(** X12.  A forward port [f] that is no key of a forwarding table of the
    registered group [g] is registered by one of the three register calls
    and removed again by [unregisterForwardPort(g, f)]: the registry is as
    before the two calls, and so is every port but [f], which keeps the
    tags it copied from the actual port. *)
Theorem registerForward_then_unregisterForwardPort (k : ForwardKind) (w : World)
    (g : NodePtr) (f a : PortPtr) (gd : GroupDescriptor) :
  WF w ->
  lookupGroupUnlocked w g = Some gd ->
  (forall k', QMap.contains (forwardTable k' gd) f = false) ->
  let w' := unregisterForwardPort (registerForward k w g f a) g f in
  registry w' = registry w
  /\ m_tags (portAt w' f)
     = Taggable.copyTagsFrom (m_tags (portAt w f)) (m_tags (portAt w a))
  /\ (forall q, q <> f -> portAt w' q = portAt w q)
  /\ nodeItems w' = nodeItems w /\ connectionItems w' = connectionItems w.
Proof.
  intros HW Hg Hf w'. subst w'.
  destruct (registerForward_store k w g f a gd Hg) as (gd' & -> & Eu & Eg & Em & Ek & Eo).
  unfold unregisterForwardPort.
  change (lookupGroupUnlocked (copyTagsFrom (store_group g gd' w) f a) g)
    with (lookupGroupUnlocked (store_group g gd' w) g).
  rewrite lookupGroup_store_group_eq.
  destruct (lookup_group_entry_ok _ _ _ HW Hg) as (_ & Ai & Ao & Ap). simpl in *.
  split; [|split; [|split; [|done]]].
  - unfold store_group, copyTagsFrom. simpl. rewrite QMapOrder.insert_insert.
    transitivity (registry (store_group g gd w)); [|by rewrite (store_group_same w g gd HW Hg)].
    unfold store_group, set_m_groups. simpl. f_equal. f_equal.
    pose proof (Hf ForwardInput) as H1. pose proof (Hf ForwardOutput) as H2.
    pose proof (Hf ForwardParameter) as H3. simpl in *.
    apply QMapFacts.contains_false in H1, H2, H3.
    assert (T : forall k', forwardTable k' gd'
                = if decide (k' = k) then QMap.push_back f a (forwardTable k' gd)
                  else forwardTable k' gd).
    { intros k'. destruct (decide (k' = k)) as [->|Hk']; [done | by apply Eo]. }
    pose proof (T ForwardInput) as T1. pose proof (T ForwardOutput) as T2.
    pose proof (T ForwardParameter) as T3. clear T Ek Eo.
    destruct gd as [u gg mem fi fo fp], gd' as [u' gg' mem' fi' fo' fp']. simpl in *.
    subst u' gg' mem' fi' fo' fp'.
    destruct k; simpl; unfold QMap.push_back;
      rewrite QMapOrder.remove_insert_absent by done;
      rewrite !QMapOrder.remove_absent by done; done.
  - unfold copyTagsFrom.
    match goal with
    | |- m_tags (portAt (store_group _ _ (set_port ?p ?o ?w0)) _) = _ =>
        transitivity (m_tags (portAt (set_port p o w0) p)); [done|];
        rewrite portAt_set_port_eq
    end.
    done.
  - intros q Hq. unfold copyTagsFrom.
    apply (portAt_set_port_ne (store_group g gd' w) f q). done.
Qed.

(** ** Destroying a group *)

Lemma forwards_to_lookup w f a :
  WF w ->
  (forwards_to w f a
   <-> exists g gd, lookupGroupUnlocked w g = Some gd /\ In a (forwardedBy gd f)).
Proof.
  intros HW. unfold forwards_to, getAllForwardedPortsFromAPort. rewrite in_flat_map.
  fold (allGroups w). split.
  - intros (gd & Hgd & H). apply (In_allGroups_lookup w gd HW) in Hgd as [g Hg]. eauto.
  - intros (g & gd & Hg & H). exists gd. split; [|done].
    apply (In_allGroups_lookup w gd HW). eauto.
Qed.

Lemma unregisterNode_groups w n :
  m_groups (registry (unregisterNode w n)) = m_groups (registry w).
Proof. unfold unregisterNode. destruct (is_group _); [done|]. by destruct (QMap.contains _ _). Qed.

Lemma lookupGroup_unregisterGroup w g h :
  lookupGroupUnlocked (unregisterGroup w g) h
  = if decide (g = h) then None else lookupGroupUnlocked w h.
Proof.
  unfold unregisterGroup, lookupGroupUnlocked.
  destruct (QMap.contains (m_groups (registry w)) g) eqn:Hc; simpl.
  - destruct (decide (g = h)) as [->|Hne].
    + apply QMapFacts.value_remove_eq.
    + by apply QMapFacts.value_remove_ne.
  - destruct (decide (g = h)) as [->|Hne]; [|done]. by apply QMapFacts.contains_false.
Qed.

Lemma lookupGroup_deleteItem_group w g h :
  is_group (nodeAt w g) = true ->
  lookupGroupUnlocked (deleteItem w g) h
  = if decide (g = h) then None else lookupGroupUnlocked w h.
Proof.
  intros Hg. rewrite <- lookupGroup_unregisterGroup.
  unfold deleteItem. rewrite Hg. unfold deleteGroupItem, deleteNodeItem, lookupGroupUnlocked.
  simpl. by rewrite unregisterNode_groups.
Qed.

(** X13.  Destroying a group item removes its forwarding.  After the
    destructor of the group [g] has run, [g] is no registered group, and a
    port [f] forwards to a port [a] exactly when a table of another
    registered group lists [a] under [f]: what [g] forwarded is gone, what
    the other groups forward is kept. *)
Theorem deleteItem_group_drops_its_forwarding (w : World) (g : NodePtr) (f a : PortPtr) :
  WF w ->
  is_group (nodeAt w g) = true ->
  let w' := deleteItem w g in
  lookupGroupUnlocked w' g = None
  /\ (forwards_to w' f a
      <-> exists g' gd, g' <> g /\ lookupGroupUnlocked w g' = Some gd
            /\ In a (forwardedBy gd f)).
Proof.
  intros HW Hg w'. subst w'.
  assert (HW' : WF (deleteItem w g)) by (apply (steady_wf w); [apply steady_deleteItem | done]).
  split.
  - rewrite lookupGroup_deleteItem_group by done. by rewrite decide_True.
  - rewrite (forwards_to_lookup _ f a HW'). split.
    + intros (g' & gd & Hl & H). rewrite lookupGroup_deleteItem_group in Hl by done.
      destruct (decide (g = g')) as [|Hne]; [done|]. exists g', gd. auto.
    + intros (g' & gd & Hne & Hl & H). exists g', gd.
      rewrite lookupGroup_deleteItem_group by done.
      by rewrite decide_False by congruence.
Qed.

(** ** Members of a group *)

Lemma store_group_twice w g d d' :
  store_group g d' (store_group g d w) = store_group g d' w.
Proof. unfold store_group. simpl. by rewrite QMapOrder.insert_insert. Qed.

Lemma filter_app_fresh (n : NodePtr) (l : list NodePtr) :
  ~ In n l -> List.filter (fun m => negb (Pos.eqb m n)) (l ++ [n]) = l.
Proof.
  intros Hn. rewrite List.filter_app. simpl. rewrite Pos.eqb_refl. simpl.
  rewrite app_nil_r. apply (without_absent n l Hn).
Qed.

(** X14.  A node that is not yet a member of the group [g] is added by
    [addNodeToGroup(g, n)] and removed again by [removeNodeFromGroup(g, n)]:
    the state after the two calls is the state before them.  This covers
    the calls that do nothing: a group or a node that is not registered.
    (A member is named by the node of its descriptor, which is what the
    code compares; a member whose descriptor [unregisterNode] has deleted
    is a dangling pointer in the code and is not meant here.) *)
Theorem addNodeToGroup_then_removeNodeFromGroup (w : World) (g n : NodePtr) :
  WF w ->
  (forall gd, lookupGroupUnlocked w g = Some gd -> ~ In n (memberNodes gd)) ->
  removeNodeFromGroup (addNodeToGroup w g n) g n = w.
Proof.
  intros HW Hn. unfold addNodeToGroup, removeNodeFromGroup.
  destruct (lookupGroupUnlocked w g) as [gd|] eqn:Hg; [|by rewrite Hg].
  specialize (Hn gd eq_refl).
  destruct (lookupNodeUnlocked w n) as [nd|] eqn:Hnd.
  - rewrite lookupGroup_store_group_eq, store_group_twice. simpl.
    rewrite filter_app_fresh by done.
    rewrite <- (store_group_same w g gd HW Hg) at 2. by destruct gd.
  - rewrite Hg. fold (without n (memberNodes gd)). rewrite without_absent by done.
    rewrite <- (store_group_same w g gd HW Hg) at 2. by destruct gd.
Qed.

Lemma groupsOf_In w n gd :
  WF w ->
  (In gd (groupsOf w n) <-> exists g, lookupGroupUnlocked w g = Some gd /\ In n (memberNodes gd)).
Proof.
  intros HW. unfold groupsOf. rewrite List.filter_In. fold (allGroups w).
  rewrite (In_allGroups_lookup w gd HW), existsb_exists. split.
  - intros [[g Hg] (x & Hx & E)]. apply Pos.eqb_eq in E as <-. eauto.
  - intros (g & Hg & Hin). split; [eauto|]. exists n. by rewrite Pos.eqb_refl.
Qed.

(** X15.  [groupsOf(n)] returns exactly the descriptors of the registered
    groups that list [n] among their member nodes.  So after
    [addNodeToGroup(g, n)] on a registered group and a registered node the
    group [g] is among the groups of [n], and after
    [removeNodeFromGroup(g, n)] it is not, while the other groups of [n]
    are the same.  (Members are named by the node of their descriptor, as
    in the statement before.) *)
Theorem groupsOf_follows_membership (w : World) (g n : NodePtr) :
  WF w ->
  (forall gd, In gd (groupsOf w n)
     <-> exists h, lookupGroupUnlocked w h = Some gd /\ In n (memberNodes gd))
  /\ (lookupGroupUnlocked w g <> None -> lookupNodeUnlocked w n <> None ->
      exists gd, In gd (groupsOf (addNodeToGroup w g n) n) /\ gd_group gd = g)
  /\ (forall gd, In gd (groupsOf (removeNodeFromGroup w g n) n) ->
        gd_group gd <> g /\ In gd (groupsOf w n))
  /\ (forall gd, In gd (groupsOf w n) -> gd_group gd <> g ->
        In gd (groupsOf (removeNodeFromGroup w g n) n)).
Proof.
  intros HW.
  assert (HWa : WF (addNodeToGroup w g n))
    by (apply (steady_wf w); [apply steady_addNodeToGroup | done]).
  assert (HWr : WF (removeNodeFromGroup w g n))
    by (apply (steady_wf w); [apply steady_removeNodeFromGroup | done]).
  assert (HR : forall h, lookupGroupUnlocked (removeNodeFromGroup w g n) h
             = if decide (g = h)
               then option_map (fun gd => set_memberNodes
                                  (List.filter (fun m => negb (Pos.eqb m n)) (memberNodes gd)) gd)
                      (lookupGroupUnlocked w g)
               else lookupGroupUnlocked w h).
  { intros h. unfold removeNodeFromGroup.
    destruct (lookupGroupUnlocked w g) as [gd0|] eqn:Hg; simpl.
    - destruct (decide (g = h)) as [<-|Hne].
      + apply lookupGroup_store_group_eq.
      + by apply lookupGroup_store_group_ne.
    - destruct (decide (g = h)) as [<-|Hne]; done. }
  split; [intros gd; by apply groupsOf_In|]. split; [|split].
  - intros Hg Hn. unfold addNodeToGroup in *.
    destruct (lookupGroupUnlocked w g) as [gd0|] eqn:Eg; [|done].
    destruct (lookupNodeUnlocked w n) as [nd|] eqn:En; [|done].
    destruct (lookup_group_entry_ok _ _ _ HW Eg) as (Ek & _). simpl in Ek.
    exists (set_memberNodes (memberNodes gd0 ++ [n]) gd0). split; [|done].
    apply (groupsOf_In _ n _ HWa). exists g. split.
    + apply lookupGroup_store_group_eq.
    + simpl. rewrite in_app_iff. right. by left.
  - intros gd Hin. apply (groupsOf_In _ n _ HWr) in Hin as (h & Hh & Hm).
    rewrite HR in Hh. destruct (decide (g = h)) as [<-|Hne].
    + destruct (lookupGroupUnlocked w g) as [gd0|]; [|done]. injection Hh as <-.
      simpl in Hm. apply List.filter_In in Hm as [_ Hm]. by rewrite Pos.eqb_refl in Hm.
    + destruct (lookup_group_entry_ok _ _ _ HW Hh) as (Ek & _). simpl in Ek.
      split; [congruence|]. apply (groupsOf_In _ n _ HW). eauto.
  - intros gd Hin Hne. apply (groupsOf_In _ n _ HW) in Hin as (h & Hh & Hm).
    destruct (lookup_group_entry_ok _ _ _ HW Hh) as (Ek & _). simpl in Ek.
    apply (groupsOf_In _ n _ HWr). exists h. split; [|done].
    rewrite HR. by rewrite decide_False by congruence.
Qed.

(** ** Registration of groups *)

(** X16.  In a state reached by a run of the editor (shorter than the range
    of the 64-bit id counter), [registerGroup(g)] followed by a second
    [registerGroup(g)] gives the same id twice and the second call changes
    nothing; when [g] was not registered, the id is the value of the group
    counter, which no registered group holds; after the call any two
    distinct registered groups hold distinct ids, and the new group has no
    member and forwards nothing. *)
Theorem registerGroup_idempotent_fresh_and_distinct (k : nat) (w : World) (g : NodePtr) :
  reachable k w ->
  (Z.of_nat (S k) < INT64_MAX)%Z ->
  let w1 := fst (registerGroup w g) in
  let id1 := snd (registerGroup w g) in
  registerGroup w1 g = (w1, id1)
  /\ (exists d, lookupGroupUnlocked w1 g = Some d /\ gd_uid d = id1)
  /\ (lookupGroupUnlocked w g = None ->
      id1 = m_nextGroupId (registry w)
      /\ (forall h d, lookupGroupUnlocked w h = Some d -> gd_uid d <> id1)
      /\ (forall n, groupsOf w1 n = groupsOf w n)
      /\ forall f, forwardedList ForwardInput w1 g f = []
                   /\ forwardedList ForwardOutput w1 g f = []
                   /\ forwardedList ForwardParameter w1 g f = [])
  /\ (forall a b da db,
        lookupGroupUnlocked w1 a = Some da -> lookupGroupUnlocked w1 b = Some db ->
        a <> b -> gd_uid da <> gd_uid db).
Proof.
  intros Hr Hk w1 id1.
  pose proof (reachable_GInv _ _ Hr) as HI.
  pose proof (GInv_registerGroup k w g HI) as HI1. fold w1 in HI1.
  assert (Hk' : (Z.of_nat k < INT64_MAX)%Z) by lia.
  assert (Hreg : exists d, lookupGroupUnlocked w1 g = Some d /\ gd_uid d = id1).
  { subst w1 id1. unfold registerGroup, lookupGroupUnlocked.
    destruct (QMap.value (m_groups (registry w)) g) as [d0|] eqn:Hn; simpl.
    - exists d0. auto.
    - eexists. split; [apply QMapFacts.value_insert_eq | done]. }
  split; [|split; [done|split]].
  - destruct Hreg as (d & Hd & Hid). unfold registerGroup at 1.
    unfold lookupGroupUnlocked in Hd. rewrite Hd. by rewrite Hid.
  - intros Hn. subst w1 id1. unfold forwardedList. rewrite !lookupGroup_registerGroup by done.
    rewrite decide_True by done.
    unfold registerGroup. unfold lookupGroupUnlocked in Hn. rewrite Hn. simpl.
    split; [done|]. split.
    + intros h d Hh. pose proof (ginv_uid_range _ _ HI Hk' h d Hh). lia.
    + split; [|done]. intros n. unfold groupsOf, QMap.values. simpl.
      assert (F : forall m : QMap.t GroupDescriptor,
                 List.filter (fun gd => existsb (Pos.eqb n) (memberNodes gd))
                   (List.map snd
                      (QMap.insert g
                         {| gd_uid := m_nextGroupId (registry w); gd_group := g;
                            memberNodes := []; forwardInputsDescriptor := [];
                            forwardOutputsDescriptor := [];
                            forwardParametersInputsDescriptor := [] |} m))
                 = List.filter (fun gd => existsb (Pos.eqb n) (memberNodes gd))
                     (List.map snd m)
                 \/ QMap.value m g <> None).
      { induction m as [|[h d] m IH]; simpl; [by left|].
        destruct (Pos.ltb g h); [by left|]. rewrite (Pos.eqb_sym h g).
        destruct (Pos.eqb g h) eqn:E; [by right|]. simpl.
        destruct IH as [IH|IH]; [left; by rewrite IH | by right]. }
      destruct (F (m_groups (registry w))) as [F1|F1]; [done | congruence].
  - apply (ginv_uid_distinct _ _ HI1 Hk).
Qed.

(** ** The tables in the states of a run *)

Lemma map_nd_node_allNodes w : WF w -> List.map nd_node (allNodes w) = QMap.keys (m_nodes (registry w)).
Proof.
  intros HW. unfold allNodes, QMap.values, QMap.keys. rewrite List.map_map.
  apply List.map_ext_in. intros [n d] Hin. simpl.
  by destruct (In_entry_lookup w n d HW Hin).
Qed.

Lemma map_gd_group_allGroups w :
  WF w -> List.map gd_group (allGroups w) = QMap.keys (m_groups (registry w)).
Proof.
  intros HW. unfold allGroups, QMap.values, QMap.keys. rewrite List.map_map.
  apply List.map_ext_in. intros [g d] Hin. simpl.
  pose proof (wf_group_entries _ HW) as HF. rewrite List.Forall_forall in HF.
  by destruct (HF _ Hin).
Qed.

Lemma In_allNodes_lookup w d :
  WF w -> (In d (allNodes w) <-> lookupNodeUnlocked w (nd_node d) = Some d).
Proof.
  intros HW. unfold allNodes, QMap.values. rewrite in_map_iff. split.
  - intros ([n d'] & <- & Hin). simpl. destruct (In_entry_lookup w n d' HW Hin) as [-> H]. done.
  - intros H. exists (nd_node d, d). split; [done|]. by apply QMapFacts.value_In.
Qed.

(** X17.  In every state reached by a run of the editor the two tables are
    consistent with the lookups: [allNodes()] lists every registered node
    once, each descriptor under the node it describes, so a descriptor is
    listed exactly when [getNode] of its node returns it; the same holds of
    [allGroups()]; and the descriptor [findNode(name)] returns is the one
    registered for its node, whose name is [name]. *)
Theorem reachable_tables_consistent (k : nat) (w : World) :
  reachable k w ->
  List.NoDup (List.map nd_node (allNodes w))
  /\ (forall d, In d (allNodes w) <-> getNode w (nd_node d) = Some d)
  /\ List.NoDup (List.map gd_group (allGroups w))
  /\ (forall d, In d (allGroups w) <-> lookupGroupUnlocked w (gd_group d) = Some d)
  /\ (forall name d, findNode w name = Some d ->
        getNode w (nd_node d) = Some d /\ m_nodeName (nodeAt w (nd_node d)) = name).
Proof.
  intros Hr. pose proof (reachable_WF _ _ Hr) as HW.
  split; [|split; [|split; [|split]]].
  - rewrite (map_nd_node_allNodes w HW). apply QMapOrder.keys_NoDup, (wf_nodes _ HW).
  - intros d. by apply In_allNodes_lookup.
  - rewrite (map_gd_group_allGroups w HW). apply QMapOrder.keys_NoDup, (wf_groups _ HW).
  - intros d. rewrite (In_allGroups_lookup w d HW). split.
    + intros [g Hg]. destruct (lookup_group_entry_ok _ _ _ HW Hg) as (E & _). simpl in E.
      by rewrite E.
    + eauto.
  - intros name d Hf. destruct (findNode_lookup w name d HW Hf) as [_ Hl].
    split; [done|]. unfold findNode in Hf. apply List.find_some in Hf as [_ Hf].
    by apply String.eqb_eq.
Qed.

(** ** unregisterNode and the connections *)

Lemma find_filter {X : Type} (P Q : X -> bool) (l : list X) (x : X) :
  List.find P l = Some x -> Q x = true -> List.find P (List.filter Q l) = Some x.
Proof.
  induction l as [|y l IH]; simpl; [done|].
  destruct (P y) eqn:Py.
  - intros [= ->] Hq. rewrite Hq. simpl. by rewrite Py.
  - intros H Hq. destruct (Q y); simpl; [rewrite Py|]; auto.
Qed.

(** X18.  [unregisterNode(n)] does not unregister the connections of [n].
    A port whose module name resolves to another registered node has,
    after the call, the connections it had before, among them the ones that
    lead to ports of [n]; and a port that only [n] answers for (no other
    registered node carries its module name and nothing forwards from it)
    has no connections any more. *)
Theorem unregisterNode_keeps_connections_of_others (fuel : nat) (w : World) (n : NodePtr)
    (q : PortPtr) :
  WF w ->
  (forall d, findNode w (m_moduleName (portAt w q)) = Some d -> nd_node d <> n ->
     getConnections (S fuel) (unregisterNode w n) q = getConnections (S fuel) w q)
  /\ (is_group (nodeAt w n) = false ->
      (forall d, In d (allNodes w) ->
         m_nodeName (nodeAt w (nd_node d)) = m_moduleName (portAt w q) -> nd_node d = n) ->
      getAllForwardedPortsFromAPort w q = [] ->
      getConnections (S fuel) (unregisterNode w n) q = Some []).
Proof.
  intros HW. split.
  - intros d Hf Hne. unfold unregisterNode.
    destruct (is_group (nodeAt w n)); [done|].
    destruct (QMap.contains (m_nodes (registry w)) n); [|done].
    set (w' := set_registry _ w).
    destruct (findNode_lookup w _ d HW Hf) as [He Hl].
    assert (He' : findEntry w' (m_moduleName (portAt w q)) = Some (nd_node d, d)).
    { unfold findEntry in *. subst w'. simpl. unfold QMap.remove.
      apply (find_filter _ _ _ _ He). simpl. by rewrite (proj2 (Pos.eqb_neq _ _) Hne). }
    rewrite !getConnections_S, !findNode_findEntry.
    change (portAt w' q) with (portAt w q). rewrite He, He'. simpl.
    unfold lookupNodeUnlocked. subst w'. simpl.
    by rewrite QMapFacts.value_remove_ne by congruence.
  - intros Hg Honly Hfw. unfold unregisterNode. rewrite Hg.
    destruct (QMap.contains (m_nodes (registry w)) n) eqn:Hc.
    + set (w' := set_registry _ w).
      assert (He' : findEntry w' (m_moduleName (portAt w q)) = None).
      { unfold findEntry. apply find_None_iff. intros [k d] Hin. subst w'. simpl in *.
        unfold QMap.remove in Hin. apply List.filter_In in Hin as [Hin Hk]. simpl in Hk.
        apply String.eqb_neq. intros Hname.
        destruct (In_entry_lookup w k d HW Hin) as [Ek _].
        assert (Hd : In d (allNodes w)) by (apply (in_map snd _ _ Hin)).
        specialize (Honly d Hd Hname). rewrite Ek in Honly. subst k.
        by rewrite Pos.eqb_refl in Hk. }
      rewrite getConnections_S, findNode_findEntry.
      change (portAt w' q) with (portAt w q). rewrite He'. simpl.
      change (getAllForwardedPortsFromAPort w' q) with (getAllForwardedPortsFromAPort w q).
      by rewrite Hfw.
    + rewrite getConnections_S.
      destruct (findNode w (m_moduleName (portAt w q))) as [d|] eqn:Hf; [|by rewrite Hfw].
      destruct (findNode_lookup w _ d HW Hf) as [He Hl]. exfalso.
      apply QMapFacts.contains_false in Hc.
      assert (Hd : In d (allNodes w)) by (by apply In_allNodes_lookup).
      assert (Hname : m_nodeName (nodeAt w (nd_node d)) = m_moduleName (portAt w q)).
      { unfold findNode in Hf. apply List.find_some in Hf as [_ Hf]. by apply String.eqb_eq. }
      specialize (Honly d Hd Hname). rewrite Honly in Hl. unfold lookupNodeUnlocked in Hl.
      congruence.
Qed.

(** ** The two sides of a connection item *)

(** X19.  The constructor [ConnectionItem(port1, port2)] sorts the two
    endpoints by their side: with one endpoint that is an input and one
    that is not, the input endpoint becomes [m_inputPort] and the other one
    [m_outputPort], in whichever order they are passed.  With two endpoints
    of the same side the second one overwrites the first, which leaves no
    trace: the item is the one built from the second endpoint alone.  The
    item is inactive in every case. *)
Theorem newConnectionItem_sorts_endpoints (a b : ConnectionPort) :
  (isInput a = true -> isInput b = false ->
     newConnectionItem a b = newConnectionItem b a
     /\ m_inputPort (newConnectionItem a b) = a
     /\ m_outputPort (newConnectionItem a b) = b)
  /\ (isInput a = isInput b ->
      newConnectionItem a b = newConnectionItem b b
      /\ (if isInput b then m_inputPort (newConnectionItem a b)
          else m_outputPort (newConnectionItem a b)) = b)
  /\ conn_isActive (newConnectionItem a b) = false.
Proof.
  unfold newConnectionItem, addPort.
  destruct (isInput a) eqn:Ea, (isInput b) eqn:Eb; simpl; rewrite ?Ea, ?Eb; simpl;
    repeat split; intros; congruence.
Qed.

(** ** The connection builder *)

Lemma still_refl w : still w w.
Proof. by repeat split. Qed.

Lemma still_trans w1 w2 w3 : still w1 w2 -> still w2 w3 -> still w1 w3.
Proof.
  intros (R1 & P1 & C1 & A1 & N1) (R2 & P2 & C2 & A2 & N2).
  repeat split; congruence.
Qed.

Lemma still_same_graph w w' : still w w' -> same_graph w w'.
Proof. intros (R & P & _ & _ & N). by repeat split. Qed.

Lemma disableWidgets_still fuel item ps w w' :
  disableWidgets fuel item w ps = Some w' -> still w w'.
Proof.
  revert w. induction ps as [|[pPort proxy] ps IH]; intros w; simpl.
  - intros [= <-]. apply still_refl.
  - destruct (hasConnection fuel w pPort) as [b|]; [|done].
    intros H. eapply still_trans; [|apply (IH _ H)].
    repeat split; try done. intros n. destruct (decide (item = n)) as [->|Hne].
    + by rewrite nodeAt_set_node_eq.
    + by rewrite nodeAt_set_node_ne.
Qed.

Lemma refreshOwner_still fuel w name w' : refreshOwner fuel w name = Some w' -> still w w'.
Proof.
  unfold refreshOwner, disableWidgetOfConnectedParametersInput.
  destruct (findGroup w name) as [gd|].
  - destruct (disableWidgets _ _ _ _) as [w1|] eqn:H1; [|done].
    intros H. apply nodeMoved_same in H as ->. by eapply disableWidgets_still.
  - destruct (findNode w name) as [nd|]; [|done].
    destruct (disableWidgets _ _ _ _) as [w1|] eqn:H1; [|done].
    intros H. apply nodeMoved_same in H as ->. by eapply disableWidgets_still.
Qed.

Lemma registerConnection_heap w a b c :
  nodeItems (registerConnection w a b c) = nodeItems w
  /\ portLabels (registerConnection w a b c) = portLabels w
  /\ connectionItems (registerConnection w a b c) = connectionItems w
  /\ nextAddr (registerConnection w a b c) = nextAddr w.
Proof.
  unfold registerConnection.
  destruct (classify w a b) as [inPort [outPort|]]; [|done].
  destruct (ownerByName w _) as [outNode|]; [|done].
  destruct (ownerByName w _) as [inNode|]; [|done].
  set (w1 := match lookupNodeUnlocked w outNode with Some d => _ | None => w end).
  assert (H1 : nodeItems w1 = nodeItems w /\ portLabels w1 = portLabels w
               /\ connectionItems w1 = connectionItems w /\ nextAddr w1 = nextAddr w).
  { subst w1. by destruct (lookupNodeUnlocked w outNode). }
  destruct H1 as (E1 & E2 & E3 & E4).
  destruct (lookupNodeUnlocked w1 inNode); simpl; by rewrite ?E1, ?E2, ?E3, ?E4.
Qed.

(** What a successful call went through, step by step. *)
Lemma createConnectionBetweenPorts_steps fuel w a b w' c :
  createConnectionBetweenPorts fuel w a b = Some (w', Some c) ->
  PortsAreCompatible fuel w a b = Some true
  /\ hasConnectionTo fuel w a b = Some false
  /\ c = nextAddr w
  /\ let item := newConnectionItem (getConnectionPortData (portAt w (concretePortOf w a)))
                                   (getConnectionPortData (portAt w (concretePortOf w b))) in
     let w3 := registerConnection (set_conn c item (snd (alloc w)))
                 (concretePortOf w a) (concretePortOf w b) c in
     still w3 w'.
Proof.
  unfold createConnectionBetweenPorts.
  destruct (PortsAreCompatible fuel w a b) as [[|]|]; [| |done]; [|by intros [= _ ?]].
  destruct (hasConnectionTo fuel w a b) as [[|]|]; [| |done]; [by intros [= _ ?]|].
  simpl.
  match goal with
  | |- context [refreshOwner fuel ?w3 ?n] =>
      destruct (refreshOwner fuel w3 n) as [w4|] eqn:H4; [|done]
  end.
  destruct (refreshOwner fuel w4 _) as [w5|] eqn:H5; [|done].
  intros [= <- <-]. split; [done|]. split; [done|]. split; [done|]. simpl.
  eapply still_trans; eapply refreshOwner_still; eassumption.
Qed.

Lemma PortsAreCompatible_true fuel w p q :
  PortsAreCompatible fuel w p q = Some true ->
  port_isVisible (portAt w p) = true /\ port_isVisible (portAt w q) = true
  /\ port_parentItem (portAt w p) <> port_parentItem (portAt w q)
  /\ isAnyInputPort (portAt w p) = negb (isAnyInputPort (portAt w q))
  /\ isOutputPort (portAt w p) = isAnyInputPort (portAt w q)
  /\ isOutputPort (portAt w q) = isAnyInputPort (portAt w p)
  /\ m_tags (portAt w p) <> 0%N
  /\ m_tags (portAt w p) = m_tags (portAt w q)
  /\ (isSink (portAt w p) = true -> hasConnection fuel w p = Some false)
  /\ (isSink (portAt w q) = true -> hasConnection fuel w q = Some false).
Proof.
  intros H. pose proof (PortsAreCompatible_true_same_tags _ _ _ _ H) as Ht.
  revert H. unfold PortsAreCompatible.
  destruct (port_isVisible (portAt w p)) eqn:V1; simpl; [|done].
  destruct (port_isVisible (portAt w q)) eqn:V2; simpl; [|done].
  case_bool_decide as Hpar; [done|].
  rewrite !isAnyInputPort_cases, !isOutputPort_cases, !isSink_cases.
  destruct (Nat.eqb (Taggable.count (m_tags (portAt w p))) 0) eqn:C1.
  { by destruct (m_orientation (portAt w p)), (m_orientation (portAt w q)). }
  apply Nat.eqb_neq in C1. rewrite TaggableFacts.count_zero in C1.
  destruct (m_orientation (portAt w p)), (m_orientation (portAt w q)); simpl; try done;
    destruct (Nat.eqb (Taggable.count (m_tags (portAt w q))) 0); simpl; try done;
    repeat (match goal with
            | |- context [hasConnection fuel w ?x] =>
                destruct (hasConnection fuel w x) as [[|]|] eqn:?; try done
            end);
    intros _; repeat split; try done.
Qed.

(** X20.  [createConnectionBetweenPorts] creates a connection only between
    two visible ports of different parent items, one of them an input or a
    parameter and the other one an output, each with a tag count other than
    zero and the two accepted by [haveSameTags], when the sink has no
    connection yet and the two are not connected to each other.  The item it creates
    is a fresh object whose two sides name the concrete ports behind the
    two ports; the ports themselves are not changed. *)
Theorem createConnectionBetweenPorts_success_conditions (fuel : nat) (w : World)
    (a b : PortPtr) (w' : World) (c : ConnPtr) :
  createConnectionBetweenPorts fuel w a b = Some (w', Some c) ->
  port_isVisible (portAt w a) = true /\ port_isVisible (portAt w b) = true
  /\ port_parentItem (portAt w a) <> port_parentItem (portAt w b)
  /\ isAnyInputPort (portAt w a) = negb (isAnyInputPort (portAt w b))
  /\ isOutputPort (portAt w a) = isAnyInputPort (portAt w b)
  /\ Taggable.count (m_tags (portAt w a)) <> 0
  /\ Taggable.count (m_tags (portAt w b)) <> 0
  /\ Taggable.haveSameTags (m_tags (portAt w a)) (m_tags (portAt w b)) = true
  /\ (isSink (portAt w a) = true -> hasConnection fuel w a = Some false)
  /\ (isSink (portAt w b) = true -> hasConnection fuel w b = Some false)
  /\ hasConnectionTo fuel w a b = Some false
  /\ c = nextAddr w
  /\ nextAddr w' = Pos.succ (nextAddr w)
  /\ connAt w' c
     = newConnectionItem (getConnectionPortData (portAt w (concretePortOf w a)))
                         (getConnectionPortData (portAt w (concretePortOf w b)))
  /\ portLabels w' = portLabels w.
Proof.
  intros H. destruct (createConnectionBetweenPorts_steps _ _ _ _ _ _ H) as (Hc & Ht & -> & Hs).
  destruct (PortsAreCompatible_true _ _ _ _ Hc) as (V1 & V2 & Hp & Hi & Ho & _ & T0 & Te & S1 & S2).
  cbv zeta in Hs. destruct Hs as (_ & P & C & A & _).
  assert (T1 : Taggable.count (m_tags (portAt w a)) <> 0)
    by (by rewrite TaggableFacts.count_zero).
  assert (T2 : Taggable.count (m_tags (portAt w b)) <> 0)
    by (by rewrite <- Te, TaggableFacts.count_zero).
  assert (T3 : Taggable.haveSameTags (m_tags (portAt w a)) (m_tags (portAt w b)) = true)
    by (unfold Taggable.haveSameTags; by apply N.eqb_eq).
  destruct (registerConnection_heap
              (set_conn (nextAddr w)
                 (newConnectionItem (getConnectionPortData (portAt w (concretePortOf w a)))
                    (getConnectionPortData (portAt w (concretePortOf w b))))
                 (snd (alloc w)))
              (concretePortOf w a) (concretePortOf w b) (nextAddr w)) as (_ & P' & C' & A').
  repeat (split; [done|]).
  split; [by rewrite A, A'|].
  split; [|by rewrite P, P'].
  unfold connAt. rewrite C, C'. apply connAt_set_conn_eq.
Qed.

Lemma find_exists {X : Type} (P : X -> bool) (l : list X) (x : X) :
  In x l -> P x = true -> exists y, List.find P l = Some y.
Proof.
  intros Hin Hp. destruct (List.find P l) as [y|] eqn:E; [eauto|].
  rewrite find_None_iff in E. rewrite (E x Hin) in Hp. done.
Qed.

Lemma concretePortOf_plain w p :
  getAllForwardedPortsFromAPort w p = [] -> concretePortOf w p = p.
Proof. unfold concretePortOf. by intros ->. Qed.

(** After [registerConnection] on a sink and an output of registered nodes,
    in either order, the sink lists the connection. *)
Lemma registerConnection_listed w s o c ds do_ fuel a b :
  WF w ->
  isAnyInputPort (portAt w s) = true -> isOutputPort (portAt w o) = true ->
  findNode w (m_moduleName (portAt w s)) = Some ds ->
  findNode w (m_moduleName (portAt w o)) = Some do_ ->
  (a = s /\ b = o) \/ (a = o /\ b = s) ->
  m_groups (registry (registerConnection w a b c)) = m_groups (registry w)
  /\ exists l, getConnections (S fuel) (registerConnection w a b c) s = Some l /\ In c l.
Proof.
  intros HW Hs Ho Hfs Hfo Hab.
  assert (Hc : classify w a b = (s, Some o)).
  { unfold classify. destruct Hab as [[-> ->]|[-> ->]].
    - by rewrite Hs, Ho.
    - rewrite isAnyInputPort_cases. rewrite isOutputPort_cases in Ho.
      destruct (m_orientation (portAt w o)) eqn:E; try done.
      by rewrite isOutputPort_cases, E. }
  assert (Hoo : ownerByName w (m_moduleName (portAt w o)) = Some (nd_node do_))
    by (unfold ownerByName; by rewrite Hfo).
  assert (Hos : ownerByName w (m_moduleName (portAt w s)) = Some (nd_node ds))
    by (unfold ownerByName; by rewrite Hfs).
  rewrite (registerConnection_resolved _ _ _ _ _ _ _ _ Hc Hoo Hos).
  set (fout := fun d => set_outputsDescriptor (QMap.push_back o c (outputsDescriptor d)) d).
  set (fin := fun d => set_inputsDescriptor (QMap.push_back s c (inputsDescriptor d)) d).
  set (w1 := on_node (nd_node do_) fout w).
  assert (HW1 : WF w1).
  { apply (steady_wf w); [|done]. apply steady_on_node. intros d. subst fout. entry_ok. }
  pose proof (rewritten_trans _ _ _ _ _ (on_node_rewritten (nd_node do_) fout w HW)
                (on_node_rewritten (nd_node ds) fin w1 HW1)) as Hr.
  fold w1 in Hr.
  set (g := fun n d => if Pos.eqb n (nd_node ds)
                       then fin (if Pos.eqb n (nd_node do_) then fout d else d)
                       else if Pos.eqb n (nd_node do_) then fout d else d) in Hr.
  assert (Hg : forall n d, nd_node (g n d) = nd_node d).
  { intros n d. subst g. simpl. by destruct (Pos.eqb n (nd_node ds)), (Pos.eqb n (nd_node do_)). }
  split; [by destruct Hr as (_ & E & _)|].
  destruct (findNode_lookup w _ ds HW Hfs) as [He Hl].
  rewrite getConnections_S, (rewritten_portAt _ _ _ _ Hr).
  rewrite findNode_findEntry, (findEntry_rewritten _ _ _ _ Hr Hg), He. simpl.
  rewrite Hg, (lookupNode_rewritten _ _ _ _ Hr), Hl. simpl.
  eexists. split; [reflexivity|].
  subst g. simpl. rewrite Pos.eqb_refl. rewrite connectionsIn_at. simpl.
  rewrite at_push_back_eq, !in_app_iff. left. right. by left.
Qed.

(** X21.  A connection that [createConnectionBetweenPorts] has created
    between two ports of registered nodes (ports that forward to nothing) is
    a connection between them: afterwards [hasConnectionTo] answers [true]
    for the two ports in either order, and a second call for the same pair,
    in either order, creates nothing and changes nothing. *)
Theorem createConnectionBetweenPorts_then_connected (fuel : nat) (w : World)
    (a b : PortPtr) (w' : World) (c : ConnPtr) :
  WF w ->
  getAllForwardedPortsFromAPort w a = [] ->
  getAllForwardedPortsFromAPort w b = [] ->
  findNode w (m_moduleName (portAt w a)) <> None ->
  findNode w (m_moduleName (portAt w b)) <> None ->
  createConnectionBetweenPorts fuel w a b = Some (w', Some c) ->
  hasConnectionTo fuel w' a b = Some true
  /\ hasConnectionTo fuel w' b a = Some true
  /\ createConnectionBetweenPorts fuel w' a b = Some (w', None)
  /\ createConnectionBetweenPorts fuel w' b a = Some (w', None).
Proof.
  intros HW Hfa Hfb Hna Hnb H.
  destruct (createConnectionBetweenPorts_steps _ _ _ _ _ _ H) as (Hc & Ht & -> & Hs).
  cbv zeta in Hs. rewrite (concretePortOf_plain _ _ Hfa), (concretePortOf_plain _ _ Hfb) in Hs.
  set (item := newConnectionItem (getConnectionPortData (portAt w a))
                 (getConnectionPortData (portAt w b))) in *.
  set (w2 := set_conn (nextAddr w) item (snd (alloc w))) in *.
  set (w3 := registerConnection w2 a b (nextAddr w)) in *.
  destruct (PortsAreCompatible_true _ _ _ _ Hc)
    as (V1 & V2 & Hp & Hi & Hoa & Hob & T0 & Te & S1 & S2).
  assert (HW2 : WF w2) by (by apply (WF_registry w)).
  destruct (registerConnection_heap w2 a b (nextAddr w)) as (_ & P3 & C3 & _). fold w3 in P3, C3.
  destruct Hs as (R & P & C & _ & N).
  assert (HP : forall x, portAt w' x = portAt w x).
  { intros x. unfold portAt. by rewrite P, P3. }
  assert (HC : connAt w' (nextAddr w) = item).
  { unfold connAt. rewrite C, C3. apply connAt_set_conn_eq. }
  assert (HG : same_graph w3 w') by (by repeat split).
  (* the sink [s] and the output [o] of the pair *)
  assert (Hso : exists s o, ((a = s /\ b = o) \/ (a = o /\ b = s))
                  /\ isAnyInputPort (portAt w s) = true /\ isOutputPort (portAt w o) = true
                  /\ m_outputPort item = getConnectionPortData (portAt w o)).
  { destruct (isAnyInputPort (portAt w a)) eqn:Ea.
    - exists a, b. split; [auto|]. split; [done|]. split; [done|].
      subst item. unfold newConnectionItem, addPort. simpl. rewrite Ea.
      destruct (isAnyInputPort (portAt w b)); [done|]. done.
    - exists b, a. split; [auto|]. destruct (isAnyInputPort (portAt w b)) eqn:Eb; [|done].
      split; [done|]. split; [done|].
      subst item. unfold newConnectionItem, addPort. simpl. by rewrite Ea, Eb. }
  destruct Hso as (s & o & Hab & Es & Eo & Hitem).
  assert (Hfs : getAllForwardedPortsFromAPort w s = []) by (by destruct Hab as [[<- _]|[_ <-]]).
  assert (Hns : exists ds, findNode w (m_moduleName (portAt w s)) = Some ds).
  { destruct Hab as [[<- _]|[_ <-]];
      [destruct (findNode w (m_moduleName (portAt w a))) | 
       destruct (findNode w (m_moduleName (portAt w b)))]; eauto; done. }
  assert (Hno : exists do_, findNode w (m_moduleName (portAt w o)) = Some do_).
  { destruct Hab as [[_ <-]|[<- _]];
      [destruct (findNode w (m_moduleName (portAt w b))) | 
       destruct (findNode w (m_moduleName (portAt w a)))]; eauto; done. }
  destruct Hns as [ds Hds]. destruct Hno as [do_ Hdo].
  assert (Hsink : isSink (portAt w s) = true).
  { rewrite isSink_cases. rewrite isAnyInputPort_cases in Es. done. }
  assert (Hhs : hasConnection fuel w s = Some false).
  { destruct Hab as [[<- _]|[_ <-]]; auto. }
  (* the fuel of a successful call *)
  destruct fuel as [|fuel]; [done|]. rewrite hasConnection_S, Hfs in Hhs. simpl in Hhs.
  destruct fuel as [|fuel]; [done|]. clear Hhs.
  assert (L : forall k, exists l, getConnections (S k) w' s = Some l /\ In (nextAddr w) l).
  { intros k. rewrite (getConnections_same_graph _ _ _ _ HG).
    apply (registerConnection_listed w2 s o (nextAddr w) ds do_ k a b); done. }
  assert (G3 : m_groups (registry w') = m_groups (registry w)).
  { rewrite R. apply (registerConnection_listed w2 s o (nextAddr w) ds do_ 0 a b); done. }
  assert (T1 : hasConnectionTo (S (S fuel)) w' s o = Some true).
  { assert (Eso : isOutputPort (portAt w s) = false).
    { rewrite isOutputPort_cases. rewrite isAnyInputPort_cases in Es.
      by destruct (m_orientation (portAt w s)). }
    unfold hasConnectionTo. rewrite !HP, Es, Eso, Eo.
    unfold hasConnectionToName, findConnection.
    destruct (L (S fuel)) as (l & -> & Hin).
    match goal with
    | |- context [List.find ?P l] =>
        destruct (find_exists P l (nextAddr w) Hin) as [y ->]; [|done]
    end.
    rewrite !HP, Es, HC, Hitem. simpl. by rewrite !String.eqb_refl. }
  assert (T2 : hasConnection (S (S fuel)) w' s = Some true).
  { rewrite hasConnection_S.
    unfold getAllForwardedPortsFromAPort. rewrite G3.
    fold (getAllForwardedPortsFromAPort w s). rewrite Hfs. cbn [anyM].
    destruct (L fuel) as (l & -> & Hin). f_equal.
    rewrite bool_decide_eq_false_2; [done|]. by intros ->. }
  assert (T3 : forall q, PortsAreCompatible (S (S fuel)) w' s q = Some false).
  { intros q. apply PortsAreCompatible_connected_sink; [by rewrite HP | done]. }
  assert (T4 : forall x y, (x = s \/ y = s) ->
             createConnectionBetweenPorts (S (S fuel)) w' x y = Some (w', None)).
  { intros x y Hxy. unfold createConnectionBetweenPorts.
    destruct Hxy as [->| ->]; [|rewrite PortsAreCompatible_sym]; by rewrite T3. }
  destruct Hab as [[-> ->]|[-> ->]].
  - split; [done|]. split; [by rewrite hasConnectionTo_sym|]. split; apply T4; auto.
  - split; [by rewrite hasConnectionTo_sym|]. split; [done|]. split; apply T4; auto.
Qed.

(** ** Ports of a node: adding, finding by name, removing *)

Lemma find_app {X : Type} (P : X -> bool) (l1 l2 : list X) :
  List.find P (l1 ++ l2)
  = match List.find P l1 with Some x => Some x | None => List.find P l2 end.
Proof. induction l1 as [|x l1 IH]; simpl; [done|]. by destruct (P x). Qed.

Lemma find_ext_in {X : Type} (P Q : X -> bool) (l : list X) :
  (forall x, In x l -> P x = Q x) -> List.find P l = List.find Q l.
Proof.
  induction l as [|x l IH]; simpl; [done|]. intros H.
  rewrite (H x) by auto. rewrite IH by auto. done.
Qed.

Lemma addInput_unfold w n name :
  addInput w n name
  = (registerInput
       (set_node n (set_m_inputs (m_inputs (nodeAt w n) ++ [nextAddr w]) (nodeAt w n))
          (set_port (nextAddr w)
             {| m_portName := name; m_portDisplayName := name;
                m_moduleName := m_nodeName (nodeAt w n); m_orientation := Input;
                m_tags := 0%N; port_isVisible := node_isVisible (nodeAt w n);
                port_parentItem := Some n |} (snd (alloc w))))
       n (nextAddr w), nextAddr w).
Proof. reflexivity. Qed.

(** X22.  [addInput(name)] creates a fresh input port called [name], with
    the node's name as its module name, appends it to the inputs of the
    node and, when the node is registered, registers it with an empty
    connection list.  [getInputPortByName(name)] afterwards returns the
    first input of that name: the port it returned before when there was
    one, the new port otherwise. *)
Theorem addInput_then_getInputPortByName (w : World) (n : NodePtr) (name : string) :
  List.Forall (fun p => (p < nextAddr w)%positive) (m_inputs (nodeAt w n)) ->
  let w1 := fst (addInput w n name) in
  let p := snd (addInput w n name) in
  p = nextAddr w
  /\ (m_portName (portAt w1 p) = name /\ m_portDisplayName (portAt w1 p) = name
      /\ m_moduleName (portAt w1 p) = m_nodeName (nodeAt w n)
      /\ m_orientation (portAt w1 p) = Input
      /\ port_parentItem (portAt w1 p) = Some n)
  /\ m_inputs (nodeAt w1 n) = m_inputs (nodeAt w n) ++ [p]
  /\ getInputPortByName w1 n name
     = Some (match getInputPortByName w n name with Some q => q | None => p end)
  /\ (forall d, lookupNodeUnlocked w n = Some d ->
        exists d', lookupNodeUnlocked w1 n = Some d'
          /\ QMap.value (inputsDescriptor d') p = Some [])
  /\ (lookupNodeUnlocked w n = None -> registry w1 = registry w).
Proof.
  intros Hlive w1 p. subst w1 p. rewrite addInput_unfold. cbn [fst snd].
  set (port := {| m_portName := name |}).
  set (w2 := set_node n _ (set_port (nextAddr w) port (snd (alloc w)))).
  assert (Hreg : registerInput w2 n (nextAddr w)
                 = on_node n (fun d => set_inputsDescriptor
                                (QMap.insert (nextAddr w) [] (inputsDescriptor d)) d) w2).
  { unfold registerInput, on_node.
    replace (portAt w2 (nextAddr w)) with port; [done|].
    subst w2. symmetry. apply (portAt_set_port_eq (snd (alloc w))). }
  rewrite Hreg.
  destruct (on_node_frame n
              (fun d => set_inputsDescriptor (QMap.insert (nextAddr w) [] (inputsDescriptor d)) d)
              w2) as (_ & _ & _ & HN & HP & _).
  set (w1 := on_node n _ w2) in *.
  assert (P1 : forall q, portAt w1 q = portAt w2 q) by (intros q; unfold portAt; by rewrite HP).
  assert (N1 : forall q, nodeAt w1 q = nodeAt w2 q) by (intros q; unfold nodeAt; by rewrite HN).
  assert (N2 : nodeAt w2 n = set_m_inputs (m_inputs (nodeAt w n) ++ [nextAddr w]) (nodeAt w n)).
  { subst w2. by rewrite nodeAt_set_node_eq. }
  assert (P2 : portAt w2 (nextAddr w) = port).
  { subst w2. apply (portAt_set_port_eq (snd (alloc w))). }
  split; [done|]. split; [by rewrite !P1, !P2|].
  split; [by rewrite N1, N2|]. split; [|split].
  - unfold getInputPortByName. rewrite N1, N2. simpl. rewrite find_app.
    rewrite (find_ext_in _ (fun port0 => String.eqb (m_portName (portAt w port0)) name)).
    + destruct (List.find _ (m_inputs (nodeAt w n))); [done|]. simpl.
      by rewrite P1, P2, String.eqb_refl.
    + intros q Hq. rewrite List.Forall_forall in Hlive. specialize (Hlive q Hq).
      rewrite P1. subst w2.
      replace (portAt (set_node n _ (set_port (nextAddr w) port (snd (alloc w)))) q)
        with (portAt (set_port (nextAddr w) port (snd (alloc w))) q) by done.
      rewrite portAt_set_port_ne by lia. done.
  - intros d Hd. subst w1. rewrite lookupNode_on_node, decide_True by done.
    change (lookupNodeUnlocked w2 n) with (lookupNodeUnlocked w n). rewrite Hd. simpl.
    eexists. split; [done|]. simpl. apply QMapFacts.value_insert_eq.
  - intros Hn. subst w1. unfold on_node.
    change (lookupNodeUnlocked w2 n) with (lookupNodeUnlocked w n). by rewrite Hn.
Qed.

Lemma set_node_still w n o :
  m_nodeName o = m_nodeName (nodeAt w n) -> still w (set_node n o w).
Proof.
  intros Ho. repeat split; try done. intros m. destruct (decide (n = m)) as [->|Hne].
  - by rewrite nodeAt_set_node_eq.
  - by rewrite nodeAt_set_node_ne.
Qed.

(** X23.  [removeInput(p)] on an input of the node takes the first
    occurrence of [p] out of the inputs of the node and unregisters the
    port, but it does not unregister the connections of the port: every
    other port of a registered node has, afterwards, the connections it had
    before, among them the far ends of the connections of [p]; no
    connection item and no port object is changed. *)
Theorem removeInput_keeps_connections_registered (fuel : nat) (w : World) (n : NodePtr)
    (p : PortPtr) :
  WF w ->
  In p (m_inputs (nodeAt w n)) ->
  let w' := removeInput w n p in
  m_inputs (nodeAt w' n) = removeOne p (m_inputs (nodeAt w n))
  /\ (isInputPort (portAt w p) = true ->
      forall d, lookupNodeUnlocked w' n = Some d -> QMap.contains (inputsDescriptor d) p = false)
  /\ (forall q, q <> p -> findNode w (m_moduleName (portAt w q)) <> None ->
        getConnections (S fuel) w' q = getConnections (S fuel) w q)
  /\ connectionItems w' = connectionItems w
  /\ portLabels w' = portLabels w.
Proof.
  intros HW Hin w'. subst w'. unfold removeInput.
  assert (He : existsb (Pos.eqb p) (m_inputs (nodeAt w n)) = true).
  { apply existsb_exists. exists p. by rewrite Pos.eqb_refl. }
  rewrite He.
  set (w1 := set_node n _ w).
  assert (Hs : still w w1) by (by apply set_node_still).
  assert (HW1 : WF w1) by (by apply (WF_registry w)).
  assert (Hu : unregisterInput w1 n p
               = if isInputPort (portAt w p)
                 then on_node n (fun d => set_inputsDescriptor
                                   (QMap.remove p (inputsDescriptor d)) d) w1
                 else w1).
  { unfold unregisterInput, on_node. change (portAt w1 p) with (portAt w p).
    by destruct (isInputPort (portAt w p)). }
  rewrite Hu.
  set (f := fun d => set_inputsDescriptor (QMap.remove p (inputsDescriptor d)) d).
  destruct (on_node_frame n f w1) as (_ & _ & _ & HN & HP & HC & _).
  assert (N1 : nodeAt w1 n = set_m_inputs (removeOne p (m_inputs (nodeAt w n))) (nodeAt w n)).
  { subst w1. by rewrite nodeAt_set_node_eq. }
  split; [|split; [|split; [|split]]].
  - destruct (isInputPort (portAt w p)); [|by rewrite N1].
    unfold nodeAt at 1. rewrite HN. fold (nodeAt w1 n). by rewrite N1.
  - intros Hi d. rewrite Hi, lookupNode_on_node, decide_True by done.
    destruct (lookupNodeUnlocked w1 n) as [d0|]; [|done]. simpl. intros [= <-].
    subst f. simpl. apply QMapFacts.contains_false, QMapFacts.value_remove_eq.
  - intros q Hq Hfq.
    assert (G1 : getConnections (S fuel) w1 q = getConnections (S fuel) w q)
      by (apply getConnections_same_graph, still_same_graph, Hs).
    destruct (isInputPort (portAt w p)); [|done].
    rewrite <- G1. apply getConnections_on_node_other; try done.
    + intros d. subst f. simpl. rewrite !connectionsIn_at. simpl. unfold QMap.at_.
      by rewrite QMapFacts.value_remove_ne.
    + change (portAt w1 q) with (portAt w q).
      by rewrite (findNode_same_graph _ _ _ (still_same_graph _ _ Hs)).
  - destruct (isInputPort (portAt w p)); [by rewrite HC | done].
  - destruct (isInputPort (portAt w p)); [by rewrite HP | done].
Qed.

(** ** Grouping hides the member nodes, ungrouping shows them again *)

Lemma set_ports_visible_heap val l w :
  let w' := fold_left (fun w p => set_port p (set_port_visible val (portAt w p)) w) l w in
  nodeItems w' = nodeItems w /\ registry w' = registry w /\ nextAddr w' = nextAddr w
  /\ connectionItems w' = connectionItems w.
Proof.
  revert w. induction l as [|p l IH]; intros w; simpl; [done|].
  destruct (IH (set_port p (set_port_visible val (portAt w p)) w)) as (A & B & C & D).
  simpl in *. by rewrite A, B, C, D.
Qed.

Lemma set_ports_visible_portAt val l w q :
  portAt (fold_left (fun w p => set_port p (set_port_visible val (portAt w p)) w) l w) q
  = if existsb (Pos.eqb q) l then set_port_visible val (portAt w q) else portAt w q.
Proof.
  revert w. induction l as [|p l IH]; intros w; simpl; [done|]. rewrite IH.
  destruct (Pos.eqb q p) eqn:E; simpl.
  - apply Pos.eqb_eq in E as ->. rewrite portAt_set_port_eq. by destruct (existsb _ l).
  - apply Pos.eqb_neq in E. by rewrite portAt_set_port_ne.
Qed.

(** [changeNodeVisibility(val)] followed by [setFlag(ItemIsMovable, val)],
    as the constructor of a group and [ungroup] call them on a member. *)
Lemma show_member_nodeAt val w n m :
  nodeAt (setMovable (changeNodeVisibility w n val) n val) m
  = if decide (n = m) then set_shown val val (nodeAt w n) else nodeAt w m.
Proof.
  unfold setMovable, changeNodeVisibility.
  set (w1 := set_node n _ w).
  destruct (set_ports_visible_heap val
              (m_inputs (nodeAt w n) ++ m_outputs (nodeAt w n)
               ++ QMap.keys (m_parameterPorts (nodeAt w n))) w1)
    as (A & _). cbv zeta in A.
  set (w2 := fold_left _ _ w1) in *.
  assert (N2 : forall x, nodeAt w2 x = nodeAt w1 x) by (intros x; unfold nodeAt; by rewrite A).
  destruct (decide (n = m)) as [<-|Hne].
  - rewrite nodeAt_set_node_eq, N2. subst w1. by rewrite nodeAt_set_node_eq.
  - rewrite nodeAt_set_node_ne by done. rewrite N2. subst w1. by rewrite nodeAt_set_node_ne.
Qed.

Lemma show_member_portAt val w n q :
  portAt (setMovable (changeNodeVisibility w n val) n val) q
  = if existsb (Pos.eqb q) (m_inputs (nodeAt w n) ++ m_outputs (nodeAt w n)
                            ++ QMap.keys (m_parameterPorts (nodeAt w n)))
    then set_port_visible val (portAt w q) else portAt w q.
Proof.
  unfold setMovable, changeNodeVisibility.
  set (w1 := set_node n _ w). set (w2 := fold_left _ _ w1).
  change (portAt (set_node n _ w2) q) with (portAt w2 q).
  subst w2. rewrite set_ports_visible_portAt. done.
Qed.

Lemma show_member_heap val w n :
  let w' := setMovable (changeNodeVisibility w n val) n val in
  registry w' = registry w /\ nextAddr w' = nextAddr w
  /\ connectionItems w' = connectionItems w.
Proof.
  unfold setMovable, changeNodeVisibility.
  set (w1 := set_node n _ w).
  destruct (set_ports_visible_heap val
              (m_inputs (nodeAt w n) ++ m_outputs (nodeAt w n)
               ++ QMap.keys (m_parameterPorts (nodeAt w n))) w1)
    as (_ & B & C & D). cbv zeta in *. simpl. by rewrite B, C, D.
Qed.

Lemma PortsAreCompatible_hidden fuel w p q :
  port_isVisible (portAt w p) = false ->
  PortsAreCompatible fuel w p q = Some false /\ PortsAreCompatible fuel w q p = Some false.
Proof.
  intros H. unfold PortsAreCompatible. rewrite H. simpl.
  by destruct (port_isVisible (portAt w q)).
Qed.

(** X24.  [ungroup] shows the member nodes again: afterwards every node
    that was a member of the group is visible and movable, the inputs and
    outputs of the members are visible, and the group has no members and no
    ports left.  The registry is touched only through
    [unregisterForwardPort]. *)
Theorem ungroup_shows_members (w : World) (g : NodePtr) :
  let w' := ungroup w g in
  group_nodes (nodeAt w' g) = []
  /\ m_inputs (nodeAt w' g) = [] /\ m_outputs (nodeAt w' g) = []
  /\ m_parameterPorts (nodeAt w' g) = []
  /\ m_nodes (registry w') = m_nodes (registry w)
  /\ (forall n, In n (group_nodes (nodeAt w g)) ->
        node_isVisible (nodeAt w' n) = true /\ node_isMovable (nodeAt w' n) = true
        /\ (n <> g -> m_inputs (nodeAt w' n) = m_inputs (nodeAt w n)
                      /\ m_outputs (nodeAt w' n) = m_outputs (nodeAt w n)
                      /\ forall p, In p (m_inputs (nodeAt w n) ++ m_outputs (nodeAt w n)) ->
                           port_isVisible (portAt w' p) = true)).
Proof.
  intros w'. subst w'. unfold ungroup.
  set (w1 := disconnectAllPorts w g).
  set (step := fun w n =>
        fold_left (fun w p => unregisterForwardPort w g p)
          (m_inputs (nodeAt (setMovable (changeNodeVisibility w n true) n true) n)
           ++ m_outputs (nodeAt (setMovable (changeNodeVisibility w n true) n true) n)
           ++ QMap.keys (m_parameterPorts
                           (nodeAt (setMovable (changeNodeVisibility w n true) n true) n)))
          (setMovable (changeNodeVisibility w n true) n true)).
  assert (U : forall l w0,
            let w2 := fold_left (fun w p => unregisterForwardPort w g p) l w0 in
            nodeItems w2 = nodeItems w0 /\ portLabels w2 = portLabels w0
            /\ m_nodes (registry w2) = m_nodes (registry w0)).
  { induction l as [|p l IH]; intros w0; simpl; [done|].
    destruct (IH (unregisterForwardPort w0 g p)) as (A & B & C). cbv zeta in *.
    rewrite A, B, C. unfold unregisterForwardPort. by destruct (lookupGroupUnlocked w0 g). }
  assert (S1 : forall w0 n m, nodeAt (step w0 n) m
               = if decide (n = m) then set_shown true true (nodeAt w0 n) else nodeAt w0 m).
  { intros w0 n m. subst step. simpl.
    destruct (U (m_inputs (nodeAt (setMovable (changeNodeVisibility w0 n true) n true) n)
                 ++ m_outputs (nodeAt (setMovable (changeNodeVisibility w0 n true) n true) n)
                 ++ QMap.keys (m_parameterPorts
                                 (nodeAt (setMovable (changeNodeVisibility w0 n true) n true) n)))
                (setMovable (changeNodeVisibility w0 n true) n true)) as (A & _).
    cbv zeta in A. unfold nodeAt at 1. rewrite A.
    apply (show_member_nodeAt true w0 n m). }
  assert (S2 : forall w0 n q, portAt (step w0 n) q
               = if existsb (Pos.eqb q) (m_inputs (nodeAt w0 n) ++ m_outputs (nodeAt w0 n)
                                         ++ QMap.keys (m_parameterPorts (nodeAt w0 n)))
                 then set_port_visible true (portAt w0 q) else portAt w0 q).
  { intros w0 n q. subst step. simpl.
    destruct (U (m_inputs (nodeAt (setMovable (changeNodeVisibility w0 n true) n true) n)
                 ++ m_outputs (nodeAt (setMovable (changeNodeVisibility w0 n true) n true) n)
                 ++ QMap.keys (m_parameterPorts
                                 (nodeAt (setMovable (changeNodeVisibility w0 n true) n true) n)))
                (setMovable (changeNodeVisibility w0 n true) n true)) as (_ & B & _).
    cbv zeta in B. unfold portAt at 1. rewrite B.
    apply (show_member_portAt true w0 n q). }
  assert (S3 : forall w0 n, m_nodes (registry (step w0 n)) = m_nodes (registry w0)).
  { intros w0 n. subst step. simpl.
    destruct (U (m_inputs (nodeAt (setMovable (changeNodeVisibility w0 n true) n true) n)
                 ++ m_outputs (nodeAt (setMovable (changeNodeVisibility w0 n true) n true) n)
                 ++ QMap.keys (m_parameterPorts
                                 (nodeAt (setMovable (changeNodeVisibility w0 n true) n true) n)))
                (setMovable (changeNodeVisibility w0 n true) n true)) as (_ & _ & C).
    cbv zeta in C. rewrite C.
    by destruct (show_member_heap true w0 n) as (-> & _). }
  change (fold_left _ (group_nodes (nodeAt w1 g)) w1)
    with (fold_left step (group_nodes (nodeAt w1 g)) w1).
  assert (G1 : group_nodes (nodeAt w1 g) = group_nodes (nodeAt w g)).
  { subst w1. unfold disconnectAllPorts. by rewrite nodeAt_set_node_eq. }
  rewrite G1.
  (* what the loop keeps and what it establishes *)
  assert (L : forall l w0,
            let w2 := fold_left step l w0 in
            m_nodes (registry w2) = m_nodes (registry w0)
            /\ (forall m, m_inputs (nodeAt w2 m) = m_inputs (nodeAt w0 m)
                          /\ m_outputs (nodeAt w2 m) = m_outputs (nodeAt w0 m)
                          /\ m_parameterPorts (nodeAt w2 m) = m_parameterPorts (nodeAt w0 m)
                          /\ group_nodes (nodeAt w2 m) = group_nodes (nodeAt w0 m)
                          /\ is_group (nodeAt w2 m) = is_group (nodeAt w0 m))
            /\ (forall m, node_isVisible (nodeAt w0 m) = true /\ node_isMovable (nodeAt w0 m) = true
                          \/ In m l ->
                  node_isVisible (nodeAt w2 m) = true /\ node_isMovable (nodeAt w2 m) = true)
            /\ (forall q, port_isVisible (portAt w0 q) = true
                          \/ (exists m, In m l /\ In q (m_inputs (nodeAt w0 m)
                                                       ++ m_outputs (nodeAt w0 m))) ->
                  port_isVisible (portAt w2 q) = true)).
  { induction l as [|n l IH]; intros w0; simpl.
    - split; [done|]. split; [done|]. split.
      + intros m [H|[]]. done.
      + intros q [H|(m & [] & _)]. done.
    - destruct (IH (step w0 n)) as (R & K & V & P). cbv zeta in *.
      assert (K0 : forall m, m_inputs (nodeAt (step w0 n) m) = m_inputs (nodeAt w0 m)
                    /\ m_outputs (nodeAt (step w0 n) m) = m_outputs (nodeAt w0 m)
                    /\ m_parameterPorts (nodeAt (step w0 n) m) = m_parameterPorts (nodeAt w0 m)
                    /\ group_nodes (nodeAt (step w0 n) m) = group_nodes (nodeAt w0 m)
                    /\ is_group (nodeAt (step w0 n) m) = is_group (nodeAt w0 m)).
      { intros m. rewrite S1. by destruct (decide (n = m)) as [<-|]. }
      split; [by rewrite R, S3|]. split; [|split].
      + intros m. destruct (K m) as (A & B & C & D & E), (K0 m) as (A0 & B0 & C0 & D0 & E0).
        by rewrite A, B, C, D, E.
      + intros m Hm. apply V. rewrite S1.
        destruct (decide (n = m)) as [<-|Hne]; [by left|].
        destruct Hm as [Hm|[Hm|Hm]]; [by left | done | by right].
      + intros q Hq. apply P. rewrite S2.
        destruct (existsb (Pos.eqb q) (m_inputs (nodeAt w0 n) ++ m_outputs (nodeAt w0 n)
                                        ++ QMap.keys (m_parameterPorts (nodeAt w0 n)))) eqn:E;
          [by left|].
        destruct Hq as [Hq|(m & [<-|Hm] & Hq)]; [by left | | ].
        * exfalso. assert (E' : existsb (Pos.eqb q)
                               (m_inputs (nodeAt w0 n) ++ m_outputs (nodeAt w0 n)
                                ++ QMap.keys (m_parameterPorts (nodeAt w0 n))) = true).
          { apply existsb_exists. exists q. rewrite Pos.eqb_refl. split; [|done].
            rewrite app_assoc. apply in_or_app. by left. }
          congruence.
        * right. exists m. split; [done|]. destruct (K0 m) as (A0 & B0 & _).
          by rewrite A0, B0. }
  destruct (L (group_nodes (nodeAt w g)) w1) as (R & K & V & P). cbv zeta in *.
  set (w2 := fold_left step (group_nodes (nodeAt w g)) w1) in *.
  rewrite nodeAt_set_node_eq. simpl.
  destruct (K g) as (A & B & C & D & E).
  assert (N1 : nodeAt w1 g = set_m_parameterPorts [] (set_m_outputs [] (set_m_inputs [] (nodeAt w g)))).
  { subst w1. unfold disconnectAllPorts. by rewrite nodeAt_set_node_eq. }
  split; [done|]. split; [by rewrite A, N1|]. split; [by rewrite B, N1|].
  split; [by rewrite C, N1|]. split; [by rewrite R|].
  intros n Hn.
  assert (O1 : forall m, m <> g -> nodeAt w1 m = nodeAt w m).
  { intros m Hm. subst w1. unfold disconnectAllPorts. by rewrite nodeAt_set_node_ne. }
  destruct (V n (or_intror Hn)) as [Vn Mn].
  destruct (decide (g = n)) as [<-|Hne].
  - rewrite nodeAt_set_node_eq. simpl. split; [done|]. split; [done|]. done.
  - rewrite nodeAt_set_node_ne by done. split; [done|]. split; [done|]. intros _.
    destruct (K n) as (An & Bn & _). rewrite An, Bn, (O1 n) by done.
    split; [done|]. split; [done|]. intros p Hp.
    change (portAt (set_node g _ w2) p) with (portAt w2 p).
    apply P. right. exists n. split; [done|]. by rewrite (O1 n).
Qed.

Lemma apart_refl this a w : apart this a w w.
Proof. intros Ha. done. Qed.

Lemma apart_trans this a w1 w2 w3 :
  apart this a w1 w2 -> apart this a w2 w3 -> apart this a w1 w3.
Proof.
  intros H1 H2 Ha. destruct (H1 Ha) as (A1 & N1 & P1). destruct (H2 A1) as (A2 & N2 & P2).
  split; [done|]. split.
  - intros n Hn. by rewrite N2, N1.
  - intros p Hp. by rewrite P2, P1.
Qed.

Lemma apart_fold {X : Type} this a (f : World -> X -> World) (l : list X) (w : World) :
  (forall w x, apart this a w (f w x)) -> apart this a w (fold_left f l w).
Proof.
  intros Hf. revert w. induction l as [|x l IH]; intros w; simpl; [apply apart_refl|].
  eapply apart_trans; [apply Hf | apply IH].
Qed.

Lemma apart_iter this a (f : World -> World) (k : nat) (w : World) :
  (forall w, apart this a w (f w)) -> apart this a w (Nat.iter k f w).
Proof.
  intros Hf. induction k as [|k IH]; simpl; [apply apart_refl|].
  eapply apart_trans; [apply IH | apply Hf].
Qed.

Lemma apart_of_heap this a w w' :
  (nextAddr w <= nextAddr w')%positive ->
  (forall n, n <> this -> nodeAt w' n = nodeAt w n) ->
  (forall p, (p < nextAddr w)%positive -> portAt w' p = portAt w p) ->
  apart this a w w'.
Proof.
  intros A N P Ha. split; [lia|]. split; [done|]. intros p Hp. apply P. lia.
Qed.

Lemma registerPort_heap o w n p :
  nodeItems (registerPort o w n p) = nodeItems w
  /\ portLabels (registerPort o w n p) = portLabels w
  /\ nextAddr (registerPort o w n p) = nextAddr w.
Proof.
  destruct o; simpl; unfold registerInput, registerOutput, registerParameter;
    match goal with |- context [if ?b then _ else _] => destruct b end; try done;
    by destruct (lookupNodeUnlocked w n).
Qed.

Lemma registerForward_heap k w g f a :
  nodeItems (registerForward k w g f a) = nodeItems w
  /\ nextAddr (registerForward k w g f a) = nextAddr w
  /\ forall q, q <> f -> portAt (registerForward k w g f a) q = portAt w q.
Proof.
  destruct (lookupGroupUnlocked w g) as [gd|] eqn:Hg.
  - destruct (registerForward_store k w g f a gd Hg) as (gd' & -> & _).
    split; [done|]. split; [done|]. intros q Hq. unfold copyTagsFrom.
    by apply (portAt_set_port_ne (store_group g gd' w) f q).
  - destruct k; simpl;
      unfold registerForwardInput, registerForwardOutput, registerForwardParameter;
      by rewrite Hg.
Qed.

Lemma apart_alloc this a w w1 : apart this a w w1 -> apart this a w (snd (alloc w1)).
Proof.
  intros H Ha. destruct (H Ha) as (A & N & P). split; [simpl; lia|]. done.
Qed.

Lemma apart_set_node this a w w1 o : apart this a w w1 -> apart this a w (set_node this o w1).
Proof.
  intros H Ha. destruct (H Ha) as (A & N & P). split; [done|]. split; [|done].
  intros n Hn. rewrite nodeAt_set_node_ne by done. auto.
Qed.

Lemma apart_set_port this a w w1 p o :
  apart this a w w1 -> ((a <= nextAddr w)%positive -> (a <= p)%positive) ->
  apart this a w (set_port p o w1).
Proof.
  intros H Hp Ha. destruct (H Ha) as (A & N & P). specialize (Hp Ha).
  split; [done|]. split; [done|].
  intros q Hq. rewrite portAt_set_port_ne by lia. auto.
Qed.

Lemma apart_registerPort this a w w1 o n p :
  apart this a w w1 -> apart this a w (registerPort o w1 n p).
Proof.
  intros H Ha. destruct (H Ha) as (A & N & P).
  destruct (registerPort_heap o w1 n p) as (E1 & E2 & E3).
  split; [by rewrite E3|]. split.
  - intros m Hm. unfold nodeAt at 1. rewrite E1. by apply N.
  - intros q Hq. unfold portAt at 1. rewrite E2. by apply P.
Qed.

Lemma apart_registerForward this a w w1 k g f actual :
  apart this a w w1 -> ((a <= nextAddr w)%positive -> (a <= f)%positive) ->
  apart this a w (registerForward k w1 g f actual).
Proof.
  intros H Hf Ha. destruct (H Ha) as (A & N & P). specialize (Hf Ha).
  destruct (registerForward_heap k w1 g f actual) as (E1 & E2 & E3).
  split; [by rewrite E2|]. split.
  - intros m Hm. unfold nodeAt at 1. rewrite E1. by apply N.
  - intros q Hq. rewrite E3 by lia. by apply P.
Qed.

Lemma addOutput_unfold w n name :
  addOutput w n name
  = (registerOutput
       (set_node n (set_m_outputs (m_outputs (nodeAt w n) ++ [nextAddr w]) (nodeAt w n))
          (set_port (nextAddr w)
             {| m_portName := name; m_portDisplayName := name;
                m_moduleName := m_nodeName (nodeAt w n); m_orientation := Output;
                m_tags := 0%N; port_isVisible := node_isVisible (nodeAt w n);
                port_parentItem := Some n |} (snd (alloc w))))
       n (nextAddr w), nextAddr w).
Proof. reflexivity. Qed.

Lemma addParamInput_unfold w n name :
  addParamInput w n name
  = (registerParameter
       (set_port (nextAddr w)
          {| m_portName := name; m_portDisplayName := name;
             m_moduleName := m_nodeName (nodeAt w n); m_orientation := Parameter_;
             m_tags := 0%N; port_isVisible := node_isVisible (nodeAt w n);
             port_parentItem := Some n |} (snd (alloc w)))
       n (nextAddr w), nextAddr w).
Proof. reflexivity. Qed.

Lemma apart_mirrorInput this a w p : apart this a w (mirrorInput this w p).
Proof.
  unfold mirrorInput. rewrite addInput_unfold. cbv beta iota zeta.
  apply (apart_registerForward this a w _ ForwardInput); [|done].
  apply apart_set_port; [|done].
  apply (apart_registerPort this a w _ Input).
  apply apart_set_node, apart_set_port; [|done].
  apply apart_alloc, apart_refl.
Qed.

Lemma apart_mirrorOutput this a w p : apart this a w (mirrorOutput this w p).
Proof.
  unfold mirrorOutput. rewrite addOutput_unfold. cbv beta iota zeta.
  apply (apart_registerForward this a w _ ForwardOutput); [|done].
  apply apart_set_port; [|done].
  apply (apart_registerPort this a w _ Output).
  apply apart_set_node, apart_set_port; [|done].
  apply apart_alloc, apart_refl.
Qed.

Lemma apart_addGroupWidget this a p name w : apart this a w (addGroupWidget this p name w).
Proof.
  unfold addGroupWidget, addParameter. rewrite addParamInput_unfold. cbv beta iota zeta.
  apply (apart_registerForward this a w _ ForwardParameter); [|done].
  apply apart_set_port; [|done].
  apply apart_set_node.
  apply (apart_registerPort this a w _ Parameter_).
  apply apart_set_port; [|done].
  apply apart_alloc, apart_refl.
Qed.

Lemma apart_mirrorPorts this a w : apart this a w (mirrorPorts w this).
Proof.
  unfold mirrorPorts. apply apart_fold. intros w0 n.
  set (w1 := fold_left (mirrorInput this) _ w0).
  apply apart_trans with w1; [subst w1|]; apply apart_fold; intros;
    [apply apart_mirrorInput | apply apart_mirrorOutput].
Qed.

Lemma apart_mirrorParams this a w : apart this a w (mirrorParams w this).
Proof.
  unfold mirrorParams. apply apart_fold. intros w0 [name [p widget]].
  apply apart_iter. intros. apply apart_addGroupWidget.
Qed.

Lemma newNodeItem_unfold w name displayed :
  newNodeItem w name displayed
  = (fst (registerNode
            (set_node (nextAddr w)
               {| m_nodeName := name;
                  m_displayedNodeName := if String.eqb displayed "" then name else displayed;
                  m_inputs := []; m_outputs := []; m_parameterPorts := [];
                  node_isActive := false; node_isVisible := true; node_isMovable := true;
                  is_group := false; group_nodes := [] |} (snd (alloc w))) (nextAddr w)),
     nextAddr w).
Proof. reflexivity. Qed.

Lemma registerNode_heap w n :
  nodeItems (fst (registerNode w n)) = nodeItems w
  /\ portLabels (fst (registerNode w n)) = portLabels w
  /\ nextAddr (fst (registerNode w n)) = nextAddr w.
Proof.
  unfold registerNode. destruct (is_group _); [done|]. by destruct (QMap.value _ _).
Qed.

Lemma registerGroup_heap w g :
  nodeItems (fst (registerGroup w g)) = nodeItems w
  /\ portLabels (fst (registerGroup w g)) = portLabels w
  /\ nextAddr (fst (registerGroup w g)) = nextAddr w.
Proof. unfold registerGroup. by destruct (QMap.value _ _). Qed.

(** X25.  Grouping hides the member nodes.  When the constructor of a group
    returns, every node handed to it is invisible and no longer movable and
    keeps its inputs and outputs, which are invisible as well, so
    [PortsAreCompatible] refuses them with any port, in either order:
    while the group stands, connections are made through its forward
    ports. *)
Theorem newGroupItem_hides_members (w : World) (nodes : list NodePtr) (w' : World)
    (g : NodePtr) :
  newGroupItem w nodes = Some (w', g) ->
  g = nextAddr w
  /\ forall n, In n nodes -> (n < nextAddr w)%positive ->
       node_isVisible (nodeAt w' n) = false /\ node_isMovable (nodeAt w' n) = false
       /\ m_inputs (nodeAt w' n) = m_inputs (nodeAt w n)
       /\ m_outputs (nodeAt w' n) = m_outputs (nodeAt w n)
       /\ forall p, In p (m_inputs (nodeAt w n) ++ m_outputs (nodeAt w n)) ->
            (p < nextAddr w)%positive ->
            port_isVisible (portAt w' p) = false
            /\ forall fuel q, PortsAreCompatible fuel w' p q = Some false
                              /\ PortsAreCompatible fuel w' q p = Some false.
Proof.
  unfold newGroupItem. rewrite newNodeItem_unfold. cbv beta iota zeta.
  set (this := nextAddr w).
  set (w0 := set_node this _ (snd (alloc w))).
  set (w1 := fst (registerNode w0 this)).
  set (w2 := set_node this _ w1).
  set (w3 := fst (registerGroup w2 this)).
  set (step := fun w n =>
        setMovable
          (changeNodeVisibility
             (if existsb (Pos.eqb n) (group_nodes (nodeAt w this)) then w
              else set_node this
                     (set_group (is_group (nodeAt w this))
                        (group_nodes (nodeAt w this) ++ [n]) (nodeAt w this)) w)
             n false) n false).
  change (fold_left _ nodes w3) with (fold_left step nodes w3).
  set (w4 := fold_left step nodes w3).
  destruct (buildTitle w4 this) as [title|]; [|done].
  set (w5 := set_node this _ w4).
  intros [= <- <-]. split; [done|].
  (* the heap before the loop *)
  destruct (registerNode_heap w0 this) as (N1 & P1 & A1). fold w1 in N1, P1, A1.
  destruct (registerGroup_heap w2 this) as (N3 & P3 & A3). fold w3 in N3, P3, A3.
  assert (B3n : forall m, m <> this -> nodeAt w3 m = nodeAt w m).
  { intros m Hm. unfold nodeAt at 1. rewrite N3. fold (nodeAt w2 m). subst w2.
    rewrite nodeAt_set_node_ne by done. unfold nodeAt at 1. rewrite N1. fold (nodeAt w0 m).
    subst w0. by rewrite nodeAt_set_node_ne. }
  assert (B3p : forall q, portAt w3 q = portAt w q).
  { intros q. unfold portAt at 1. by rewrite P3; simpl; rewrite P1. }
  assert (B3a : nextAddr w3 = Pos.succ (nextAddr w)).
  { rewrite A3. simpl. by rewrite A1. }
  (* one turn of the loop *)
  assert (W : forall w0 n m, m <> this ->
            nodeAt (if existsb (Pos.eqb n) (group_nodes (nodeAt w0 this)) then w0
                    else set_node this
                           (set_group (is_group (nodeAt w0 this))
                              (group_nodes (nodeAt w0 this) ++ [n]) (nodeAt w0 this)) w0) m
            = nodeAt w0 m).
  { intros v n m Hm. destruct (existsb _ _); [done|]. by rewrite nodeAt_set_node_ne. }
  assert (S1 : forall v n m, m <> this ->
            nodeAt (step v n) m
            = if decide (n = m) then set_shown false false (nodeAt v n) else nodeAt v m).
  { intros v n m Hm. subst step. simpl. rewrite show_member_nodeAt.
    destruct (decide (n = m)) as [->|Hne]; by rewrite W. }
  assert (S2 : forall v n q,
            portAt (step v n) q
            = if existsb (Pos.eqb q)
                   (m_inputs (nodeAt (if existsb (Pos.eqb n) (group_nodes (nodeAt v this)) then v
                      else set_node this
                             (set_group (is_group (nodeAt v this))
                                (group_nodes (nodeAt v this) ++ [n]) (nodeAt v this)) v) n)
                    ++ m_outputs (nodeAt (if existsb (Pos.eqb n) (group_nodes (nodeAt v this))
                      then v
                      else set_node this
                             (set_group (is_group (nodeAt v this))
                                (group_nodes (nodeAt v this) ++ [n]) (nodeAt v this)) v) n)
                    ++ QMap.keys (m_parameterPorts (nodeAt
                      (if existsb (Pos.eqb n) (group_nodes (nodeAt v this)) then v
                       else set_node this
                              (set_group (is_group (nodeAt v this))
                                 (group_nodes (nodeAt v this) ++ [n]) (nodeAt v this)) v) n)))
              then set_port_visible false (portAt v q) else portAt v q).
  { intros v n q. subst step. simpl. rewrite show_member_portAt.
    by destruct (existsb (Pos.eqb n) (group_nodes (nodeAt v this))). }
  assert (S3 : forall v n, nextAddr (step v n) = nextAddr v).
  { intros v n. subst step. cbv beta.
    destruct (show_member_heap false
                (if existsb (Pos.eqb n) (group_nodes (nodeAt v this)) then v
                 else set_node this
                        (set_group (is_group (nodeAt v this))
                           (group_nodes (nodeAt v this) ++ [n]) (nodeAt v this)) v) n)
      as (_ & A & _). cbv zeta in A. rewrite A. by destruct (existsb _ _). }
  assert (L : forall l v,
            let v2 := fold_left step l v in
            nextAddr v2 = nextAddr v
            /\ (forall m, m <> this ->
                  m_inputs (nodeAt v2 m) = m_inputs (nodeAt v m)
                  /\ m_outputs (nodeAt v2 m) = m_outputs (nodeAt v m))
            /\ (forall m, m <> this ->
                  node_isVisible (nodeAt v m) = false /\ node_isMovable (nodeAt v m) = false
                  \/ In m l ->
                  node_isVisible (nodeAt v2 m) = false /\ node_isMovable (nodeAt v2 m) = false)
            /\ (forall q, port_isVisible (portAt v q) = false
                          \/ (exists m, m <> this /\ In m l
                                /\ In q (m_inputs (nodeAt v m) ++ m_outputs (nodeAt v m))) ->
                  port_isVisible (portAt v2 q) = false)).
  { induction l as [|n l IH]; intros v; simpl.
    - split; [done|]. split; [done|]. split.
      + intros m _ [H|[]]. done.
      + intros q [H|(m & _ & [] & _)]. done.
    - destruct (IH (step v n)) as (A & K & V & P). cbv zeta in *.
      assert (K0 : forall m, m <> this ->
                    m_inputs (nodeAt (step v n) m) = m_inputs (nodeAt v m)
                    /\ m_outputs (nodeAt (step v n) m) = m_outputs (nodeAt v m)).
      { intros m Hm. rewrite S1 by done. by destruct (decide (n = m)) as [<-|]. }
      split; [by rewrite A, S3|]. split; [|split].
      + intros m Hm. destruct (K m Hm) as (A1' & B1'), (K0 m Hm) as (A0 & B0).
        by rewrite A1', B1'.
      + intros m Hm Hh. apply V; [done|]. rewrite S1 by done.
        destruct (decide (n = m)) as [<-|Hne]; [by left|].
        destruct Hh as [Hh|[Hh|Hh]]; [by left | done | by right].
      + intros q Hq. apply P. rewrite S2.
        destruct (existsb (Pos.eqb q) _) eqn:E; [by left|].
        destruct Hq as [Hq|(m & Hm & [<-|Hin] & Hq)]; [by left | | ].
        * exfalso. rewrite (W v n n Hm) in E.
          assert (E' : existsb (Pos.eqb q)
                         (m_inputs (nodeAt v n) ++ m_outputs (nodeAt v n)
                          ++ QMap.keys (m_parameterPorts (nodeAt v n))) = true).
          { apply existsb_exists. exists q. rewrite Pos.eqb_refl. split; [|done].
            rewrite app_assoc. apply in_or_app. by left. }
          congruence.
        * right. exists m. split; [done|]. split; [done|].
          destruct (K0 m Hm) as (A0 & B0). by rewrite A0, B0. }
  destruct (L nodes w3) as (A4 & K4 & V4 & P4). cbv zeta in *. fold w4 in A4, K4, V4, P4.
  (* the mirrored ports are new ports of the group *)
  assert (Hap : apart this (nextAddr w) w5 (mirrorParams (mirrorPorts w5 this) this)).
  { eapply apart_trans; [apply apart_mirrorPorts | apply apart_mirrorParams]. }
  destruct Hap as (_ & N6 & P6).
  { subst w5. simpl. rewrite A4, B3a. lia. }
  intros n Hn Hlt.
  assert (Hne : n <> this) by (subst this; lia).
  rewrite (N6 n Hne). subst w5. rewrite nodeAt_set_node_ne by done.
  destruct (V4 n Hne (or_intror Hn)) as [Vn Mn]. destruct (K4 n Hne) as [In4 Out4].
  split; [done|]. split; [done|].
  split; [by rewrite In4, B3n|]. split; [by rewrite Out4, B3n|].
  intros p Hp Hpl.
  assert (Hv : port_isVisible (portAt (mirrorParams (mirrorPorts (set_node this
                 (set_names title title (nodeAt w4 this)) w4) this) this) p) = false).
  { rewrite (P6 p Hpl). change (portAt (set_node this _ w4) p) with (portAt w4 p).
    apply P4. right. exists n. split; [done|]. split; [done|]. by rewrite B3n. }
  split; [done|]. intros fuel q. by apply PortsAreCompatible_hidden.
Qed.

(** ** The controls of connected parameter ports *)

Lemma anyM_ext {A : Type} (f g : A -> option bool) (l : list A) :
  (forall x, f x = g x) -> anyM f l = anyM g l.
Proof. intros H. induction l as [|x l IH]; simpl; [done|]. by rewrite H, IH. Qed.

Lemma hasConnection_same_graph fuel w w' p :
  same_graph w w' -> hasConnection fuel w' p = hasConnection fuel w p.
Proof.
  intros Hs. revert p. induction fuel as [|fuel IH]; intros p; [done|].
  rewrite !hasConnection_S, (getConnections_same_graph _ _ _ _ Hs).
  destruct Hs as (Hr & _). unfold getAllForwardedPortsFromAPort. rewrite Hr.
  by rewrite (anyM_ext _ _ _ IH).
Qed.

Lemma disableWidgets_refreshed fuel item w ps v w' :
  same_graph w v ->
  disableWidgets fuel item v ps = Some w' ->
  m_parameterPorts (nodeAt w' item)
  = refreshed (hasConnection fuel w) ps (m_parameterPorts (nodeAt v item))
  /\ (forall kv, In kv ps -> hasConnection fuel w (fst kv) <> None)
  /\ (forall n, n <> item -> nodeAt w' n = nodeAt v n).
Proof.
  revert v. induction ps as [|[pPort proxy] ps IH]; intros v Hs; simpl.
  - intros [= <-]. done.
  - rewrite (hasConnection_same_graph _ _ _ _ Hs).
    destruct (hasConnection fuel w pPort) as [b|] eqn:Hb; [|done].
    intros H. apply IH in H as (E & F & N).
    + rewrite nodeAt_set_node_eq in E. simpl in E. split; [done|]. split.
      * intros kv [<-|Hin]; [simpl; congruence | by apply F].
      * intros n Hn. rewrite N by done. by rewrite nodeAt_set_node_ne.
    + destruct Hs as (R & P & Nm). split; [done|]. split; [done|].
      intros n. destruct (decide (item = n)) as [->|Hne].
      * rewrite nodeAt_set_node_eq. simpl. apply Nm.
      * rewrite nodeAt_set_node_ne by done. apply Nm.
Qed.

Lemma disableWidgets_total fuel item w rank ps v :
  same_graph w v -> ranked w rank ->
  (forall kv, In kv ps -> rank (fst kv) + 1 < fuel) ->
  exists w', disableWidgets fuel item v ps = Some w'.
Proof.
  intros Hs Hr. revert v Hs. induction ps as [|[pPort proxy] ps IH]; intros v Hs Hf; simpl.
  - by eexists.
  - rewrite (hasConnection_same_graph _ _ _ _ Hs).
    destruct (hasConnection_total w rank fuel pPort Hr) as [b ->].
    { apply (Hf (pPort, proxy)). by left. }
    apply IH; [|intros kv Hkv; apply Hf; by right].
    destruct Hs as (R & P & Nm). split; [done|]. split; [done|].
    intros n. destruct (decide (item = n)) as [->|Hne].
    + rewrite nodeAt_set_node_eq. simpl. apply Nm.
    + rewrite nodeAt_set_node_ne by done. apply Nm.
Qed.

Lemma value_refreshed connected (ps m : QMap.t ParamWidget) p :
  ascending (QMap.keys ps) ->
  QMap.value (refreshed connected ps m) p
  = match QMap.value ps p, connected p with
    | Some x, Some b => Some (set_widget_enabled (negb b) x)
    | _, _ => QMap.value m p
    end.
Proof.
  unfold refreshed. revert m. induction ps as [|[k x] ps IH]; intros m; simpl; [done|].
  intros [H1 H2]. rewrite IH by done.
  destruct (Pos.eqb k p) eqn:E.
  - apply Pos.eqb_eq in E as ->. rewrite (QMapOrder.lt_value_None ps p H1).
    destruct (connected p); [|done]. apply QMapFacts.value_insert_eq.
  - apply Pos.eqb_neq in E. destruct (QMap.value ps p) as [y|]; simpl.
    + destruct (connected p); [done|].
      destruct (connected k); [by apply QMapFacts.value_insert_ne | done].
    + destruct (connected k); [by apply QMapFacts.value_insert_ne | done].
Qed.

(** X26.  [disableWidgetOfConnectedParametersInput(item)] returns when the
    forwarding tables are ranked, and afterwards the control of every
    parameter port of the node is enabled exactly when the port has no
    connection ([hasConnection] is false); no control is added or dropped,
    and nothing but the controls of this node is changed. *)
Theorem disableWidget_enables_exactly_unconnected (fuel : nat) (w : World) (item : NodePtr)
    (rank : PortPtr -> nat) :
  ascending (QMap.keys (m_parameterPorts (nodeAt w item))) ->
  ranked w rank ->
  (forall p, In p (QMap.keys (m_parameterPorts (nodeAt w item))) -> rank p + 1 < fuel) ->
  exists w', disableWidgetOfConnectedParametersInput fuel w item = Some w'
    /\ (forall p x, QMap.value (m_parameterPorts (nodeAt w item)) p = Some x ->
          exists b, hasConnection fuel w p = Some b
            /\ QMap.value (m_parameterPorts (nodeAt w' item)) p
               = Some (set_widget_enabled (negb b) x))
    /\ (forall p, QMap.value (m_parameterPorts (nodeAt w item)) p = None ->
          QMap.value (m_parameterPorts (nodeAt w' item)) p = None)
    /\ (forall n, n <> item -> nodeAt w' n = nodeAt w n)
    /\ registry w' = registry w /\ portLabels w' = portLabels w
    /\ connectionItems w' = connectionItems w.
Proof.
  intros Ha Hr Hf. unfold disableWidgetOfConnectedParametersInput.
  assert (Hs : same_graph w w) by (by repeat split).
  destruct (disableWidgets_total fuel item w rank (m_parameterPorts (nodeAt w item)) w Hs Hr)
    as [w' Hw'].
  { intros [p x] Hin. apply Hf. apply (in_map fst _ _ Hin). }
  exists w'. split; [done|].
  destruct (disableWidgets_refreshed _ _ _ _ _ _ Hs Hw') as (E & F & N).
  destruct (disableWidgets_still _ _ _ _ _ Hw') as (R & P & C & _).
  split; [|split; [|done]].
  - intros p x Hp. rewrite E, value_refreshed, Hp by done.
    destruct (hasConnection fuel w p) as [b|] eqn:Hb; [eauto|].
    exfalso. apply (F (p, x)); [by apply QMapFacts.value_In | done].
  - intros p Hp. by rewrite E, value_refreshed, Hp.
Qed.

(** ** createConnection *)

Lemma cascadeActive_heap fuel b w outs w' :
  cascadeActive fuel b w outs = Some w' ->
  registry w' = registry w /\ portLabels w' = portLabels w /\ nodeItems w' = nodeItems w.
Proof.
  rewrite cascadeActive_concat. destruct (concatMapM _ _) as [ls|]; [|done].
  intros [= <-]. destruct (setConnectionsActive_frame b ls w) as (H1 & H2 & H3 & _).
  done.
Qed.

Lemma setNodeActive_effect fuel (act : bool) w n w' :
  (if act then activateNode fuel w n else deactivateNode fuel w n) = Some w' ->
  isNodeActive w' n = act
  /\ (forall m, m <> n -> nodeAt w' m = nodeAt w m)
  /\ registry w' = registry w /\ portLabels w' = portLabels w.
Proof.
  unfold activateNode, deactivateNode, isNodeActive. intros H.
  assert (H' : cascadeActive fuel act (set_node n (setActive act (nodeAt w n)) w)
                 (m_outputs (nodeAt (set_node n (setActive act (nodeAt w n)) w) n)) = Some w')
    by (by destruct act).
  destruct (cascadeActive_heap _ _ _ _ _ H') as (R & P & N).
  split; [|split; [|done]].
  - unfold nodeAt. rewrite N. fold (nodeAt (set_node n (setActive act (nodeAt w n)) w) n).
    by rewrite nodeAt_set_node_eq.
  - intros m Hm. unfold nodeAt at 1. rewrite N.
    fold (nodeAt (set_node n (setActive act (nodeAt w n)) w) m).
    by rewrite nodeAt_set_node_ne.
Qed.

(** X27.  [createConnection(port1, port2, isActive)] that returns a
    connection has made it with [createConnectionBetweenPorts] and has then
    set the active flag of one node to [isActive]: the node that the module
    name of the sink of the pair resolves to.  No other node, no port and
    no table of the registry is changed after the connection is made.  A
    call that returns no connection changes nothing. *)
Theorem createConnection_sets_sink_node_active (fuel : nat) (w : World) (p1 p2 : PortPtr)
    (act : bool) (w' : World) :
  (forall c, createConnection fuel w p1 p2 act = Some (w', Some c) ->
     exists w1 nd,
       createConnectionBetweenPorts fuel w p1 p2 = Some (w1, Some c)
       /\ isAnyInputPort (portAt w (if isAnyInputPort (portAt w p1) then p1 else p2)) = true
       /\ findNode w1 (m_moduleName (portAt w (if isAnyInputPort (portAt w p1) then p1 else p2)))
          = Some nd
       /\ isNodeActive w' (nd_node nd) = act
       /\ (forall m, m <> nd_node nd -> nodeAt w' m = nodeAt w1 m)
       /\ registry w' = registry w1 /\ portLabels w' = portLabels w1)
  /\ (createConnection fuel w p1 p2 act = Some (w', None) -> w' = w).
Proof.
  unfold createConnection. split.
  - intros c.
    destruct (createConnectionBetweenPorts fuel w p1 p2) as [[w1 [c1|]]|] eqn:H1; [| |done].
    2: { by intros [= _ ?]. }
    destruct (createConnectionBetweenPorts_steps _ _ _ _ _ _ H1) as (Hc & _ & _ & Hs).
    cbv zeta in Hs. destruct Hs as (_ & P & _).
    match type of P with
    | portLabels w1 = portLabels (registerConnection ?w2 ?x ?y ?z) =>
        destruct (registerConnection_heap w2 x y z) as (_ & P' & _)
    end.
    assert (HP : forall q, portAt w1 q = portAt w q).
    { intros q. unfold portAt. by rewrite P, P'. }
    rewrite !HP.
    destruct (findNode w1 _) as [nd|] eqn:Hf; [|done].
    destruct (if act then activateNode fuel w1 (nd_node nd)
              else deactivateNode fuel w1 (nd_node nd)) as [w2|] eqn:H2; [|done].
    intros [= <- <-]. exists w1, nd.
    destruct (setNodeActive_effect _ _ _ _ _ H2) as (A & N & R & Q).
    split; [done|]. split; [|by repeat split].
    destruct (PortsAreCompatible_true _ _ _ _ Hc) as (_ & _ & _ & Hi & _).
    destruct (isAnyInputPort (portAt w p1)) eqn:E1; [done|].
    by destruct (isAnyInputPort (portAt w p2)).
  - destruct (createConnectionBetweenPorts fuel w p1 p2) as [[w1 [c1|]]|] eqn:H1; [| |done].
    + destruct (findNode w1 _); [|done].
      destruct (if act then _ else _); [|done]. by intros [= _ ?].
    + intros [= <-]. revert H1. unfold createConnectionBetweenPorts.
      destruct (PortsAreCompatible fuel w p1 p2) as [[|]|]; [| |done]; [|by intros [= ?]].
      destruct (hasConnectionTo fuel w p1 p2) as [[|]|]; [| |done]; [by intros [= ?]|].
      simpl. repeat (match goal with
                     | |- context [refreshOwner ?f ?x ?y] => destruct (refreshOwner f x y)
                     end); done.
Qed.

(** ** The further statements at concrete scenes *)

Lemma unlistedb_unlisted w c : unlistedb w c = true -> unlisted w c.
Proof.
  intros H n d q Hn Hin. apply QMapFacts.value_In in Hn.
  unfold unlistedb in H. rewrite forallb_forall in H. specialize (H _ Hn). simpl in H.
  rewrite forallb_forall in H.
  rewrite connectionsIn_at in Hin. unfold QMap.at_ in Hin. rewrite !in_app_iff in Hin.
  assert (F : forall mp : QMap.t (list ConnPtr),
            In c (default [] (QMap.value mp q)) -> exists l, In (q, l) mp /\ In c l).
  { intros mp Hc. destruct (QMap.value mp q) as [l|] eqn:E; [|done].
    exists l. split; [by apply QMapFacts.value_In | done]. }
  assert (G : exists l, In (q, l) (inputsDescriptor d ++ outputsDescriptor d
                                   ++ parametersInputsDescriptor d) /\ In c l).
  { destruct Hin as [Hc|[Hc|Hc]]; apply F in Hc as (l & Hl & Hc); exists l;
      rewrite !in_app_iff; auto. }
  destruct G as (l & Hl & Hc). specialize (H _ Hl). simpl in H.
  apply negb_true_iff in H. 
  assert (E : existsb (Pos.eqb c) l = true).
  { apply existsb_exists. exists c. by rewrite Pos.eqb_refl. }
  congruence.
Qed.

Lemma scene_AB_reachable : reachable 6 scene_AB.
Proof.
  apply (reachable_run_from 0 initWorld (firstn 6 ungroup_commands)).
  - apply reachable_init.
  - vm_compute. tauto.
  - vm_compute. reflexivity.
Qed.

Lemma scene_AB_connected_reachable : reachable 7 scene_AB_connected.
Proof.
  apply (reachable_run_from 0 initWorld (firstn 7 ungroup_commands)).
  - apply reachable_init.
  - vm_compute. tauto.
  - vm_compute. reflexivity.
Qed.

Lemma scene_grouped_reachable : reachable 8 scene_grouped.
Proof.
  apply (reachable_run_from 0 initWorld (firstn 8 ungroup_commands)).
  - apply reachable_init.
  - vm_compute. tauto.
  - vm_compute. reflexivity.
Qed.

(** X3 at ["A.o"] and ["B.i"] of [scene_AB] and a connection item 9. *)
Lemma registerConnection_then_unregisterConnection_witness :
  (WF scene_AB /\ unlisted scene_AB 9)
  /\ getConnections 1 (unregisterConnection (registerConnection scene_AB 3 4 9) 9) 4
     = getConnections 1 scene_AB 4.
Proof.
  assert (HW : WF scene_AB) by (exact (reachable_WF 6 scene_AB scene_AB_reachable)).
  assert (Hu : unlisted scene_AB 9) by (apply unlistedb_unlisted; vm_compute; reflexivity).
  split; [split; [exact HW | exact Hu]|].
  exact (registerConnection_then_unregisterConnection 1 scene_AB 3 4 9 4 HW Hu).
Defined.

(** X4 at the node ["B"] of [scene_unregistered], which is not registered. *)
Lemma registerNode_then_unregisterNode_witness :
  (WF scene_unregistered /\ is_group (nodeAt scene_unregistered 2) = false
   /\ getNode scene_unregistered 2 = None)
  /\ m_nodes (registry (unregisterNode (fst (registerNode scene_unregistered 2)) 2))
     = m_nodes (registry scene_unregistered).
Proof.
  assert (HW : WF scene_unregistered)
    by (exact (reachable_WF 3 scene_unregistered scene_unregistered_reachable)).
  assert (Hg : is_group (nodeAt scene_unregistered 2) = false) by (vm_compute; reflexivity).
  assert (Hn : getNode scene_unregistered 2 = None) by (vm_compute; reflexivity).
  split; [split; [exact HW|]; split; [exact Hg | exact Hn]|].
  destruct (registerNode_then_unregisterNode scene_unregistered 2 HW Hg Hn) as (_ & _ & H & _).
  exact H.
Defined.

(** X5 at the node ["A"] of [scene_unregistered], registered with the id 1:
    unregistered and registered again it gets the id 3. *)
Lemma unregisterNode_then_registerNode_new_id_witness :
  let d := default noNode (getNode scene_unregistered 1) in
  (reachable 3 scene_unregistered /\ (Z.of_nat 3 < INT64_MAX)%Z
   /\ is_group (nodeAt scene_unregistered 1) = false
   /\ getNode scene_unregistered 1 = Some d)
  /\ snd (registerNode (unregisterNode scene_unregistered 1) 1)
     = m_nextNodeId (registry scene_unregistered)
  /\ (nd_uid d < snd (registerNode (unregisterNode scene_unregistered 1) 1))%Z.
Proof.
  intros d.
  assert (Hk : (Z.of_nat 3 < INT64_MAX)%Z) by (vm_compute; reflexivity).
  assert (Hg : is_group (nodeAt scene_unregistered 1) = false) by (vm_compute; reflexivity).
  assert (Hn : getNode scene_unregistered 1 = Some d) by (vm_compute; reflexivity).
  split; [split; [exact scene_unregistered_reachable|]; split; [exact Hk|];
          split; [exact Hg | exact Hn]|].
  destruct (unregisterNode_then_registerNode_new_id 3 scene_unregistered 1 d
              scene_unregistered_reachable Hk Hg Hn) as (_ & _ & H3 & H4 & _).
  split; [exact H3 | exact H4].
Defined.

(** X6 at the input ["B.i"] handed to [registerInput] and [unregisterInput]
    with the node ["A"]. *)
Lemma registerPort_then_unregisterPort_witness :
  (WF scene_AB
   /\ forall d, lookupNodeUnlocked scene_AB 1 = Some d ->
        QMap.contains (portTable Input d) 4 = false)
  /\ unregisterPort Input (registerPort Input scene_AB 1 4) 1 4 = scene_AB.
Proof.
  assert (HW : WF scene_AB) by (exact (reachable_WF 6 scene_AB scene_AB_reachable)).
  assert (Hp : forall d, lookupNodeUnlocked scene_AB 1 = Some d ->
                 QMap.contains (portTable Input d) 4 = false).
  { intros d Hd. vm_compute in Hd. injection Hd as <-. vm_compute. reflexivity. }
  split; [split; [exact HW | exact Hp]|].
  exact (registerPort_then_unregisterPort Input scene_AB 1 4 HW Hp).
Defined.

(** X7 at the connected input ["B.i"]: registered again, it has no
    connections, and ["A.o"] still has the connection 5. *)
Lemma registerPort_again_forgets_connections_witness :
  let w := scene_AB_connected in
  let d := default noNode (findNode w (m_moduleName (portAt w 4))) in
  (WF w /\ m_orientation (portAt w 4) = Input
   /\ findNode w (m_moduleName (portAt w 4)) = Some d /\ nd_node d = 2%positive
   /\ forall o', o' <> Input -> QMap.contains (portTable o' d) 4 = false)
  /\ getConnections 1 w 4 = Some [5%positive]
  /\ getConnections 1 (registerPort Input w 2 4) 4 = Some []
  /\ (3%positive <> 4%positive /\ findNode w (m_moduleName (portAt w 3)) <> None)
  /\ getConnections 1 (registerPort Input w 2 4) 3 = getConnections 1 w 3.
Proof.
  intros w d.
  assert (HW : WF w) by (exact (reachable_WF 7 w scene_AB_connected_reachable)).
  assert (Ho : m_orientation (portAt w 4) = Input) by (vm_compute; reflexivity).
  assert (Hf : findNode w (m_moduleName (portAt w 4)) = Some d) by (vm_compute; reflexivity).
  assert (Hn : nd_node d = 2%positive) by (vm_compute; reflexivity).
  assert (Hother : forall o', o' <> Input -> QMap.contains (portTable o' d) 4 = false).
  { intros o' Ho'.
    destruct o'; [exfalso; exact (Ho' eq_refl) | vm_compute; reflexivity ..]. }
  assert (H34 : 3%positive <> 4%positive) by discriminate.
  assert (Hf3 : findNode w (m_moduleName (portAt w 3)) <> None) by (vm_compute; discriminate).
  destruct (registerPort_again_forgets_connections Input w 2 4 d 0 HW Ho Hf Hn Hother)
    as (H1 & H2).
  split; [split; [exact HW|]; split; [exact Ho|]; split; [exact Hf|];
          split; [exact Hn | exact Hother]|].
  split; [vm_compute; reflexivity|]. split; [exact H1|].
  split; [split; [exact H34 | exact Hf3]|]. exact (H2 3%positive H34 Hf3).
Defined.

(** X8 at the names ["B"] and ["i"] in [scene_AB]. *)
Lemma resolvePort_finds_exactly_registered_ports_witness :
  resolvePort scene_AB "B" "i" = Some 4%positive
  /\ named scene_AB "B" "i" 4.
Proof.
  assert (E : resolvePort scene_AB "B" "i" = Some 4%positive) by (vm_compute; reflexivity).
  split; [exact E|].
  exact (proj1 (proj1 (resolvePort_finds_exactly_registered_ports scene_AB "B" "i")
                  4%positive E)).
Defined.

(** X9 at the input ["B.i"] of [scene_AB], registered once more. *)
Lemma registerPort_then_resolvePort_witness :
  let d := default noNode (lookupNodeUnlocked scene_AB 2) in
  (WF scene_AB /\ m_orientation (portAt scene_AB 4) = Input
   /\ lookupNodeUnlocked scene_AB 2 = Some d
   /\ m_nodeName (nodeAt scene_AB 2) = m_moduleName (portAt scene_AB 4))
  /\ exists q, resolvePort (registerPort Input scene_AB 2 4)
                 (m_moduleName (portAt scene_AB 4)) (m_portName (portAt scene_AB 4)) = Some q
       /\ named scene_AB (m_moduleName (portAt scene_AB 4)) (m_portName (portAt scene_AB 4)) q.
Proof.
  intros d.
  assert (HW : WF scene_AB) by (exact (reachable_WF 6 scene_AB scene_AB_reachable)).
  assert (Ho : m_orientation (portAt scene_AB 4) = Input) by (vm_compute; reflexivity).
  assert (Hn : lookupNodeUnlocked scene_AB 2 = Some d) by (vm_compute; reflexivity).
  assert (Hm : m_nodeName (nodeAt scene_AB 2) = m_moduleName (portAt scene_AB 4))
    by (vm_compute; reflexivity).
  split; [split; [exact HW|]; split; [exact Ho|]; split; [exact Hn | exact Hm]|].
  exact (registerPort_then_resolvePort Input scene_AB 2 4 d HW Ho Hn Hm).
Defined.

(** X10 at the forward output ["A_o"] of the group and the output ["A.o"]. *)
Lemma forwarding_queries_are_inverse_witness :
  WF scene_grouped
  /\ (In 7%positive (getAllPortsForwardedToAPort scene_grouped 3)
      <-> In 3%positive (getAllForwardedPortsFromAPort scene_grouped 7)).
Proof.
  assert (HW : WF scene_grouped) by (exact (reachable_WF 8 scene_grouped scene_grouped_reachable)).
  split; [exact HW|].
  exact (forwarding_queries_are_inverse scene_grouped 7 3 HW).
Defined.

(** X11 at the group of [scene_grouped] and the port ["A.o"] of a member,
    which is the call [ungroup] makes. *)
Lemma unregisterForwardPort_effect_witness :
  (WF scene_grouped
   /\ (3%positive <> 3%positive \/ 7%positive <> 3%positive)
   /\ forall k gd, lookupGroupUnlocked scene_grouped 6 = Some gd ->
        QMap.contains (forwardTable k gd) 3 = false)
  /\ unregisterForwardPort scene_grouped 6 3 = scene_grouped
  /\ forwardedList ForwardOutput (unregisterForwardPort scene_grouped 6 3) 6 7
     = forwardedList ForwardOutput scene_grouped 6 7.
Proof.
  assert (HW : WF scene_grouped) by (exact (reachable_WF 8 scene_grouped scene_grouped_reachable)).
  assert (Hne : 3%positive <> 3%positive \/ 7%positive <> 3%positive) by (right; discriminate).
  assert (Hk : forall k gd, lookupGroupUnlocked scene_grouped 6 = Some gd ->
                 QMap.contains (forwardTable k gd) 3 = false).
  { intros k gd Hg. vm_compute in Hg. injection Hg as <-.
    destruct k; vm_compute; reflexivity. }
  destruct (unregisterForwardPort_effect scene_grouped 6 3 HW) as (_ & H2 & _ & _ & H5).
  split; [split; [exact HW|]; split; [exact Hne | exact Hk]|].
  split; [exact (H5 Hk)|].
  destruct (unregisterForwardPort_effect scene_grouped 6 7 HW) as (_ & H2' & _).
  exact (H2 ForwardOutput 6%positive 7%positive (or_intror (fun E => match Hne with
           | or_introl F => F eq_refl | or_intror F => F E end))).
Defined.

(** X12 at the group of [scene_grouped]: ["B.i"] registered as a forward
    input that forwards to ["A.o"], and unregistered again. *)
Lemma registerForward_then_unregisterForwardPort_witness :
  let w := scene_grouped in
  let gd := default noGroup (lookupGroupUnlocked w 6) in
  (WF w /\ lookupGroupUnlocked w 6 = Some gd
   /\ forall k', QMap.contains (forwardTable k' gd) 4 = false)
  /\ registry (unregisterForwardPort (registerForward ForwardInput w 6 4 3) 6 4) = registry w
  /\ m_tags (portAt (unregisterForwardPort (registerForward ForwardInput w 6 4 3) 6 4) 4)
     = Taggable.copyTagsFrom (m_tags (portAt w 4)) (m_tags (portAt w 3)).
Proof.
  intros w gd.
  assert (HW : WF w) by (exact (reachable_WF 8 w scene_grouped_reachable)).
  assert (Hg : lookupGroupUnlocked w 6 = Some gd) by (vm_compute; reflexivity).
  assert (Hk : forall k', QMap.contains (forwardTable k' gd) 4 = false)
    by (intros k'; destruct k'; vm_compute; reflexivity).
  split; [split; [exact HW|]; split; [exact Hg | exact Hk]|].
  destruct (registerForward_then_unregisterForwardPort ForwardInput w 6 4 3 gd HW Hg Hk)
    as (H1 & H2 & _).
  split; [exact H1 | exact H2].
Defined.

(** X13 at the group of [scene_grouped]. *)
Lemma deleteItem_group_drops_its_forwarding_witness :
  (WF scene_grouped /\ is_group (nodeAt scene_grouped 6) = true)
  /\ lookupGroupUnlocked (deleteItem scene_grouped 6) 6 = None.
Proof.
  assert (HW : WF scene_grouped) by (exact (reachable_WF 8 scene_grouped scene_grouped_reachable)).
  assert (Hg : is_group (nodeAt scene_grouped 6) = true) by (vm_compute; reflexivity).
  split; [split; [exact HW | exact Hg]|].
  exact (proj1 (deleteItem_group_drops_its_forwarding scene_grouped 6 7 3 HW Hg)).
Defined.

(** X14 at the group of [scene_grouped] and the node ["A"]. *)
Lemma addNodeToGroup_then_removeNodeFromGroup_witness :
  (WF scene_grouped
   /\ forall gd, lookupGroupUnlocked scene_grouped 6 = Some gd ->
        ~ In 1%positive (memberNodes gd))
  /\ removeNodeFromGroup (addNodeToGroup scene_grouped 6 1) 6 1 = scene_grouped.
Proof.
  assert (HW : WF scene_grouped) by (exact (reachable_WF 8 scene_grouped scene_grouped_reachable)).
  assert (Hm : forall gd, lookupGroupUnlocked scene_grouped 6 = Some gd ->
                 ~ In 1%positive (memberNodes gd)).
  { intros gd Hg. vm_compute in Hg. injection Hg as <-. simpl. tauto. }
  split; [split; [exact HW | exact Hm]|].
  exact (addNodeToGroup_then_removeNodeFromGroup scene_grouped 6 1 HW Hm).
Defined.

(** X15 at the group of [scene_grouped] and the node ["A"]. *)
Lemma groupsOf_follows_membership_witness :
  (WF scene_grouped /\ lookupGroupUnlocked scene_grouped 6 <> None
   /\ lookupNodeUnlocked scene_grouped 1 <> None)
  /\ exists gd, In gd (groupsOf (addNodeToGroup scene_grouped 6 1) 1)
       /\ gd_group gd = 6%positive.
Proof.
  assert (HW : WF scene_grouped) by (exact (reachable_WF 8 scene_grouped scene_grouped_reachable)).
  assert (Hg : lookupGroupUnlocked scene_grouped 6 <> None) by (vm_compute; discriminate).
  assert (Hn : lookupNodeUnlocked scene_grouped 1 <> None) by (vm_compute; discriminate).
  split; [split; [exact HW|]; split; [exact Hg | exact Hn]|].
  destruct (groupsOf_follows_membership scene_grouped 6 1 HW) as (_ & H2 & _).
  exact (H2 Hg Hn).
Defined.

(** X16 at [scene_bare_group] and an item 7 that is not registered: it gets
    the id 2, the value of the group counter. *)
Lemma registerGroup_idempotent_fresh_and_distinct_witness :
  (reachable 3 scene_bare_group /\ (Z.of_nat 4 < INT64_MAX)%Z
   /\ lookupGroupUnlocked scene_bare_group 7 = None)
  /\ registerGroup (fst (registerGroup scene_bare_group 7)) 7
     = (fst (registerGroup scene_bare_group 7), snd (registerGroup scene_bare_group 7))
  /\ snd (registerGroup scene_bare_group 7) = m_nextGroupId (registry scene_bare_group).
Proof.
  assert (Hk : (Z.of_nat 4 < INT64_MAX)%Z) by (vm_compute; reflexivity).
  assert (Hn : lookupGroupUnlocked scene_bare_group 7 = None) by (vm_compute; reflexivity).
  split; [split; [exact scene_bare_group_reachable|]; split; [exact Hk | exact Hn]|].
  destruct (registerGroup_idempotent_fresh_and_distinct 3 scene_bare_group 7
              scene_bare_group_reachable Hk) as (H1 & _ & H3 & _).
  split; [exact H1 | exact (proj1 (H3 Hn))].
Defined.

(** X17 at [scene_ungrouped]. *)
Lemma reachable_tables_consistent_witness :
  let d := default noNode (findNode scene_ungrouped "A") in
  (reachable 9 scene_ungrouped /\ findNode scene_ungrouped "A" = Some d)
  /\ List.NoDup (List.map nd_node (allNodes scene_ungrouped))
  /\ getNode scene_ungrouped (nd_node d) = Some d.
Proof.
  intros d.
  assert (Hf : findNode scene_ungrouped "A" = Some d) by (vm_compute; reflexivity).
  destruct (reachable_tables_consistent 9 scene_ungrouped scene_ungrouped_reachable)
    as (H1 & _ & _ & _ & H5).
  split; [split; [exact scene_ungrouped_reachable | exact Hf]|].
  split; [exact H1 | exact (proj1 (H5 "A" d Hf))].
Defined.

(** X18 at [scene_AB_connected] and the node ["B"]: ["A.o"] keeps its
    connection, ["B.i"] has none. *)
Lemma unregisterNode_keeps_connections_of_others_witness :
  let w := scene_AB_connected in
  let d := default noNode (findNode w (m_moduleName (portAt w 3))) in
  (WF w /\ findNode w (m_moduleName (portAt w 3)) = Some d /\ nd_node d <> 2%positive)
  /\ getConnections 1 (unregisterNode w 2) 3 = getConnections 1 w 3
  /\ getConnections 1 w 3 = Some [5%positive].
Proof.
  intros w d.
  assert (HW : WF w) by (exact (reachable_WF 7 w scene_AB_connected_reachable)).
  assert (Hf : findNode w (m_moduleName (portAt w 3)) = Some d) by (vm_compute; reflexivity).
  assert (Hn : nd_node d <> 2%positive) by (vm_compute; discriminate).
  split; [split; [exact HW|]; split; [exact Hf | exact Hn]|].
  split; [|vm_compute; reflexivity].
  exact (proj1 (unregisterNode_keeps_connections_of_others 0 w 2 3 HW) d Hf Hn).
Defined.

(** X19 at the two endpoints of the connection of [scene_AB_connected]. *)
Lemma newConnectionItem_sorts_endpoints_witness :
  let i := {| portName := "i"; moduleName := "B"; isInput := true |} in
  let o := {| portName := "o"; moduleName := "A"; isInput := false |} in
  (isInput i = true /\ isInput o = false)
  /\ newConnectionItem i o = newConnectionItem o i
  /\ m_inputPort (newConnectionItem o i) = i.
Proof.
  intros i o.
  assert (Hi : isInput i = true) by reflexivity.
  assert (Ho : isInput o = false) by reflexivity.
  split; [split; [exact Hi | exact Ho]|].
  destruct (proj1 (newConnectionItem_sorts_endpoints i o) Hi Ho) as (H1 & H2 & _).
  split; [exact H1|]. rewrite <- H1. exact H2.
Defined.

(** X20 at the call that makes the connection of [scene_AB_connected]. *)
Lemma createConnectionBetweenPorts_success_conditions_witness :
  createConnectionBetweenPorts 3 scene_AB 3 4 = Some (scene_AB_connected, Some 5%positive)
  /\ Taggable.haveSameTags (m_tags (portAt scene_AB 3)) (m_tags (portAt scene_AB 4)) = true
  /\ 5%positive = nextAddr scene_AB.
Proof.
  assert (H : createConnectionBetweenPorts 3 scene_AB 3 4
              = Some (scene_AB_connected, Some 5%positive)) by (vm_compute; reflexivity).
  split; [exact H|].
  destruct (createConnectionBetweenPorts_success_conditions 3 scene_AB 3 4
              scene_AB_connected 5 H) as (_ & _ & _ & _ & _ & _ & _ & H8 & _ & _ & _ & H12 & _).
  split; [exact H8 | exact H12].
Defined.

(** X21 at the same call: the connection is found in both orders, and the
    call is refused when it is repeated. *)
Lemma createConnectionBetweenPorts_then_connected_witness :
  (WF scene_AB
   /\ getAllForwardedPortsFromAPort scene_AB 3 = []
   /\ getAllForwardedPortsFromAPort scene_AB 4 = []
   /\ findNode scene_AB (m_moduleName (portAt scene_AB 3)) <> None
   /\ findNode scene_AB (m_moduleName (portAt scene_AB 4)) <> None
   /\ createConnectionBetweenPorts 3 scene_AB 3 4 = Some (scene_AB_connected, Some 5%positive))
  /\ hasConnectionTo 3 scene_AB_connected 4 3 = Some true
  /\ createConnectionBetweenPorts 3 scene_AB_connected 3 4 = Some (scene_AB_connected, None).
Proof.
  assert (HW : WF scene_AB) by (exact (reachable_WF 6 scene_AB scene_AB_reachable)).
  assert (F3 : getAllForwardedPortsFromAPort scene_AB 3 = []) by (vm_compute; reflexivity).
  assert (F4 : getAllForwardedPortsFromAPort scene_AB 4 = []) by (vm_compute; reflexivity).
  assert (N3 : findNode scene_AB (m_moduleName (portAt scene_AB 3)) <> None)
    by (vm_compute; discriminate).
  assert (N4 : findNode scene_AB (m_moduleName (portAt scene_AB 4)) <> None)
    by (vm_compute; discriminate).
  assert (H : createConnectionBetweenPorts 3 scene_AB 3 4
              = Some (scene_AB_connected, Some 5%positive)) by (vm_compute; reflexivity).
  split; [split; [exact HW|]; split; [exact F3|]; split; [exact F4|]; split; [exact N3|];
          split; [exact N4 | exact H]|].
  destruct (createConnectionBetweenPorts_then_connected 3 scene_AB 3 4 scene_AB_connected 5
              HW F3 F4 N3 N4 H) as (_ & H2 & H3 & _).
  split; [exact H2 | exact H3].
Defined.

(** X22 at the node ["B"], which has an input ["i"] already: the new port
    is at 5, and the port found by name is the old one at 4. *)
Lemma addInput_then_getInputPortByName_witness :
  List.Forall (fun p => (p < nextAddr scene_AB)%positive) (m_inputs (nodeAt scene_AB 2))
  /\ snd (addInput scene_AB 2 "i") = nextAddr scene_AB
  /\ getInputPortByName (fst (addInput scene_AB 2 "i")) 2 "i"
     = Some (match getInputPortByName scene_AB 2 "i" with
             | Some q => q
             | None => snd (addInput scene_AB 2 "i")
             end).
Proof.
  assert (Hl : List.Forall (fun p => (p < nextAddr scene_AB)%positive)
                 (m_inputs (nodeAt scene_AB 2))).
  { assert (E : m_inputs (nodeAt scene_AB 2) = [4%positive]) by (vm_compute; reflexivity).
    rewrite E. constructor; [vm_compute; reflexivity | constructor]. }
  split; [exact Hl|].
  destruct (addInput_then_getInputPortByName scene_AB 2 "i" Hl) as (H1 & _ & _ & H4 & _).
  split; [exact H1 | exact H4].
Defined.

(** X23 at the connected input ["B.i"]: removed, its connection is still
    listed by ["A.o"]. *)
Lemma removeInput_keeps_connections_registered_witness :
  let w := scene_AB_connected in
  (WF w /\ In 4%positive (m_inputs (nodeAt w 2))
   /\ 3%positive <> 4%positive /\ findNode w (m_moduleName (portAt w 3)) <> None)
  /\ getConnections 1 (removeInput w 2 4) 3 = getConnections 1 w 3
  /\ m_inputs (nodeAt (removeInput w 2 4) 2) = removeOne 4 (m_inputs (nodeAt w 2)).
Proof.
  intros w.
  assert (HW : WF w) by (exact (reachable_WF 7 w scene_AB_connected_reachable)).
  assert (Hin : In 4%positive (m_inputs (nodeAt w 2))).
  { assert (E : m_inputs (nodeAt w 2) = [4%positive]) by (vm_compute; reflexivity).
    rewrite E. left. reflexivity. }
  assert (H34 : 3%positive <> 4%positive) by discriminate.
  assert (Hf3 : findNode w (m_moduleName (portAt w 3)) <> None) by (vm_compute; discriminate).
  split; [split; [exact HW|]; split; [exact Hin|]; split; [exact H34 | exact Hf3]|].
  destruct (removeInput_keeps_connections_registered 0 w 2 4 HW Hin) as (H1 & _ & H3 & _).
  split; [exact (H3 3%positive H34 Hf3) | exact H1].
Defined.

(** X24 at the group of [scene_grouped] and its member ["A"]. *)
Lemma ungroup_shows_members_witness :
  In 1%positive (group_nodes (nodeAt scene_grouped 6))
  /\ node_isVisible (nodeAt (ungroup scene_grouped 6) 1) = true
  /\ node_isMovable (nodeAt (ungroup scene_grouped 6) 1) = true.
Proof.
  assert (Hin : In 1%positive (group_nodes (nodeAt scene_grouped 6))).
  { assert (E : group_nodes (nodeAt scene_grouped 6) = [1%positive; 2%positive])
      by (vm_compute; reflexivity).
    rewrite E. left. reflexivity. }
  split; [exact Hin|].
  destruct (ungroup_shows_members scene_grouped 6) as (_ & _ & _ & _ & _ & H).
  destruct (H 1%positive Hin) as (H1 & H2 & _).
  split; [exact H1 | exact H2].
Defined.

(** X25 at the call that makes the group of [scene_grouped]. *)
Lemma newGroupItem_hides_members_witness :
  (newGroupItem scene_AB_connected [1%positive; 2%positive] = Some (scene_grouped, 6%positive)
   /\ In 1%positive [1%positive; 2%positive]
   /\ (1 < nextAddr scene_AB_connected)%positive)
  /\ node_isVisible (nodeAt scene_grouped 1) = false
  /\ node_isMovable (nodeAt scene_grouped 1) = false.
Proof.
  assert (H : newGroupItem scene_AB_connected [1%positive; 2%positive]
              = Some (scene_grouped, 6%positive)) by (vm_compute; reflexivity).
  assert (Hin : In 1%positive [1%positive; 2%positive]) by (left; reflexivity).
  assert (Hlt : (1 < nextAddr scene_AB_connected)%positive) by (vm_compute; reflexivity).
  split; [split; [exact H|]; split; [exact Hin | exact Hlt]|].
  destruct (newGroupItem_hides_members scene_AB_connected [1%positive; 2%positive]
              scene_grouped 6 H) as (_ & H2).
  destruct (H2 1%positive Hin Hlt) as (V & M & _).
  split; [exact V | exact M].
Defined.

(** X26 at the node of [scene_param], whose parameter port has no
    connection: its control is enabled by the call. *)
Lemma disableWidget_enables_exactly_unconnected_witness :
  (ascending (QMap.keys (m_parameterPorts (nodeAt scene_param 1)))
   /\ ranked scene_param (fun _ => 0)
   /\ forall p, In p (QMap.keys (m_parameterPorts (nodeAt scene_param 1))) -> 0 + 1 < 2)
  /\ exists w', disableWidgetOfConnectedParametersInput 2 scene_param 1 = Some w'
       /\ registry w' = registry scene_param.
Proof.
  assert (Ha : ascending (QMap.keys (m_parameterPorts (nodeAt scene_param 1)))).
  { assert (E : QMap.keys (m_parameterPorts (nodeAt scene_param 1)) = [2%positive])
      by (vm_compute; reflexivity).
    rewrite E. simpl. split; [constructor | exact I]. }
  assert (Hr : ranked scene_param (fun _ => 0))
    by (apply no_group_ranked; vm_compute; reflexivity).
  assert (Hf : forall p, In p (QMap.keys (m_parameterPorts (nodeAt scene_param 1))) -> 0 + 1 < 2)
    by (intros; lia).
  split; [split; [exact Ha|]; split; [exact Hr | exact Hf]|].
  destruct (disableWidget_enables_exactly_unconnected 2 scene_param 1 (fun _ => 0) Ha Hr Hf)
    as (w' & H1 & _ & _ & _ & H5 & _).
  exists w'. split; [exact H1 | exact H5].
Defined.

(** X27 at [createConnection] for ["A.o"] and ["B.i"], which activates the
    node ["B"], and at a call that is refused. *)
Lemma createConnection_sets_sink_node_active_witness :
  let w' := default scene_AB (option_map fst (createConnection 3 scene_AB 3 4 true)) in
  (createConnection 3 scene_AB 3 4 true = Some (w', Some 5%positive)
   /\ createConnection 3 scene_ABC 7 4 true = Some (scene_ABC, None))
  /\ (exists w1 nd, createConnectionBetweenPorts 3 scene_AB 3 4 = Some (w1, Some 5%positive)
        /\ isNodeActive w' (nd_node nd) = true)
  /\ scene_ABC = scene_ABC.
Proof.
  intros w'.
  assert (H : createConnection 3 scene_AB 3 4 true = Some (w', Some 5%positive))
    by (vm_compute; reflexivity).
  assert (H' : createConnection 3 scene_ABC 7 4 true = Some (scene_ABC, None))
    by (vm_compute; reflexivity).
  split; [split; [exact H | exact H']|].
  destruct (proj1 (createConnection_sets_sink_node_active 3 scene_AB 3 4 true w') 5%positive H)
    as (w1 & nd & H1 & _ & _ & H4 & _).
  split; [exists w1, nd; split; [exact H1 | exact H4]|].
  exact (proj2 (createConnection_sets_sink_node_active 3 scene_ABC 7 4 true scene_ABC) H').
Defined.
